(** * The MSSQL quoting fix of the debug package: a shallow embedding

    The wrapped ent driver rewrites every statement with three text
    transforms, [translate], [transformLimitQuery] and
    [maybeAddOutputClause], before it delegates to the wrapped driver.
    A Go [string] is a sequence of bytes: it is modelled as [list ascii].
    [translate] reads and writes bytes and is modelled as it is written.
    The functions of Go's [strings], [strconv] and [regexp] packages that
    the other two transforms call are modelled on bytes with their ASCII
    behaviour (case mapping of [A-Z], the six ASCII white-space bytes).
    On a text without a byte above 127 ([isASCII]) they are Go's
    functions.  On other text Go works on runes: [strings.TrimSpace]
    also trims Unicode white space, [strings.ToLower] can change the
    length in bytes, [(?i)] folds [s] with U+017F, and a slice taken at
    an offset found in the lower-cased text can be out of range.  The
    model does not follow Go there, so what is proved of the two
    transforms and of the script runner is stated for ASCII text, or
    computes them at an ASCII text.

    Two functions of the inventory package, which installs the wrapper,
    are modelled with it: [executeSQLScriptFile], which runs a schema
    script batch by batch, and [init], which registers the sqlite3
    driver. *)

From Stdlib Require Import Ascii String ZArith Lia Bool Arith DecimalString List.
Import ListNotations.
Import Corelib.Init.Datatypes.

Coercion list_ascii_of_string : string >-> list.

Open Scope string_scope.
Open Scope list_scope.

(** ** Go's [int] *)

Definition intMax : Z := 2 ^ 63 - 1.

(** Signed 64-bit wrap-around of [int] arithmetic. *)
Definition wrapInt (z : Z) : Z := ((z + 2 ^ 63) mod 2 ^ 64 - 2 ^ 63)%Z.

(** ** package strconv *)

(** [strconv.Itoa]: the decimal text of an [int], with a minus sign for
    negative numbers. *)
Definition Itoa (n : Z) : list ascii := NilZero.string_of_int (Z.to_int n).

(** ** ASCII text *)

(** A text without a byte above 127: the text on which the functions of
    [strings] and [regexp] below are the functions of Go. *)
Definition isASCII (s : list ascii) : bool :=
  forallb (fun c => (nat_of_ascii c <? 128)%nat) s.

(** ** package strings *)

Module strings.

(** The ASCII white space of [unicode.IsSpace]: tab, line feed, vertical
    tab, form feed, carriage return and space.  The white space above
    127 (U+0085, U+00A0, U+1680, U+2000 to U+200A, U+2028, U+2029,
    U+202F, U+205F, U+3000) is left out. *)
Definition isSpace (c : ascii) : bool :=
  let n := nat_of_ascii c in (((9 <=? n) && (n <=? 13)) || (n =? 32))%nat.

Fixpoint TrimLeftSpace (s : list ascii) : list ascii :=
  match s with
  | c :: s' => if isSpace c then TrimLeftSpace s' else s
  | [] => []
  end.

Definition TrimRightSpace (s : list ascii) : list ascii :=
  rev (TrimLeftSpace (rev s)).

(** [strings.TrimSpace] on ASCII text: all leading and trailing white
    space removed. *)
Definition TrimSpace (s : list ascii) : list ascii :=
  TrimRightSpace (TrimLeftSpace s).

Definition isUpper (c : ascii) : bool :=
  let n := nat_of_ascii c in ((65 <=? n) && (n <=? 90))%nat.

Definition lowerByte (c : ascii) : ascii :=
  if isUpper c then ascii_of_nat (nat_of_ascii c + 32) else c.

(** [strings.ToLower] on ASCII text: byte by byte, so of the same
    length.  (On other text Go maps runes, and the result can be longer
    or shorter than the argument.) *)
Definition ToLower (s : list ascii) : list ascii := map lowerByte s.

(** [strings.HasPrefix]. *)
Fixpoint HasPrefix (s prefix : list ascii) {struct prefix} : bool :=
  match prefix with
  | [] => true
  | p :: prefix' =>
      match s with
      | c :: s' => (c =? p)%char && HasPrefix s' prefix'
      | [] => false
      end
  end.

(** [strings.Index]: the byte offset of the first occurrence of [substr]
    in [s], or -1 when there is none. *)
Fixpoint Index (s substr : list ascii) : Z :=
  if HasPrefix s substr then 0%Z
  else match s with
       | [] => (-1)%Z
       | _ :: s' => let r := Index s' substr in
                    if (r <? 0)%Z then (-1)%Z else (r + 1)%Z
       end.

(** [strings.Contains] is [Index(s, substr) >= 0]. *)
Definition Contains (s substr : list ascii) : bool := (0 <=? Index s substr)%Z.

(** [strings.Split] with a separator of one byte: the pieces of [s]
    between the occurrences of [sep], one more than there are
    occurrences; the empty text gives one empty piece. *)
Fixpoint Split (s : list ascii) (sep : ascii) : list (list ascii) :=
  match s with
  | [] => [[]]
  | c :: s' =>
      if (c =? sep)%char then [] :: Split s' sep
      else match Split s' sep with
           | piece :: pieces => (c :: piece) :: pieces
           | [] => [[c]]
           end
  end.

(** [strings.EqualFold], byte by byte on the letters [A-Z] and [a-z]. *)
Fixpoint EqualFold (s t : list ascii) : bool :=
  match s, t with
  | [], [] => true
  | c :: s', d :: t' => (lowerByte c =? lowerByte d)%char && EqualFold s' t'
  | _, _ => false
  end.

End strings.

(** Slice expressions [s[:n]] and [s[n:]].  Go panics when [n] is
    negative or exceeds [len(s)]; the lemmas
    [maybeAddOutputClause_in_range], [transformLimitQuery_in_range] and
    [insertPos_in_range] below show that every slice the transforms take
    of an ASCII text is in range.  They rest on [ToLower] keeping the
    length, so they say nothing of other text; [maybeAddOutputClauseAt]
    below has the bounds of [maybeAddOutputClause] checked. *)
Definition sliceTo (s : list ascii) (n : Z) : list ascii := firstn (Z.to_nat n) s.
Definition sliceFrom (s : list ascii) (n : Z) : list ascii := skipn (Z.to_nat n) s.

(** ** translate *)

(** The local variables of [translate]: the loop index [i], the two flags,
    the parameter counter and the [strings.Builder] [b]. *)
Record scanner : Type := mkScanner {
  i : nat;
  openBracket : bool;
  inString : bool;
  paramIndex : Z;
  b : list ascii
}.

Definition WriteByte (st : scanner) (c : ascii) : scanner :=
  mkScanner (i st) (openBracket st) (inString st) (paramIndex st) (b st ++ [c]).

Definition WriteString (st : scanner) (s : list ascii) : scanner :=
  mkScanner (i st) (openBracket st) (inString st) (paramIndex st) (b st ++ s).

Definition setInString (st : scanner) (v : bool) : scanner :=
  mkScanner (i st) (openBracket st) v (paramIndex st) (b st).

Definition flipOpenBracket (st : scanner) : scanner :=
  mkScanner (i st) (negb (openBracket st)) (inString st) (paramIndex st) (b st).

Definition incParamIndex (st : scanner) : scanner :=
  mkScanner (i st) (openBracket st) (inString st) (wrapInt (paramIndex st + 1)) (b st).

(** [i++], both the one inside the escaped-quote branch and the post
    statement of the [for], which also runs after [continue]. *)
Definition incI (st : scanner) : scanner :=
  mkScanner (S (i st)) (openBracket st) (inString st) (paramIndex st) (b st).

(** [openBracket := true; inString := false; paramIndex := 1]. *)
Definition initial : scanner := mkScanner 0 true false 1 [].

(** One iteration of the [for] loop of [translate], post statement
    included.  The loop guard makes [query[i]] defined.  ([b.Grow] only
    reserves capacity and has no counterpart here.) *)
Definition body (query : list ascii) (st : scanner) : scanner :=
  match nth_error query (i st) with
  | None => st
  | Some c =>
      if (c =? "'")%char then
        let st := WriteByte st c in
        if inString st then
          if (i st + 1 <? length query)%nat && (nth (i st + 1) query zero =? "'")%char
          then incI (incI (WriteByte st "'"%char))
          else incI (setInString st false)
        else incI (setInString st true)
      else if (c =? "`")%char then
        if inString st then incI (WriteByte st c)
        else
          let st := if openBracket st then WriteByte st "["%char else WriteByte st "]"%char in
          incI (flipOpenBracket st)
      else if (c =? "?")%char then
        if inString st then incI (WriteByte st c)
        else
          let st := WriteByte (WriteByte st "@"%char) "p"%char in
          let st := WriteString st (Itoa (paramIndex st)) in
          incI (incParamIndex st)
      else incI (WriteByte st c)
  end.

(** [for i := 0; i < len(query); i++ { ... }].  Every iteration advances
    [i], so [len(query)] iterations are enough ([loop_exits]). *)
Fixpoint loop (fuel : nat) (query : list ascii) (st : scanner) : scanner :=
  match fuel with
  | O => st
  | S fuel' =>
      if (i st <? length query)%nat then loop fuel' query (body query st) else st
  end.

Definition translate (query : list ascii) : list ascii :=
  b (loop (length query) query initial).

(** ** package regexp *)

Module regexp.

(** The part of the RE2 syntax that the two patterns of
    [transformLimitQuery] use, all under the flag [(?i)]: a literal byte, a
    greedy repetition of a character class, a capturing group around
    one, and the end of text [$]. *)
Inductive node : Type :=
  | Lit (c : ascii)                (* c, either case *)
  | Plus (cl : ascii -> bool)      (* cl+ *)
  | Star (cl : ascii -> bool)      (* cl* *)
  | CapPlus (cl : ascii -> bool)   (* (cl+) *)
  | EndText.                       (* $ *)

(** [\s] is [[\t\n\f\r ]]: no vertical tab. *)
Definition spaceClass (c : ascii) : bool :=
  let n := nat_of_ascii c in
  ((n =? 9) || (n =? 10) || (n =? 12) || (n =? 13) || (n =? 32))%nat.

(** [\d] is [[0-9]]. *)
Definition digitClass (c : ascii) : bool :=
  let n := nat_of_ascii c in ((48 <=? n) && (n <=? 57))%nat.

(** A literal under [(?i)], on ASCII text: the byte in either case. *)
Definition foldEq (x c : ascii) : bool :=
  (strings.lowerByte x =? strings.lowerByte c)%char.

(** The text a match covers, and its capture groups in order. *)
Definition result : Type := (list ascii * list (list ascii))%type.

Definition consumed (x : list ascii) (r : option result) : option result :=
  match r with
  | Some (m, caps) => Some (x ++ m, caps)
  | None => None
  end.

Definition captured (x : list ascii) (r : option result) : option result :=
  match r with
  | Some (m, caps) => Some (x ++ m, x :: caps)
  | None => None
  end.

(** [cl*] followed by the continuation [k]: the longest run first, then
    shorter ones.  [acc] is the run taken so far and [wrap] records it in
    the result of [k]. *)
Fixpoint greedy (cl : ascii -> bool)
    (wrap : list ascii -> option result -> option result)
    (k : list ascii -> option result)
    (acc s : list ascii) : option result :=
  match s with
  | x :: s' =>
      if cl x then
        match greedy cl wrap k (acc ++ [x]) s' with
        | Some r => Some r
        | None => wrap acc (k s)
        end
      else wrap acc (k s)
  | [] => wrap acc (k s)
  end.

(** A match of the pattern [p] that starts at the head of [s]. *)
Fixpoint matchHere (p : list node) (s : list ascii) {struct p} : option result :=
  match p with
  | [] => Some ([], [])
  | Lit c :: p' =>
      match s with
      | x :: s' => if foldEq x c then consumed [x] (matchHere p' s') else None
      | [] => None
      end
  | Star cl :: p' => greedy cl consumed (matchHere p') [] s
  | Plus cl :: p' =>
      match s with
      | x :: s' => if cl x then greedy cl consumed (matchHere p') [x] s' else None
      | [] => None
      end
  | CapPlus cl :: p' =>
      match s with
      | x :: s' => if cl x then greedy cl captured (matchHere p') [x] s' else None
      | [] => None
      end
  | EndText :: p' =>
      match s with
      | [] => matchHere p' []
      | _ :: _ => None
      end
  end.

(** [Regexp.FindStringSubmatch]: the leftmost match, as the slice of
    the matched text followed by the capture groups; [None] is [nil]. *)
Fixpoint FindStringSubmatch (re : list node) (s : list ascii)
    : option (list (list ascii)) :=
  match matchHere re s with
  | Some (m, caps) => Some (m :: caps)
  | None =>
      match s with
      | [] => None
      | _ :: s' => FindStringSubmatch re s'
      end
  end.

Definition lits (s : list ascii) : list node := map Lit s.

End regexp.

(** ** maybeAddOutputClause *)

Definition maybeAddOutputClause (q : list ascii) : list ascii :=
  let lower := strings.ToLower (strings.TrimSpace q) in
  if negb (strings.HasPrefix lower "insert into") then q
  else if strings.Contains lower " output " then q
  else
    let idx := strings.Index lower " values" in
    if (idx =? -1)%Z then q
    else sliceTo q idx ++ " OUTPUT INSERTED.[id]" ++ sliceFrom q idx.

(** Lines 123 to 137 of [maybeAddOutputClause] for a given value
    [lower] of [strings.ToLower(strings.TrimSpace(q))], with the bounds
    of the slices [q[:idx]] and [q[idx:]] checked as Go checks them:
    [None] is the run-time panic.  [idx] is an offset of [lower] and is
    used on [q]. *)
Definition maybeAddOutputClauseAt (lower q : list ascii) : option (list ascii) :=
  if negb (strings.HasPrefix lower "insert into") then Some q
  else if strings.Contains lower " output " then Some q
  else
    let idx := strings.Index lower " values" in
    if (idx =? -1)%Z then Some q
    else if (idx <=? Z.of_nat (length q))%Z
         then Some (sliceTo q idx ++ " OUTPUT INSERTED.[id]" ++ sliceFrom q idx)
         else None.

(** ** transformLimitQuery *)

Import regexp.

(** [(?i)\s+LIMIT\s+(\d+)\s*$] *)
Definition limitOnly : list node :=
  [Plus spaceClass] ++ lits "LIMIT" ++ [Plus spaceClass; CapPlus digitClass;
   Star spaceClass; EndText].

(** [(?i)\s+LIMIT\s+(\d+)\s+OFFSET\s+(\d+)\s*$] *)
Definition limitOffset : list node :=
  [Plus spaceClass] ++ lits "LIMIT" ++ [Plus spaceClass; CapPlus digitClass;
   Plus spaceClass] ++ lits "OFFSET" ++ [Plus spaceClass; CapPlus digitClass;
   Star spaceClass; EndText].

(** [m[k]] of a submatch slice. *)
Definition sub (m : list (list ascii)) (k : nat) : list ascii := nth k m [].

Definition transformLimitQuery (query : list ascii) : list ascii :=
  let trimmed := strings.TrimSpace query in
  match FindStringSubmatch limitOffset trimmed with
  | Some m =>
      let limit := sub m 1 in
      let offset := sub m 2 in
      let base := strings.TrimSpace
        (sliceTo trimmed (Z.of_nat (length trimmed) - Z.of_nat (length (sub m 0)))) in
      let lower := strings.ToLower base in
      let base := if negb (strings.Contains lower " order by ")
                  then base ++ " ORDER BY (SELECT NULL)" else base in
      base ++ " OFFSET " ++ offset ++ " ROWS FETCH NEXT " ++ limit ++ " ROWS ONLY"
  | None =>
      match FindStringSubmatch limitOnly trimmed with
      | Some m =>
          let limit := sub m 1 in
          let base := strings.TrimSpace
            (sliceTo trimmed (Z.of_nat (length trimmed) - Z.of_nat (length (sub m 0)))) in
          let lower := strings.ToLower base in
          if strings.Contains lower " order by " then
            base ++ " OFFSET 0 ROWS FETCH NEXT " ++ limit ++ " ROWS ONLY"
          else
            let idx := strings.Index (strings.ToLower base) "select" in
            if negb (idx =? -1)%Z then
              let insertPos := (idx + Z.of_nat (length ("select" : list ascii)))%Z in
              sliceTo base insertPos ++ " TOP " ++ limit ++ sliceFrom base insertPos
            else query
      | None => query
      end
  end.

(** ** The driver and transaction wrappers *)

(** Go's [==] on strings. *)
Fixpoint eqString (x y : list ascii) : bool :=
  match x, y with
  | [], [] => true
  | c :: x', d :: y' => (c =? d)%char && eqString x' y'
  | _, _ => false
  end.

Section Wrappers.

(** [context.Context] and the values behind [any]. *)
Variables (Context any : Type).

(** A [dialect.Driver] interface value: nil, a driver of another package
    (the object at address [addr], with the label its [Dialect()] reports
    and the optional interfaces it implements), or a wrapper of this
    package allocated at [addr]. *)
Inductive Driver : Type :=
  | nilDriver
  | foreignDriver (addr : nat) (dialectName : list ascii)
      (hasExecContext hasQueryContext hasBeginTx : bool)
  | mkQuoteFixDriver (addr : nat) (Driver : Driver).

(** A [dialect.Tx] interface value. *)
Inductive Tx : Type :=
  | foreignTx (addr : nat)
  | mkQuoteFixTx (addr : nat) (Tx : Tx).

(** [d.Dialect()]; the wrapper embeds its [Driver], so the method is the
    wrapped driver's.  On nil the call panics: [None]. *)
Fixpoint Dialect (d : Driver) : option (list ascii) :=
  match d with
  | nilDriver => None
  | foreignDriver _ dialectName _ _ _ => Some dialectName
  | mkQuoteFixDriver _ inner => Dialect inner
  end.

(** [newQuoteFixDriver], with the allocator made explicit: [next] is the
    next free address, and the result carries the one after the call. *)
Definition newQuoteFixDriver (next : nat) (d : Driver) : option (Driver * nat) :=
  match d with
  | nilDriver => Some (d, next)
  | _ =>
      match Dialect d with
      | None => None
      | Some name =>
          let dialectName := strings.ToLower name in
          if negb (eqString dialectName "mssql")
             && negb (eqString dialectName "sqlserver")
          then Some (d, next)
          else Some (mkQuoteFixDriver next d, S next)
      end
  end.

Definition WrapMSSQLQuoteFix (next : nat) (d : Driver) : option (Driver * nat) :=
  newQuoteFixDriver next d.

(** The destination argument [v] of a delegated call: the caller's, or
    the address of a local of the fall-back path. *)
Inductive dest : Type :=
  | given (v : any)
  | localRes
  | localRows.

(** A call on the wrapped driver or transaction. *)
Inductive call : Type :=
  | Driver_Exec (recv : Driver) (ctx : Context) (query : list ascii) (args : any) (v : dest)
  | Driver_ExecContext (recv : Driver) (ctx : Context) (query : list ascii) (args : list any)
  | Driver_Query (recv : Driver) (ctx : Context) (query : list ascii) (args : any) (v : dest)
  | Driver_QueryContext (recv : Driver) (ctx : Context) (query : list ascii) (args : list any)
  | Tx_Exec (recv : Tx) (ctx : Context) (query : list ascii) (args : any) (v : dest)
  | Tx_Query (recv : Tx) (ctx : Context) (query : list ascii) (args : any) (v : dest).

(** The type assertions on [d.Driver]; the wrapper itself has all the
    context methods. *)
Definition implementsExecContext (d : Driver) : bool :=
  match d with
  | nilDriver => false
  | foreignDriver _ _ hasExecContext _ _ => hasExecContext
  | mkQuoteFixDriver _ _ => true
  end.

Definition implementsQueryContext (d : Driver) : bool :=
  match d with
  | nilDriver => false
  | foreignDriver _ _ _ hasQueryContext _ => hasQueryContext
  | mkQuoteFixDriver _ _ => true
  end.

End Wrappers.

Arguments given {any}.
Arguments localRes {any}.
Arguments localRows {any}.
Arguments Driver_Exec {Context any}.
Arguments Driver_ExecContext {Context any}.
Arguments Driver_Query {Context any}.
Arguments Driver_QueryContext {Context any}.
Arguments Tx_Exec {Context any}.
Arguments Tx_Query {Context any}.

(** The methods of [*quoteFixDriver]: each is given the receiver's field
    [Driver] and returns the call it delegates to. *)
Module quoteFixDriver.
Section Methods.
Context {Context any : Type}.

(** A [[]any] passed where an [any] is expected. *)
Variable slice : list any -> any.

Definition Exec (Driver : Driver) (ctx : Context) (query : list ascii)
    (args v : any) : call Context any :=
  Driver_Exec Driver ctx (transformLimitQuery (translate query)) args (given v).

Definition ExecContext (Driver : Driver) (ctx : Context) (query : list ascii)
    (args : list any) : call Context any :=
  if implementsExecContext Driver then
    Driver_ExecContext Driver ctx (transformLimitQuery (translate query)) args
  else
    Driver_Exec Driver ctx (transformLimitQuery (translate query)) (slice args)
      localRes.

Definition Query (Driver : Driver) (ctx : Context) (query : list ascii)
    (args v : any) : call Context any :=
  Driver_Query Driver ctx
    (maybeAddOutputClause (transformLimitQuery (translate query))) args (given v).

Definition QueryContext (Driver : Driver) (ctx : Context) (query : list ascii)
    (args : list any) : call Context any :=
  let translated := maybeAddOutputClause (transformLimitQuery (translate query)) in
  if implementsQueryContext Driver then
    Driver_QueryContext Driver ctx translated args
  else
    Driver_Query Driver ctx translated (slice args) localRows.

End Methods.
End quoteFixDriver.

(** The methods of [*quoteFixTx], given the receiver's field [Tx]. *)
Module quoteFixTx.
Section Methods.
Context {Context any : Type}.

Definition Exec (Tx : Tx) (ctx : Context) (query : list ascii) (args v : any)
    : call Context any :=
  Tx_Exec Tx ctx (transformLimitQuery (translate query)) args (given v).

Definition Query (Tx : Tx) (ctx : Context) (query : list ascii) (args v : any)
    : call Context any :=
  Tx_Query Tx ctx
    (maybeAddOutputClause (transformLimitQuery (translate query))) args (given v).

End Methods.
End quoteFixTx.

(** The text and the bound arguments a delegated call carries: the
    [any] of the base methods, or the slice of the context ones. *)
Definition callQuery {Context any : Type} (c : call Context any) : list ascii :=
  match c with
  | Driver_Exec _ _ q _ _ | Driver_ExecContext _ _ q _
  | Driver_Query _ _ q _ _ | Driver_QueryContext _ _ q _
  | Tx_Exec _ _ q _ _ | Tx_Query _ _ q _ _ => q
  end.

Definition callArgs {Context any : Type} (c : call Context any) : any + list any :=
  match c with
  | Driver_Exec _ _ _ a _ | Driver_Query _ _ _ a _
  | Tx_Exec _ _ _ a _ | Tx_Query _ _ _ a _ => inl a
  | Driver_ExecContext _ _ _ a | Driver_QueryContext _ _ _ a => inr a
  end.

(** ** Reading a statement by position

    The notions the properties of [translate] are stated with.  A byte
    lies inside a single-quoted literal when an odd number of single
    quotes precede it: a doubled quote inside a literal counts twice and
    leaves the parity alone. *)

Definition quotesBefore (query : list ascii) (j : nat) : nat :=
  count_occ ascii_dec (firstn j query) "'"%char.

Definition insideLiteral (query : list ascii) (j : nat) : bool :=
  Nat.odd (quotesBefore query j).

(** The byte at [k] is [c] and lies outside every literal. *)
Definition outsideAt (c : ascii) (query : list ascii) (k : nat) : bool :=
  match nth_error query k with
  | Some x => (x =? c)%char && negb (insideLiteral query k)
  | None => false
  end.

(** How many [c] outside literals come before position [j]. *)
Definition outsideBefore (c : ascii) (query : list ascii) (j : nat) : nat :=
  length (filter (outsideAt c query) (seq 0 j)).

(** The value of [paramIndex] after [n] increments. *)
Definition counterAfter (n : nat) : Z :=
  Nat.iter n (fun p => wrapInt (p + 1)) 1%Z.

(** What the byte at position [j] becomes. *)
Definition chunkAt (query : list ascii) (j : nat) : list ascii :=
  match nth_error query j with
  | None => []
  | Some c =>
      if (c =? "?")%char then
        if insideLiteral query j then [c]
        else "@p" ++ Itoa (counterAfter (outsideBefore "?"%char query j))
      else if (c =? "`")%char then
        if insideLiteral query j then [c]
        else if Nat.even (outsideBefore "`"%char query j) then "[" else "]"
      else [c]
  end.

Definition chunks (query : list ascii) : list (list ascii) :=
  map (chunkAt query) (seq 0 (length query)).

(** The loop of [translate] seen from the unread suffix [s] of the
    statement: what is still to be written, from the flags and the
    counter. *)
Fixpoint scan (s : list ascii) (ob ins : bool) (p : Z) : list ascii :=
  match s with
  | [] => []
  | c :: s' =>
      if (c =? "'")%char then
        if ins then
          match s' with
          | c' :: s'' =>
              if (c' =? "'")%char then c :: c' :: scan s'' ob true p
              else c :: scan s' ob false p
          | [] => [c]
          end
        else c :: scan s' ob true p
      else if (c =? "`")%char then
        if ins then c :: scan s' ob ins p
        else (if ob then "["%char else "]"%char) :: scan s' (negb ob) ins p
      else if (c =? "?")%char then
        if ins then c :: scan s' ob ins p
        else "@p" ++ Itoa p ++ scan s' ob ins (wrapInt (p + 1))
      else c :: scan s' ob ins p
  end.

(** The bracket delimiters of a text, and the sequence of [n] brackets
    that alternates from the opening one. *)
Definition isBracket (c : ascii) : bool := (c =? "[")%char || (c =? "]")%char.

Definition bracketsOf (s : list ascii) : list ascii := filter isBracket s.

Fixpoint alternatingFrom (opening : bool) (n : nat) : list ascii :=
  match n with
  | O => []
  | S n' => (if opening then "["%char else "]"%char) :: alternatingFrom (negb opening) n'
  end.

Definition alternating (n : nat) : list ascii := alternatingFrom true n.

(** The rule for single quotes without the condition on [inString]: at
    a quote that another quote follows the pair is written, the index
    moves past both and the flag is kept; at any other quote the flag is
    toggled. *)
Definition quoteRuleUnconditional (query : list ascii) (st : scanner) : Prop :=
  nth_error query (i st) = Some "'"%char ->
  (nth_error query (S (i st)) = Some "'"%char ->
     body query st =
     mkScanner (i st + 2) (openBracket st) (inString st) (paramIndex st) (b st ++ "''")) /\
  (nth_error query (S (i st)) <> Some "'"%char ->
     body query st =
     mkScanner (i st + 1) (openBracket st) (negb (inString st)) (paramIndex st)
       (b st ++ "'")).

(** ** Reading a match

    What it means for a pattern to match at the head of a text,
    declaratively: [accepts false p s m caps] says that [m], a prefix of
    [s], splits into the pieces the nodes of [p] ask for, with [caps] the
    captured ones; [accepts true] also asks every repetition to be
    maximal, the next byte being outside its class. *)

Definition startsOutside (cl : ascii -> bool) (s : list ascii) : bool :=
  match s with
  | [] => true
  | x :: _ => negb (cl x)
  end.

Definition endsOutside (cl : ascii -> bool) (s : list ascii) : bool :=
  startsOutside cl (rev s).

Fixpoint accepts (longest : bool) (p : list regexp.node) (s m : list ascii)
    (caps : list (list ascii)) {struct p} : Prop :=
  match p with
  | [] => m = [] /\ caps = []
  | regexp.Lit c :: p' =>
      exists x s' m',
        s = x :: s' /\ regexp.foldEq x c = true /\ m = x :: m' /\
        accepts longest p' s' m' caps
  | regexp.Star cl :: p' =>
      exists run s' m',
        s = run ++ s' /\ forallb cl run = true /\
        (longest = true -> startsOutside cl s' = true) /\
        m = run ++ m' /\ accepts longest p' s' m' caps
  | regexp.Plus cl :: p' =>
      exists run s' m',
        s = run ++ s' /\ run <> [] /\ forallb cl run = true /\
        (longest = true -> startsOutside cl s' = true) /\
        m = run ++ m' /\ accepts longest p' s' m' caps
  | regexp.CapPlus cl :: p' =>
      exists run s' m' caps',
        s = run ++ s' /\ run <> [] /\ forallb cl run = true /\
        (longest = true -> startsOutside cl s' = true) /\
        m = run ++ m' /\ caps = run :: caps' /\ accepts longest p' s' m' caps'
  | regexp.EndText :: p' => s = [] /\ accepts longest p' [] m caps
  end.

(** The bytes that are neither white space nor digits, and how many of
    them a text has; the patterns ask for a fixed number of them. *)
Definition wordByte (c : ascii) : bool :=
  negb (regexp.spaceClass c || regexp.digitClass c).

Definition wordBytes (s : list ascii) : nat := length (filter wordByte s).

Fixpoint numLits (p : list regexp.node) : nat :=
  match p with
  | [] => 0
  | regexp.Lit _ :: p' => S (numLits p')
  | _ :: p' => numLits p'
  end.

Definition nodeOK (n : regexp.node) : Prop :=
  match n with
  | regexp.Lit c => wordByte c = true
  | regexp.Plus cl | regexp.Star cl | regexp.CapPlus cl =>
      forall x, cl x = true -> wordByte x = false
  | regexp.EndText => True
  end.

(** ** The shape of a trailing limit clause

    Both patterns are made of the same clause, white space, a keyword,
    white space and a captured number, once or twice, before [\s*$]. *)

Definition clause (kw : list ascii) (p : list regexp.node) : list regexp.node :=
  regexp.Plus regexp.spaceClass :: regexp.lits kw
    ++ regexp.Plus regexp.spaceClass :: regexp.CapPlus regexp.digitClass :: p.

Definition tailPattern : list regexp.node :=
  [regexp.Star regexp.spaceClass; regexp.EndText].

(** A non-empty run of [\s], a non-empty run of [\d], and a keyword in
    any case. *)
Definition spaces (w : list ascii) : Prop :=
  w <> [] /\ forallb regexp.spaceClass w = true.

Definition digits (n : list ascii) : Prop :=
  n <> [] /\ forallb regexp.digitClass n = true.

Definition keyword (kw name : list ascii) : Prop :=
  strings.ToLower kw = strings.ToLower name.

(** The text ends with [LIMIT n], with [LIMIT n OFFSET m]. *)
Definition endsWithLimit (s base n : list ascii) : Prop :=
  exists w0 kwL w1,
    s = base ++ w0 ++ kwL ++ w1 ++ n /\
    spaces w0 /\ keyword kwL "LIMIT" /\ spaces w1 /\ digits n.

Definition endsWithLimitOffset (s base n m : list ascii) : Prop :=
  exists w0 kwL w1 w2 kwO w3,
    s = base ++ w0 ++ kwL ++ w1 ++ n ++ w2 ++ kwO ++ w3 ++ m /\
    spaces w0 /\ keyword kwL "LIMIT" /\ spaces w1 /\ digits n /\
    spaces w2 /\ keyword kwO "OFFSET" /\ spaces w3 /\ digits m.

(** ** Statements with nothing left to rewrite

    [plainByte] are the bytes [translate] copies without looking at its
    flags; [settledFrom ins s] says that, read from the flag [ins], the
    text [s] has no back-tick and no [?] outside a literal. *)

Definition plainByte (c : ascii) : bool :=
  negb ((c =? "'")%char || (c =? "`")%char || (c =? "?")%char).

Fixpoint settledFrom (ins : bool) (s : list ascii) : bool :=
  match s with
  | [] => true
  | c :: s' =>
      if (c =? "'")%char then settledFrom (negb ins) s'
      else if (c =? "`")%char || (c =? "?")%char then ins && settledFrom ins s'
      else settledFrom ins s'
  end.

(** The flag after the text [s], from the flag [ins] before it. *)
Fixpoint flagAfter (ins : bool) (s : list ascii) : bool :=
  match s with
  | [] => ins
  | c :: s' => flagAfter (if (c =? "'")%char then negb ins else ins) s'
  end.

(** ** executeSQLScriptFile

    The schema script runner of the inventory package.  What it reads
    and what it calls is made explicit: [ReadFile] is [os.ReadFile], the
    database is a state that [client.ExecContext] steps, and the state
    of a run records, in order, the statements handed to the database
    and the lines logged. *)

(** The line feed, Go's ["\n"]. *)
Definition newline : ascii := "010"%char.

Section Script.

Context {DB error : Type}.

Variable ReadFile : list ascii -> list ascii + error.

(** [client.ExecContext(ctx, stmt)]: the database after the call, and
    the error if there is one. *)
Variable ExecContext : DB -> list ascii -> DB * option error.

(** The errors of the function: the cause wrapped by [fmt.Errorf] in
    [failed to read schema script: %w] or in
    [error executing SQL chunk ending at line %d: %w]. *)
Inductive scriptError : Type :=
  | readFailed (err : error)
  | chunkFailed (lineNo : Z) (err : error).

(** The database, the statements executed so far, the contents of the
    [strings.Builder] and the log. *)
Record script : Type := mkScript {
  db : DB;
  stmts : list (list ascii);
  chunk : list ascii;
  logged : list (list ascii)
}.

(** [chunk.WriteString(s)]. *)
Definition chunkWriteString (st : script) (s : list ascii) : script :=
  {| db := db st; stmts := stmts st; chunk := chunk st ++ s; logged := logged st |}.

Definition Info (st : script) (msg : list ascii) : script :=
  {| db := db st; stmts := stmts st; chunk := chunk st; logged := logged st ++ [msg] |}.

(** The closure [execChunk]: the builder is reset after a statement
    that succeeded, and only then. *)
Definition execChunk (st : script) (lineNo : Z) : script * option scriptError :=
  let stmt := strings.TrimSpace (chunk st) in
  if eqString stmt "" then (st, None)
  else
    match ExecContext (db st) stmt with
    | (db', Some err) =>
        ({| db := db'; stmts := stmts st ++ [stmt]; chunk := chunk st;
            logged := logged st |},
         Some (chunkFailed lineNo err))
    | (db', None) =>
        ({| db := db'; stmts := stmts st ++ [stmt]; chunk := [];
            logged := logged st |},
         None)
    end.

(** The [for i, line := range lines] loop, from index [i] on.  The
    index is below [len(lines)], so [i + 1] does not wrap. *)
Fixpoint forLines (lines : list (list ascii)) (i : Z) (st : script)
    : script * option scriptError :=
  match lines with
  | [] => (st, None)
  | line :: rest =>
      if strings.EqualFold (strings.TrimSpace line) "GO" then
        match execChunk st (i + 1) with
        | (st', Some err) => (st', Some err)
        | (st', None) => forLines rest (i + 1) st'
        end
      else forLines rest (i + 1) (chunkWriteString (chunkWriteString st line) [newline])
  end.

Definition executeSQLScriptFile (d : DB) (path : list ascii)
    : script * option scriptError :=
  let start := {| db := d; stmts := []; chunk := []; logged := [] |} in
  match ReadFile path with
  | inr err => (start, Some (readFailed err))
  | inl content =>
      let lines := strings.Split content newline in
      match forLines lines 0 start with
      | (st, Some err) => (st, Some err)
      | (st, None) =>
          match execChunk st (Z.of_nat (length lines)) with
          | (st', Some err) => (st', Some err)
          | (st', None) =>
              (Info st' "SQL Server schema script applied successfully.", None)
          end
      end
  end.

End Script.

Arguments scriptError : clear implicits.
Arguments script : clear implicits.

(** ** Reading a script by batches

    A line is a separator when, trimmed, it is [GO] in any letter case.
    The separators cut the lines of a script into batches; the text of a
    batch is its lines, each followed by a line feed, and its statement
    is that text trimmed.  A batch whose statement is empty is passed
    over. *)

Definition isSeparator (line : list ascii) : bool :=
  strings.EqualFold (strings.TrimSpace line) "GO".

Fixpoint batches (lines : list (list ascii)) : list (list (list ascii)) :=
  match lines with
  | [] => [[]]
  | line :: rest =>
      if isSeparator line then [] :: batches rest
      else match batches rest with
           | batch :: more => (line :: batch) :: more
           | [] => [[line]]
           end
  end.

Definition batchText (batch : list (list ascii)) : list ascii :=
  concat (map (fun line => line ++ [newline]) batch).

(** The statements of a list of texts. *)
Definition trimmed (texts : list (list ascii)) : list (list ascii) :=
  filter (fun stmt => negb (eqString stmt "")) (map strings.TrimSpace texts).

Definition statements (lines : list (list ascii)) : list (list ascii) :=
  trimmed (map batchText (batches lines)).

(** The texts of the batches when the first one comes after the text
    [pre]. *)
Definition batchTexts (pre : list ascii) (lines : list (list ascii))
    : list (list ascii) :=
  match batches lines with
  | batch :: more => (pre ++ batchText batch) :: map batchText more
  | [] => [pre]
  end.



(** The statements of a list, one after the other, up to the first that
    fails: the database, the statements executed and the failure. *)
Fixpoint executeAll {DB error : Type} (ExecContext : DB -> list ascii -> DB * option error)
    (todo : list (list ascii)) (d : DB) : DB * list (list ascii) * option error :=
  match todo with
  | [] => (d, [], None)
  | stmt :: rest =>
      match ExecContext d stmt with
      | (d', Some err) => (d', [stmt], Some err)
      | (d', None) =>
          let '(d'', done, r) := executeAll ExecContext rest d' in
          (d'', stmt :: done, r)
      end
  end.

(** The cause inside an error of the function. *)
Definition cause {error : Type} (e : scriptError error) : error :=
  match e with
  | readFailed err => err
  | chunkFailed _ err => err
  end.

(** What a run leaves behind: the database, the statements executed and
    the cause of the failure. *)
Definition outcome {DB error : Type} (r : script DB * option (scriptError error))
    : DB * list (list ascii) * option error :=
  (db (fst r), stmts (fst r), option_map cause (snd r)).

Definition after {DB error : Type} (before : list (list ascii))
    (r : DB * list (list ascii) * option error) : DB * list (list ascii) * option error :=
  let '(d, done, e) := r in (d, before ++ done, e).

(** ** init: the registration of the sqlite3 driver

    The registry of [database/sql] is modelled as the list of the names
    registered, each with its driver.  [sql.Register] panics on a name
    that is registered already: [None]. *)

Section Registry.

(** The values of [driver.Driver]. *)
Variable driver : Type.

(** [sqlite3Driver{Driver: &sqlite.Driver{}}]. *)
Variable sqlite3Driver : driver.

Definition registry : Type := list (list ascii * driver).

Definition Drivers (reg : registry) : list (list ascii) := map fst reg.

Definition Register (name : list ascii) (drv : driver) (reg : registry)
    : option registry :=
  if existsb (eqString name) (Drivers reg) then None else Some ((name, drv) :: reg).

(** The loop of [init] over the names: [true] when it returns early. *)
Fixpoint alreadyRegistered (drivers : list (list ascii)) : bool :=
  match drivers with
  | [] => false
  | driver :: rest =>
      if eqString driver "sqlite3" then true else alreadyRegistered rest
  end.

Definition init (reg : registry) : option registry :=
  let drivers := Drivers reg in
  if alreadyRegistered drivers then Some reg
  else Register "sqlite3" sqlite3Driver reg.

(** The driver registered under a name. *)
Fixpoint lookup (name : list ascii) (reg : registry) : option driver :=
  match reg with
  | [] => None
  | (n, drv) :: rest => if eqString n name then Some drv else lookup name rest
  end.

End Registry.

Arguments Drivers {driver}.
Arguments Register {driver}.
Arguments init {driver}.
Arguments lookup {driver}.

(** A file system and a database to run the function on: three
    scripts, and a database that counts the statements it executed and
    refuses the statement [FAIL]. *)
Definition exampleFiles (path : list ascii) : list ascii + list ascii :=
  if eqString path "schema.sql" then
    inl ("CREATE TABLE a" ++ [newline] ++ " go " ++ [newline] ++ [newline] ++ "GO"
           ++ [newline] ++ "  CREATE TABLE b" ++ [newline])
  else if eqString path "bad.sql" then
    inl ("CREATE TABLE a" ++ [newline] ++ "GO" ++ [newline] ++ "FAIL" ++ [newline]
           ++ "Go" ++ [newline] ++ "CREATE TABLE b")
  else if eqString path "plain.sql" then
    inl (" SELECT 1" ++ [newline] ++ "FROM t" ++ [newline])
  else inr (list_ascii_of_string "no such file").

Definition countingDB (d : nat) (stmt : list ascii) : nat * option (list ascii) :=
  if eqString stmt "FAIL" then (d, Some (list_ascii_of_string "refused"))
  else (S d, None).

(** * Properties *)

(** ** The examples of the specification *)

Example translate_identifiers :
  translate "SELECT * FROM `users` WHERE `name` = ?"
    = "SELECT * FROM [users] WHERE [name] = @p1".
Proof. reflexivity. Qed.

Example translate_literal : translate "SELECT 'a?b', ?" = "SELECT 'a?b', @p1".
Proof. reflexivity. Qed.

Example translate_escaped_quote : translate "SELECT 'it''s ?'" = "SELECT 'it''s ?'".
Proof. reflexivity. Qed.

Example translate_many_parameters :
  translate "?,?,?,?,?,?,?,?,?,?,?" = "@p1,@p2,@p3,@p4,@p5,@p6,@p7,@p8,@p9,@p10,@p11".
Proof. reflexivity. Qed.

Example limit_ordered :
  transformLimitQuery "SELECT * FROM t ORDER BY id LIMIT 10"
    = "SELECT * FROM t ORDER BY id OFFSET 0 ROWS FETCH NEXT 10 ROWS ONLY".
Proof. reflexivity. Qed.

Example limit_unordered :
  transformLimitQuery "SELECT * FROM t LIMIT 10" = "SELECT TOP 10 * FROM t".
Proof. reflexivity. Qed.

Example limit_offset :
  transformLimitQuery "SELECT * FROM t LIMIT 10 OFFSET 20"
    = "SELECT * FROM t ORDER BY (SELECT NULL) OFFSET 20 ROWS FETCH NEXT 10 ROWS ONLY".
Proof. reflexivity. Qed.

Example limit_no_match :
  transformLimitQuery "  SELECT * FROM t LIMIT 10;" = "  SELECT * FROM t LIMIT 10;".
Proof. reflexivity. Qed.

Example output_injected :
  maybeAddOutputClause "INSERT INTO t (a) VALUES (1)"
    = "INSERT INTO t (a) OUTPUT INSERTED.[id] VALUES (1)".
Proof. reflexivity. Qed.

(** ** translate: the loop and the suffix view agree *)

Lemma nth_error_middle (pre : list ascii) (c : ascii) (s : list ascii) :
  nth_error (pre ++ c :: s) (length pre) = Some c.
Proof.
  rewrite nth_error_app2 by lia. now rewrite Nat.sub_diag.
Qed.

Lemma nth_middle_next (pre : list ascii) (c c' : ascii) (s : list ascii) :
  nth (length pre + 1) (pre ++ c :: c' :: s) zero = c'.
Proof.
  rewrite app_nth2 by lia.
  replace (length pre + 1 - length pre) with 1 by lia. reflexivity.
Qed.

Lemma snoc_app (pre : list ascii) (c : ascii) (s : list ascii) :
  pre ++ c :: s = (pre ++ [c]) ++ s.
Proof. now rewrite <- app_assoc. Qed.

(** One iteration, read off the unread suffix [c :: s]. *)
Lemma body_suffix (pre : list ascii) (c : ascii) (s : list ascii) (st : scanner) :
  i st = length pre ->
  body (pre ++ c :: s) st =
  if (c =? "'")%char then
    if inString st then
      match s with
      | c' :: _ =>
          if (c' =? "'")%char
          then mkScanner (S (S (i st))) (openBracket st) true (paramIndex st)
                 ((b st ++ [c]) ++ ["'"%char])
          else mkScanner (S (i st)) (openBracket st) false (paramIndex st) (b st ++ [c])
      | [] => mkScanner (S (i st)) (openBracket st) false (paramIndex st) (b st ++ [c])
      end
    else mkScanner (S (i st)) (openBracket st) true (paramIndex st) (b st ++ [c])
  else if (c =? "`")%char then
    if inString st
    then mkScanner (S (i st)) (openBracket st) (inString st) (paramIndex st) (b st ++ [c])
    else mkScanner (S (i st)) (negb (openBracket st)) (inString st) (paramIndex st)
           (b st ++ [if openBracket st then "["%char else "]"%char])
  else if (c =? "?")%char then
    if inString st
    then mkScanner (S (i st)) (openBracket st) (inString st) (paramIndex st) (b st ++ [c])
    else mkScanner (S (i st)) (openBracket st) (inString st) (wrapInt (paramIndex st + 1))
           (((b st ++ ["@"%char]) ++ ["p"%char]) ++ Itoa (paramIndex st))
  else mkScanner (S (i st)) (openBracket st) (inString st) (paramIndex st) (b st ++ [c]).
Proof.
  destruct st as [i0 ob ins p out]. cbn [i inString openBracket paramIndex b].
  intros ->. unfold body. cbn [i]. rewrite nth_error_middle.
  destruct (c =? "'")%char eqn:Hq.
  - cbn [WriteByte inString i]. destruct ins.
    + destruct s as [|c' s'].
      * replace (length pre + 1 <? length (pre ++ [c]))%nat with false
          by (symmetry; apply Nat.ltb_ge; rewrite length_app; simpl; lia).
        reflexivity.
      * replace (length pre + 1 <? length (pre ++ c :: c' :: s'))%nat with true
          by (symmetry; apply Nat.ltb_lt; rewrite length_app; simpl; lia).
        rewrite nth_middle_next. cbn [andb].
        destruct (c' =? "'")%char; reflexivity.
    + reflexivity.
  - destruct (c =? "`")%char.
    + destruct ins; [reflexivity|]. destruct ob; reflexivity.
    + destruct (c =? "?")%char.
      * destruct ins; reflexivity.
      * reflexivity.
Qed.

Lemma loop_scan (fuel : nat) :
  forall (st : scanner) (pre suf : list ascii),
    i st = length pre ->
    length suf <= fuel ->
    b (loop fuel (pre ++ suf) st)
      = b st ++ scan suf (openBracket st) (inString st) (paramIndex st)
    /\ i (loop fuel (pre ++ suf) st) = length (pre ++ suf).
Proof.
  induction fuel as [|fuel IH]; intros st pre suf Hi Hfuel.
  - destruct suf; [|simpl in Hfuel; lia].
    simpl. rewrite !app_nil_r. auto.
  - destruct suf as [|c s].
    + simpl. rewrite !app_nil_r, Hi, Nat.ltb_irrefl. auto.
    + cbn [loop].
      replace (i st <? length (pre ++ c :: s))%nat with true
        by (symmetry; apply Nat.ltb_lt; rewrite length_app, Hi; simpl; lia).
      rewrite (body_suffix pre c s st Hi).
      simpl in Hfuel. cbn [scan].
      destruct (c =? "'")%char eqn:Hq.
      * destruct (inString st).
        -- destruct s as [|c' s'].
           ++ rewrite snoc_app.
              destruct (IH (mkScanner (S (i st)) (openBracket st) false (paramIndex st)
                              (b st ++ [c])) (pre ++ [c]) []) as [Hb Hl];
                [cbn; rewrite length_app, Hi; simpl; lia | simpl; lia|].
              rewrite Hb, Hl. cbn. now rewrite app_nil_r.
           ++ destruct (c' =? "'")%char eqn:Hq'.
              ** apply Ascii.eqb_eq in Hq'. subst c'.
                 replace (pre ++ c :: "'"%char :: s') with ((pre ++ [c; "'"%char]) ++ s')
                   by (now rewrite <- app_assoc).
                 destruct (IH (mkScanner (S (S (i st))) (openBracket st) true (paramIndex st)
                              ((b st ++ [c]) ++ ["'"%char])) (pre ++ [c; "'"%char]) s') as [Hb Hl];
                   [cbn; rewrite length_app, Hi; simpl; lia | simpl in Hfuel; lia|].
                 rewrite Hb, Hl. cbn. split; [|reflexivity].
                 now rewrite <- !app_assoc.
              ** rewrite snoc_app.
                 destruct (IH (mkScanner (S (i st)) (openBracket st) false (paramIndex st)
                              (b st ++ [c])) (pre ++ [c]) (c' :: s')) as [Hb Hl];
                   [cbn; rewrite length_app, Hi; simpl; lia | simpl in *; lia|].
                 rewrite Hb, Hl. cbn [b openBracket inString paramIndex].
                 split; [|reflexivity]. now rewrite <- app_assoc.
        -- rewrite snoc_app.
           destruct (IH (mkScanner (S (i st)) (openBracket st) true (paramIndex st)
                           (b st ++ [c])) (pre ++ [c]) s) as [Hb Hl];
             [cbn; rewrite length_app, Hi; simpl; lia | lia|].
           rewrite Hb, Hl. cbn [b openBracket inString paramIndex].
           split; [|reflexivity]. now rewrite <- app_assoc.
      * rewrite snoc_app.
        destruct (c =? "`")%char; [|destruct (c =? "?")%char];
          destruct (inString st) eqn:Hin;
          match goal with
          | |- context [loop fuel _ ?st'] =>
              destruct (IH st' (pre ++ [c]) s) as [Hb Hl];
                [cbn; rewrite length_app, Hi; simpl; lia | lia|];
              rewrite Hb, Hl; cbn [b openBracket inString paramIndex];
              split; [|reflexivity]; rewrite <- ?app_assoc; try reflexivity
          end.
Qed.

(** The loop of [translate] leaves through its guard: the fuel
    [len(query)] is never used up. *)
Lemma loop_exits (query : list ascii) :
  i (loop (length query) query initial) = length query.
Proof.
  apply (loop_scan (length query) initial [] query); [reflexivity | lia].
Qed.

Lemma translate_scan (query : list ascii) :
  translate query = scan query true false 1.
Proof.
  unfold translate.
  destruct (loop_scan (length query) initial [] query) as [Hb _];
    [reflexivity | lia | exact Hb].
Qed.

(** ** translate: the flags and the counter, position by position *)

(** A doubled quote inside a literal is two toggles of the flag: the
    suffix view moves over one byte at a time. *)
Lemma scan_cons (c : ascii) (s : list ascii) (ob ins : bool) (p : Z) :
  scan (c :: s) ob ins p =
  if (c =? "'")%char then c :: scan s ob (negb ins) p
  else if (c =? "`")%char then
    if ins then c :: scan s ob ins p
    else (if ob then "["%char else "]"%char) :: scan s (negb ob) ins p
  else if (c =? "?")%char then
    if ins then c :: scan s ob ins p
    else "@p" ++ Itoa p ++ scan s ob ins (wrapInt (p + 1))
  else c :: scan s ob ins p.
Proof.
  cbn [scan]. destruct (c =? "'")%char eqn:Hq; [|reflexivity].
  destruct ins; [|reflexivity].
  destruct s as [|c' s']; [reflexivity|].
  cbn [negb scan]. destruct (c' =? "'")%char; reflexivity.
Qed.

Lemma firstn_prefix (pre suf : list ascii) :
  firstn (length pre) (pre ++ suf) = pre.
Proof.
  rewrite firstn_app, Nat.sub_diag, firstn_all. cbn. apply app_nil_r.
Qed.

Lemma quotesBefore_prefix (pre suf : list ascii) :
  quotesBefore (pre ++ suf) (length pre) = count_occ ascii_dec pre "'"%char.
Proof. unfold quotesBefore. now rewrite firstn_prefix. Qed.

Lemma insideLiteral_next (pre : list ascii) (c : ascii) (s : list ascii) :
  insideLiteral (pre ++ c :: s) (S (length pre)) =
  if (c =? "'")%char then negb (insideLiteral (pre ++ c :: s) (length pre))
  else insideLiteral (pre ++ c :: s) (length pre).
Proof.
  unfold insideLiteral. rewrite quotesBefore_prefix.
  replace (S (length pre)) with (length (pre ++ [c])) by (rewrite length_app; simpl; lia).
  rewrite snoc_app, quotesBefore_prefix, count_occ_app. cbn [count_occ].
  destruct (ascii_dec c "'"%char) as [->|Hne].
  - cbn. rewrite Nat.add_1_r, Nat.odd_succ. now rewrite <- Nat.negb_odd.
  - apply Ascii.eqb_neq in Hne. rewrite Hne. cbn. now rewrite Nat.add_0_r.
Qed.

Lemma outsideBefore_next (x : ascii) (query : list ascii) (j : nat) :
  outsideBefore x query (S j) =
  if outsideAt x query j then S (outsideBefore x query j) else outsideBefore x query j.
Proof.
  unfold outsideBefore. rewrite seq_S, filter_app, length_app. cbn.
  destruct (outsideAt x query j); cbn; lia.
Qed.

Lemma outsideAt_middle (x : ascii) (pre : list ascii) (c : ascii) (s : list ascii) :
  outsideAt x (pre ++ c :: s) (length pre) =
  (c =? x)%char && negb (insideLiteral (pre ++ c :: s) (length pre)).
Proof. unfold outsideAt. now rewrite nth_error_middle. Qed.

Lemma chunkAt_middle (pre : list ascii) (c : ascii) (s : list ascii) :
  chunkAt (pre ++ c :: s) (length pre) =
  let query := pre ++ c :: s in
  let j := length pre in
  if (c =? "?")%char then
    if insideLiteral query j then [c]
    else "@p" ++ Itoa (counterAfter (outsideBefore "?"%char query j))
  else if (c =? "`")%char then
    if insideLiteral query j then [c]
    else if Nat.even (outsideBefore "`"%char query j) then "[" else "]"
  else [c].
Proof. unfold chunkAt. now rewrite nth_error_middle. Qed.

Lemma scan_chunks (suf : list ascii) :
  forall pre : list ascii,
    scan suf (Nat.even (outsideBefore "`"%char (pre ++ suf) (length pre)))
      (insideLiteral (pre ++ suf) (length pre))
      (counterAfter (outsideBefore "?"%char (pre ++ suf) (length pre)))
    = concat (map (chunkAt (pre ++ suf)) (seq (length pre) (length suf))).
Proof.
  induction suf as [|c s IH]; intros pre; [reflexivity|].
  specialize (IH (pre ++ [c])).
  rewrite <- snoc_app in IH.
  replace (length (pre ++ [c])) with (S (length pre)) in IH
    by (rewrite length_app; simpl; lia).
  rewrite insideLiteral_next, !outsideBefore_next, !outsideAt_middle in IH.
  cbn [length seq map concat]. rewrite scan_cons, chunkAt_middle.
  cbv zeta. revert IH.
  destruct (c =? "'")%char eqn:Hq; destruct (c =? "`")%char eqn:Hb;
    destruct (c =? "?")%char eqn:Hp;
    try solve [exfalso;
               repeat match goal with
                 | H : (_ =? _)%char = true |- _ => apply Ascii.eqb_eq in H
                 end; congruence];
    destruct (insideLiteral (pre ++ c :: s) (length pre));
    cbn [andb negb]; intros <-;
    first [ reflexivity
          | rewrite Nat.even_succ, <- Nat.negb_even;
            destruct (Nat.even _); reflexivity
          | cbn [counterAfter Nat.iter]; now rewrite <- !app_assoc ].
Qed.

(** [translate] writes, for every byte of the statement in order, the
    chunk of that position. *)
Lemma translate_chunks (query : list ascii) :
  translate query = concat (chunks query).
Proof.
  rewrite translate_scan. exact (scan_chunks query []).
Qed.

Lemma chunks_length (query : list ascii) : length (chunks query) = length query.
Proof. unfold chunks. now rewrite length_map, length_seq. Qed.

Lemma chunks_nth (query : list ascii) (j : nat) (c : ascii) :
  nth_error query j = Some c -> nth_error (chunks query) j = Some (chunkAt query j).
Proof.
  intros Hj. assert (j < length query) by (apply nth_error_Some; congruence).
  unfold chunks. rewrite nth_error_map, nth_error_seq.
  destruct (Nat.ltb_spec j (length query)); [reflexivity | lia].
Qed.

Lemma outsideBefore_le (x : ascii) (query : list ascii) (j : nat) :
  outsideBefore x query j <= j.
Proof.
  unfold outsideBefore.
  etransitivity; [apply filter_length_le | now rewrite length_seq].
Qed.

Lemma wrapInt_small (z : Z) : (0 <= z <= intMax)%Z -> wrapInt z = z.
Proof.
  unfold wrapInt, intMax. intros Hz.
  rewrite Z.mod_small by lia. lia.
Qed.

(** Below [math.MaxInt64] increments the counter is their number plus one. *)
Lemma counterAfter_small (n : nat) :
  (Z.of_nat n < intMax)%Z -> counterAfter n = Z.of_nat (S n).
Proof.
  induction n as [|n IH]; intros Hn; [reflexivity|].
  change (counterAfter (S n)) with (wrapInt (counterAfter n + 1)).
  rewrite IH by lia. rewrite wrapInt_small; lia.
Qed.

(** Every rank below the number of [x] outside literals is the rank of
    one of them. *)
Lemma outsideBefore_reaches (x : ascii) (query : list ascii) (j n : nat) :
  n < outsideBefore x query j ->
  exists k, k < j /\ outsideAt x query k = true /\ outsideBefore x query k = n.
Proof.
  induction j as [|j IH]; intros Hn; [cbn in Hn; lia|].
  rewrite outsideBefore_next in Hn.
  destruct (outsideAt x query j) eqn:Hat.
  - destruct (Nat.eq_dec n (outsideBefore x query j)) as [->|Hne].
    + exists j. auto.
    + destruct IH as (k & Hk & H1 & H2); [lia|]. exists k. auto.
  - destruct IH as (k & Hk & H1 & H2); [lia|]. exists k. auto.
Qed.

(** ** C1 *)

(** C1.  For every statement, [translate] writes its output byte by
    byte of the input: a [?] outside single-quoted literals becomes
    [@p] followed by its rank among such [?], counted from 1 and from
    the left; a [?] inside a literal stays a [?]; no other byte turns
    into a [?].  With [k] such [?] outside literals, every one of [@p1]
    to [@pk] is written.  (A Go string is shorter than [math.MaxInt64]
    bytes, so the counter never wraps.) *)
Theorem translate_placeholders (query : list ascii) :
  (Z.of_nat (length query) < intMax)%Z ->
  exists out : list (list ascii),
    translate query = concat out /\ length out = length query /\
    (forall (j : nat) (c : ascii) (ch : list ascii),
        nth_error query j = Some c -> nth_error out j = Some ch ->
        (c = "?"%char -> insideLiteral query j = false ->
           ch = "@p" ++ Itoa (Z.of_nat (S (outsideBefore "?"%char query j)))) /\
        (c = "?"%char -> insideLiteral query j = true -> ch = "?") /\
        (c <> "?"%char -> exists c', ch = [c'] /\ c' <> "?"%char)) /\
    (forall n : nat,
        1 <= n <= outsideBefore "?"%char query (length query) ->
        exists j, nth_error query j = Some "?"%char /\
                  insideLiteral query j = false /\
                  nth_error out j = Some ("@p" ++ Itoa (Z.of_nat n))).
Proof.
  intros Hlen. exists (chunks query).
  split; [apply translate_chunks|]. split; [apply chunks_length|]. split.
  - intros j c ch Hc Hch. rewrite (chunks_nth _ _ _ Hc) in Hch.
    injection Hch as <-. unfold chunkAt. rewrite Hc.
    assert (Hj : j < length query) by (apply nth_error_Some; congruence).
    pose proof (outsideBefore_le "?"%char query j) as Hle.
    repeat split.
    + intros -> Hin. cbn [Ascii.eqb]. change ("?" =? "?")%char with true.
      cbv iota. rewrite Hin, counterAfter_small by lia. reflexivity.
    + intros -> Hin. change ("?" =? "?")%char with true. cbv iota.
      now rewrite Hin.
    + intros Hne. apply Ascii.eqb_neq in Hne. rewrite Hne.
      destruct (c =? "`")%char eqn:Hb.
      * destruct (insideLiteral query j).
        -- exists c. split; [reflexivity|]. now apply Ascii.eqb_neq.
        -- destruct (Nat.even _); [exists "["%char | exists "]"%char];
             (split; [reflexivity | discriminate]).
      * exists c. split; [reflexivity|]. now apply Ascii.eqb_neq.
  - intros n [Hn1 Hn2].
    destruct (outsideBefore_reaches "?"%char query (length query) (n - 1))
      as (j & Hj & Hat & Hrank); [lia|].
    unfold outsideAt in Hat.
    destruct (nth_error query j) as [c|] eqn:Hc; [|discriminate].
    apply andb_prop in Hat as [Hq Hin]. apply Ascii.eqb_eq in Hq. subst c.
    apply negb_true_iff in Hin.
    exists j. split; [assumption|]. split; [assumption|].
    rewrite (chunks_nth _ _ _ Hc). unfold chunkAt. rewrite Hc.
    change ("?" =? "?")%char with true. cbv iota.
    pose proof (outsideBefore_le "?"%char query j) as Hle.
    rewrite Hin, counterAfter_small, Hrank by lia.
    do 3 f_equal. lia.
Qed.

Lemma translate_placeholders_witness :
  exists out : list (list ascii),
    translate "SELECT 'a?b', ?" = concat out /\
    nth_error out 9 = Some (list_ascii_of_string "?") /\
    nth_error out 14 = Some (list_ascii_of_string "@p1").
Proof.
  destruct (translate_placeholders "SELECT 'a?b', ?") as (out & Hout & Hlen & Hpos & _);
    [vm_compute; reflexivity|].
  exists out. split; [exact Hout|].
  assert (H9 : exists ch, nth_error out 9 = Some ch).
  { destruct (nth_error out 9) eqn:E; [eauto|].
    apply nth_error_None in E. rewrite Hlen in E. cbn in E. lia. }
  assert (H14 : exists ch, nth_error out 14 = Some ch).
  { destruct (nth_error out 14) eqn:E; [eauto|].
    apply nth_error_None in E. rewrite Hlen in E. cbn in E. lia. }
  destruct H9 as [ch9 H9]. destruct H14 as [ch14 H14].
  split.
  - rewrite H9. f_equal.
    now apply (Hpos 9 "?"%char ch9 eq_refl H9).
  - rewrite H14. f_equal.
    now apply (Hpos 14 "?"%char ch14 eq_refl H14).
Defined.

(** ** C2 *)

(** C2 as stated fails: at the opening quote of the empty literal the
    loop toggles the flag and moves one byte on, although a quote
    follows. *)
Lemma quoteRuleUnconditional_counterexample :
  ~ quoteRuleUnconditional "''" initial.
Proof.
  intros H. destruct (H eq_refl) as [Hpair _].
  specialize (Hpair eq_refl). discriminate Hpair.
Qed.

(** C2, amended.  When the loop reads a single quote: if it is inside a
    literal and the next byte is a quote as well, it writes both quotes,
    moves past both and stays inside the literal; in every other case,
    outside a literal whatever follows, or inside one when no quote
    follows, it writes the quote, moves one byte on and toggles the
    flag. *)
Theorem body_single_quote (query : list ascii) (st : scanner) :
  nth_error query (i st) = Some "'"%char ->
  (inString st = true -> nth_error query (S (i st)) = Some "'"%char ->
     body query st =
     mkScanner (i st + 2) (openBracket st) true (paramIndex st) (b st ++ "''")) /\
  (inString st = false \/ nth_error query (S (i st)) <> Some "'"%char ->
     body query st =
     mkScanner (i st + 1) (openBracket st) (negb (inString st)) (paramIndex st)
       (b st ++ "'")).
Proof.
  intros Hc.
  assert (Hsplit : exists pre s, query = pre ++ "'"%char :: s /\ i st = length pre).
  { destruct (nth_error_split _ _ Hc) as (pre & s & Hq & Hl). now exists pre, s. }
  destruct Hsplit as (pre & s & -> & Hi).
  rewrite (body_suffix pre _ s st Hi). change ("'" =? "'")%char with true. cbv iota.
  replace (nth_error (pre ++ "'"%char :: s) (S (i st))) with (nth_error s 0)
    by (rewrite Hi, nth_error_app2 by lia;
        now replace (S (length pre) - length pre) with 1 by lia).
  replace (i st + 2) with (S (S (i st))) by lia.
  replace (i st + 1) with (S (i st)) by lia.
  split.
  - intros Hin Hnext. rewrite Hin.
    destruct s as [|c' s']; [discriminate|]. cbn in Hnext. injection Hnext as ->.
    change ("'" =? "'")%char with true. cbv iota. now rewrite <- app_assoc.
  - intros [Hin | Hnext].
    + now rewrite Hin.
    + destruct (inString st); [|reflexivity].
      destruct s as [|c' s']; [reflexivity|].
      destruct (c' =? "'")%char eqn:Hq'; [|reflexivity].
      apply Ascii.eqb_eq in Hq'. subst c'. now contradiction Hnext.
Qed.

Lemma body_single_quote_witness :
  let query : list ascii := "SELECT 'it''s ?'" in
  let st := mkScanner 10 true true 1 "SELECT 'it" in
  body query st = mkScanner 12 true true 1 "SELECT 'it''".
Proof.
  exact (proj1 (body_single_quote "SELECT 'it''s ?"
                  (mkScanner 10 true true 1 "SELECT 'it") eq_refl) eq_refl eq_refl).
Defined.

(** Either way the flag is, at every byte the loop reads, the parity of
    the quotes before it: the pair taken inside a literal is two toggles
    at once. *)
Lemma body_keeps_parity (query : list ascii) (st : scanner) :
  i st < length query ->
  inString st = insideLiteral query (i st) ->
  inString (body query st) = insideLiteral query (i (body query st)).
Proof.
  intros Hi Hinv.
  destruct (nth_error query (i st)) as [c|] eqn:Hc;
    [|apply nth_error_None in Hc; lia].
  destruct (nth_error_split _ _ Hc) as (pre & s & -> & Hpre).
  symmetry in Hpre. rewrite Hpre in Hinv.
  rewrite (body_suffix pre c s st Hpre).
  pose proof (insideLiteral_next pre c s) as Hnext.
  destruct (c =? "'")%char eqn:Hq.
  - destruct (inString st) eqn:Hin.
    + destruct s as [|c' s'].
      * cbn [i inString]. now rewrite Hpre, Hnext, <- Hinv.
      * destruct (c' =? "'")%char eqn:Hq'; cbn [i inString].
        -- pose proof (insideLiteral_next (pre ++ [c]) c' s') as Hnext'.
           rewrite <- snoc_app, Hq' in Hnext'.
           replace (length (pre ++ [c])) with (S (length pre)) in Hnext'
             by (rewrite length_app; cbn; lia).
           now rewrite Hpre, Hnext', Hnext, <- Hinv.
        -- now rewrite Hpre, Hnext, <- Hinv.
    + cbn [i inString]. now rewrite Hpre, Hnext, <- Hinv.
  - destruct (c =? "`")%char; [|destruct (c =? "?")%char];
      destruct (inString st) eqn:Hin; cbn [i inString];
      now rewrite Hpre, Hnext, <- Hinv.
Qed.

(** ** C6 *)

(** C6 as stated fails: a back-tick inside a literal stays a back-tick,
    one back-tick in and no bracket out. *)
Lemma brackets_as_backticks_counterexample :
  bracketsOf (translate "SELECT '`'")
    <> alternating (count_occ ascii_dec (list_ascii_of_string "SELECT '`'") "`"%char).
Proof. vm_compute. discriminate. Qed.

Lemma bracketsOf_app (x y : list ascii) :
  bracketsOf (x ++ y) = bracketsOf x ++ bracketsOf y.
Proof. apply filter_app. Qed.

Lemma bracketsOf_uint (u : Decimal.uint) :
  bracketsOf (NilEmpty.string_of_uint u) = [].
Proof. induction u; cbn; auto. Qed.

Lemma bracketsOf_Itoa (n : Z) : bracketsOf (Itoa n) = [].
Proof.
  unfold Itoa, NilZero.string_of_int, NilZero.string_of_uint.
  destruct (Z.to_int n) as [u|u]; destruct u; cbn; auto using bracketsOf_uint.
Qed.

Lemma alternatingFrom_snoc (n : nat) :
  forall opening : bool,
    alternatingFrom opening (S n) =
    alternatingFrom opening n ++
      [if Bool.eqb opening (Nat.even n) then "["%char else "]"%char].
Proof.
  induction n as [|n IH]; intros opening.
  - destruct opening; reflexivity.
  - change (alternatingFrom opening (S (S n)))
      with ((if opening then "["%char else "]"%char) :: alternatingFrom (negb opening) (S n)).
    rewrite IH. cbn [alternatingFrom app]. rewrite Nat.even_succ, <- Nat.negb_even.
    destruct opening, (Nat.even n); reflexivity.
Qed.

Lemma bracketsOf_chunkAt (query : list ascii) (j : nat) :
  (forall c, In c query -> isBracket c = false) ->
  bracketsOf (chunkAt query j) =
  if outsideAt "`"%char query j
  then [if Nat.even (outsideBefore "`"%char query j) then "["%char else "]"%char]
  else [].
Proof.
  intros Hnone. unfold chunkAt, outsideAt.
  destruct (nth_error query j) as [c|] eqn:Hc; [|reflexivity].
  pose proof (Hnone c (nth_error_In _ _ Hc)) as Hcb.
  destruct (c =? "?")%char eqn:Hp.
  - apply Ascii.eqb_eq in Hp. subst c. change ("?" =? "`")%char with false.
    cbn [andb]. destruct (insideLiteral query j); [reflexivity|].
    rewrite bracketsOf_app, bracketsOf_Itoa. reflexivity.
  - destruct (c =? "`")%char eqn:Hb; cbn [andb].
    + destruct (insideLiteral query j); cbn [negb].
      * cbn. now rewrite Hcb.
      * destruct (Nat.even _); reflexivity.
    + cbn. now rewrite Hcb.
Qed.

Lemma bracketsOf_chunks (query : list ascii) (j : nat) :
  (forall c, In c query -> isBracket c = false) ->
  bracketsOf (concat (map (chunkAt query) (seq 0 j)))
    = alternating (outsideBefore "`"%char query j).
Proof.
  intros Hnone. induction j as [|j IH]; [reflexivity|].
  rewrite seq_S, map_app, concat_app, bracketsOf_app, IH. cbn [map concat plus].
  rewrite app_nil_r, bracketsOf_chunkAt, outsideBefore_next by assumption.
  destruct (outsideAt "`"%char query j); [|apply app_nil_r].
  unfold alternating. rewrite alternatingFrom_snoc.
  destruct (Nat.even _); reflexivity.
Qed.

(** C6, amended.  For every statement that has no bracket of its own,
    the brackets of the output are as many as the back-ticks of the
    input that lie outside single-quoted literals, and they alternate
    from the opening one; each such back-tick becomes the
    bracket of its turn, and a back-tick inside a literal is copied. *)
Theorem translate_brackets (query : list ascii) :
  (forall c, In c query -> isBracket c = false) ->
  bracketsOf (translate query)
    = alternating (outsideBefore "`"%char query (length query)) /\
  exists out : list (list ascii),
    translate query = concat out /\ length out = length query /\
    forall (j : nat) (ch : list ascii),
      nth_error query j = Some "`"%char -> nth_error out j = Some ch ->
      (insideLiteral query j = false ->
         ch = if Nat.even (outsideBefore "`"%char query j) then "[" else "]") /\
      (insideLiteral query j = true -> ch = "`").
Proof.
  intros Hnone. split.
  - rewrite translate_chunks. now apply bracketsOf_chunks.
  - exists (chunks query).
    split; [apply translate_chunks|]. split; [apply chunks_length|].
    intros j ch Hc Hch. rewrite (chunks_nth _ _ _ Hc) in Hch.
    injection Hch as <-. unfold chunkAt. rewrite Hc.
    change ("`" =? "?")%char with false. change ("`" =? "`")%char with true.
    cbv iota. split; intros ->; [|reflexivity].
    destruct (Nat.even _); reflexivity.
Qed.

Lemma translate_brackets_witness :
  bracketsOf (translate "SELECT `a`, '`' FROM `t`") = "[][]".
Proof.
  apply (translate_brackets "SELECT `a`, '`' FROM `t`").
  intros c Hc. cbn in Hc.
  repeat (destruct Hc as [<-|Hc]; [reflexivity|]). contradiction.
Defined.

(** ** package strings: what the functions compute *)

Import strings.

Lemma HasPrefix_app (p t : list ascii) : HasPrefix (p ++ t) p = true.
Proof.
  induction p as [|c p IH]; cbn; [reflexivity|]. now rewrite Ascii.eqb_refl.
Qed.

Lemma HasPrefix_spec (s p : list ascii) :
  HasPrefix s p = true <-> exists t, s = p ++ t.
Proof.
  split.
  - revert s. induction p as [|c p IH]; intros s H; [now exists s|].
    destruct s as [|x s]; [discriminate|]. cbn in H.
    apply andb_prop in H as [Hx Hp]. apply Ascii.eqb_eq in Hx. subst x.
    destruct (IH _ Hp) as [t ->]. now exists t.
  - intros [t ->]. apply HasPrefix_app.
Qed.

Lemma Index_unfold (s substr : list ascii) :
  Index s substr =
  if HasPrefix s substr then 0%Z
  else match s with
       | [] => (-1)%Z
       | _ :: s' => let r := Index s' substr in
                    if (r <? 0)%Z then (-1)%Z else (r + 1)%Z
       end.
Proof. destruct s; reflexivity. Qed.

Lemma Index_range (s substr : list ascii) :
  Index s substr = (-1)%Z \/ (0 <= Index s substr <= Z.of_nat (length s))%Z.
Proof.
  induction s as [|c s IH]; rewrite Index_unfold.
  - destruct (HasPrefix [] substr); cbn; lia.
  - destruct (HasPrefix (c :: s) substr); [cbn [length]; lia|].
    cbv zeta. destruct (Z.ltb_spec (Index s substr) 0); cbn [length]; lia.
Qed.

(** [Index] returns the first offset at which [substr] starts. *)
Lemma Index_found (s substr : list ascii) (k : nat) :
  Index s substr = Z.of_nat k <->
  HasPrefix (skipn k s) substr = true /\ k <= length s /\
  forall k', k' < k -> HasPrefix (skipn k' s) substr = false.
Proof.
  revert k. induction s as [|c s IH]; intros k; rewrite Index_unfold.
  - destruct (HasPrefix [] substr) eqn:Hp.
    + split.
      * intros Hk. assert (k = 0) by lia. subst k.
        repeat split; [exact Hp | cbn; lia | intros; lia].
      * intros (_ & Hk & _). cbn in Hk. assert (k = 0) by lia. now subst k.
    + split; [lia|]. intros (Hk & _ & _). rewrite skipn_nil in Hk. congruence.
  - destruct (HasPrefix (c :: s) substr) eqn:Hp.
    + split.
      * intros Hk. assert (k = 0) by lia. subst k.
        repeat split; [exact Hp | lia | intros; lia].
      * intros (_ & _ & Hfirst). destruct k as [|k]; [reflexivity|].
        specialize (Hfirst 0 ltac:(lia)). cbn [skipn] in Hfirst. congruence.
    + cbv zeta. destruct (Z.ltb_spec (Index s substr) 0) as [Hneg|Hpos].
      * split; [lia|]. intros (Hk & Hle & Hfirst).
        destruct k as [|k]; [cbn [skipn] in Hk; congruence|].
        exfalso. cbn [skipn length] in *.
        assert (Index s substr = Z.of_nat k); [|lia].
        apply IH. repeat split; [assumption | lia |].
        intros k' Hk'. apply (Hfirst (S k')). lia.
      * split.
        -- intros Hk. destruct k as [|k]; [lia|].
           assert (Hk' : Index s substr = Z.of_nat k) by lia.
           apply IH in Hk' as (H1 & H2 & H3). cbn [skipn length].
           repeat split; [assumption | lia |].
           intros [|k'] Hlt; [exact Hp | apply H3; lia].
        -- intros (Hk & Hle & Hfirst).
           destruct k as [|k]; [cbn [skipn] in Hk; congruence|].
           cbn [skipn length] in *.
           assert (Index s substr = Z.of_nat k); [|lia].
           apply IH. repeat split; [assumption | lia |].
           intros k' Hk'. apply (Hfirst (S k')). lia.
Qed.

Lemma Index_absent (s substr : list ascii) :
  Index s substr = (-1)%Z <->
  forall k, k <= length s -> HasPrefix (skipn k s) substr = false.
Proof.
  induction s as [|c s IH]; rewrite Index_unfold.
  - destruct (HasPrefix [] substr) eqn:Hp.
    + split; [lia|]. intros H. specialize (H 0 (Nat.le_refl _)). cbn [skipn] in H. congruence.
    + split; [|reflexivity]. intros _ k _. now rewrite skipn_nil.
  - destruct (HasPrefix (c :: s) substr) eqn:Hp.
    + split; [lia|]. intros H. specialize (H 0 ltac:(lia)). cbn [skipn] in H. congruence.
    + cbv zeta. destruct (Z.ltb_spec (Index s substr) 0) as [Hneg|Hpos].
      * split; [|reflexivity]. intros _ [|k] Hk; [exact Hp|].
        cbn [skipn]. apply IH; [|cbn in Hk; lia].
        destruct (Index_range s substr); lia.
      * split; [lia|]. intros H. exfalso.
        assert (Index s substr = (-1)%Z); [|lia].
        apply IH. intros k Hk. apply (H (S k)). cbn. lia.
Qed.

(** [Contains] holds exactly of the texts that have [substr] somewhere. *)
Lemma Contains_spec (s substr : list ascii) :
  Contains s substr = true <-> exists pre post, s = pre ++ substr ++ post.
Proof.
  unfold Contains. split.
  - intros H. apply Z.leb_le in H.
    destruct (Index_range s substr) as [Hr|Hr]; [lia|].
    assert (Hk : Index s substr = Z.of_nat (Z.to_nat (Index s substr))) by lia.
    apply Index_found in Hk as (Hp & _ & _).
    apply HasPrefix_spec in Hp as [post Hpost].
    exists (firstn (Z.to_nat (Index s substr)) s), post.
    rewrite <- Hpost. symmetry. apply firstn_skipn.
  - intros (pre & post & ->). apply Z.leb_le.
    destruct (Index_range (pre ++ substr ++ post) substr) as [Hr|Hr]; [|lia].
    exfalso. pose proof (proj1 (Index_absent _ _) Hr (length pre)) as H.
    rewrite skipn_app, Nat.sub_diag, skipn_all in H. cbn [skipn app] in H.
    rewrite HasPrefix_app in H. specialize (H ltac:(rewrite length_app; lia)).
    discriminate.
Qed.

Lemma eqString_spec (x y : list ascii) : eqString x y = true <-> x = y.
Proof.
  revert y. induction x as [|c x IH]; intros [|d y]; cbn; split;
    try congruence; try discriminate.
  - intros H. apply andb_prop in H as [Hc Hx]. apply Ascii.eqb_eq in Hc.
    apply IH in Hx. congruence.
  - intros H. injection H as -> ->. rewrite Ascii.eqb_refl. now apply IH.
Qed.

(** ** C10 *)




(** ** C7 *)

(** C7.  For a driver whose label, lower-cased, is neither [mssql] nor
    [sqlserver], the constructor returns the driver it was given and
    allocates nothing; the methods of a wrapper never look at the label:
    whatever the wrapped driver reports, they send the rewritten text. *)
Theorem newQuoteFixDriver_pass_through (next : nat) (d : Driver) (name : list ascii) :
  Dialect d = Some name ->
  ToLower name <> "mssql" ->
  ToLower name <> "sqlserver" ->
  newQuoteFixDriver next d = Some (d, next) /\
  WrapMSSQLQuoteFix next d = Some (d, next) /\
  forall (Context any : Type) (slice : list any -> any) (ctx : Context)
         (query : list ascii) (args v : any) (vargs : list any),
    let rewritten := transformLimitQuery (translate query) in
    callQuery (quoteFixDriver.Exec d ctx query args v) = rewritten /\
    callQuery (quoteFixDriver.ExecContext slice d ctx query vargs) = rewritten /\
    callQuery (quoteFixDriver.Query d ctx query args v)
      = maybeAddOutputClause rewritten /\
    callQuery (quoteFixDriver.QueryContext slice d ctx query vargs)
      = maybeAddOutputClause rewritten.
Proof.
  intros Hd Hm Hs.
  assert (Hnew : newQuoteFixDriver next d = Some (d, next)).
  { unfold newQuoteFixDriver. rewrite Hd. cbv zeta.
    destruct (eqString (ToLower name) "mssql") eqn:E1;
      [apply eqString_spec in E1; contradiction|].
    destruct (eqString (ToLower name) "sqlserver") eqn:E2;
      [apply eqString_spec in E2; contradiction|].
    destruct d; reflexivity. }
  split; [exact Hnew|]. split; [exact Hnew|].
  intros Context any slice ctx query args v vargs rewritten.
  unfold quoteFixDriver.ExecContext, quoteFixDriver.QueryContext.
  destruct (implementsExecContext d), (implementsQueryContext d);
    repeat split; reflexivity.
Qed.

Lemma newQuoteFixDriver_pass_through_witness :
  let d := foreignDriver 7 "MySQL" true true false in
  newQuoteFixDriver 8 d = Some (d, 8).
Proof.
  apply (newQuoteFixDriver_pass_through 8 (foreignDriver 7 "MySQL" true true false)
           "MySQL" eq_refl);
    discriminate.
Defined.

(** The nil driver is returned as it is. *)
Lemma newQuoteFixDriver_nil (next : nat) :
  newQuoteFixDriver next nilDriver = Some (nilDriver, next).
Proof. reflexivity. Qed.

(** The other side of the decision: a target label in any case gets a
    wrapper at a fresh address. *)
Lemma newQuoteFixDriver_wraps (next : nat) (d : Driver) (name : list ascii) :
  Dialect d = Some name ->
  ToLower name = "mssql" \/ ToLower name = "sqlserver" ->
  newQuoteFixDriver next d = Some (mkQuoteFixDriver next d, S next).
Proof.
  intros Hd Hname. unfold newQuoteFixDriver. rewrite Hd. cbv zeta.
  destruct d; [discriminate Hd| |];
    (destruct Hname as [Hn|Hn]; rewrite Hn; reflexivity).
Qed.

Example newQuoteFixDriver_sqlserver :
  newQuoteFixDriver 8 (foreignDriver 7 "SQLServer" true true false)
    = Some (mkQuoteFixDriver 8 (foreignDriver 7 "SQLServer" true true false), 9).
Proof. reflexivity. Qed.

(** ** C8 *)

(** C8.  Exec, ExecContext, Query and QueryContext of the driver wrapper
    and Exec and Query of the transaction wrapper hand the wrapped
    driver or transaction the bound arguments they were given, the same
    list in the same order (as the boxed slice on the fall-back path of
    the context variants); only the statement text is rewritten. *)
Theorem wrappers_forward_arguments
    (Context any : Type) (slice : list any -> any)
    (d : Driver) (t : Tx) (ctx : Context) (query : list ascii)
    (args v : any) (vargs : list any) :
  let rewritten := transformLimitQuery (translate query) in
  quoteFixDriver.Exec d ctx query args v
    = Driver_Exec d ctx rewritten args (given v) /\
  quoteFixDriver.ExecContext slice d ctx query vargs
    = (if implementsExecContext d
       then Driver_ExecContext d ctx rewritten vargs
       else Driver_Exec d ctx rewritten (slice vargs) localRes) /\
  quoteFixDriver.Query d ctx query args v
    = Driver_Query d ctx (maybeAddOutputClause rewritten) args (given v) /\
  quoteFixDriver.QueryContext slice d ctx query vargs
    = (if implementsQueryContext d
       then Driver_QueryContext d ctx (maybeAddOutputClause rewritten) vargs
       else Driver_Query d ctx (maybeAddOutputClause rewritten) (slice vargs) localRows) /\
  quoteFixTx.Exec t ctx query args v
    = Tx_Exec t ctx rewritten args (given v) /\
  quoteFixTx.Query t ctx query args v
    = Tx_Query t ctx (maybeAddOutputClause rewritten) args (given v) /\
  callArgs (quoteFixDriver.Exec d ctx query args v) = inl args /\
  callArgs (quoteFixDriver.Query d ctx query args v) = inl args /\
  callArgs (quoteFixTx.Exec t ctx query args v) = inl args /\
  callArgs (quoteFixTx.Query t ctx query args v) = inl args /\
  (callArgs (quoteFixDriver.ExecContext slice d ctx query vargs) = inr vargs \/
   callArgs (quoteFixDriver.ExecContext slice d ctx query vargs) = inl (slice vargs)) /\
  (callArgs (quoteFixDriver.QueryContext slice d ctx query vargs) = inr vargs \/
   callArgs (quoteFixDriver.QueryContext slice d ctx query vargs) = inl (slice vargs)).
Proof.
  cbv zeta. unfold quoteFixDriver.ExecContext, quoteFixDriver.QueryContext.
  repeat split; try reflexivity.
  - destruct (implementsExecContext d); [left | right]; reflexivity.
  - destruct (implementsQueryContext d); [left | right]; reflexivity.
Qed.

(** ** package strings: trimming *)

Lemma TrimLeftSpace_spaces (w s : list ascii) :
  forallb isSpace w = true -> TrimLeftSpace (w ++ s) = TrimLeftSpace s.
Proof.
  induction w as [|c w IH]; cbn; [reflexivity|].
  intros H. apply andb_prop in H as [Hc Hw]. rewrite Hc. auto.
Qed.

Lemma TrimLeftSpace_keeps (x : list ascii) (c : ascii) (y : list ascii) :
  isSpace c = false -> TrimLeftSpace (x ++ c :: y) = TrimLeftSpace x ++ c :: y.
Proof.
  intros Hc. induction x as [|d x IH]; cbn; [now rewrite Hc|].
  destruct (isSpace d); [exact IH | reflexivity].
Qed.

Lemma TrimRightSpace_keeps (x : list ascii) (c : ascii) (y : list ascii) :
  isSpace c = false -> TrimRightSpace (x ++ c :: y) = x ++ c :: TrimRightSpace y.
Proof.
  intros Hc. unfold TrimRightSpace.
  rewrite rev_app_distr. cbn [rev]. rewrite <- app_assoc. cbn [app].
  rewrite TrimLeftSpace_keeps by assumption.
  rewrite rev_app_distr. cbn [rev]. rewrite rev_involutive, <- app_assoc.
  reflexivity.
Qed.

Lemma TrimLeftSpace_length (s : list ascii) : length (TrimLeftSpace s) <= length s.
Proof.
  induction s as [|c s IH]; cbn; [lia|]. destruct (isSpace c); cbn; lia.
Qed.

Lemma TrimSpace_length (s : list ascii) : length (TrimSpace s) <= length s.
Proof.
  unfold TrimSpace, TrimRightSpace. rewrite length_rev.
  etransitivity; [apply TrimLeftSpace_length|]. rewrite length_rev.
  apply TrimLeftSpace_length.
Qed.

(** A text is all white space, or has a first byte that is not. *)
Lemma first_non_space (s : list ascii) :
  forallb isSpace s = true \/
  exists w c s', s = w ++ c :: s' /\ forallb isSpace w = true /\ isSpace c = false.
Proof.
  induction s as [|c s IH]; [now left|].
  destruct (isSpace c) eqn:Hc.
  - destruct IH as [Hall | (w & d & s' & -> & Hw & Hd)].
    + left. cbn. now rewrite Hc.
    + right. exists (c :: w), d, s'. cbn. now rewrite Hc.
  - right. now exists [], c, s.
Qed.

Lemma ToLower_app (x y : list ascii) : ToLower (x ++ y) = ToLower x ++ ToLower y.
Proof. apply map_app. Qed.

Lemma ToLower_length (s : list ascii) : length (ToLower s) = length s.
Proof. apply length_map. Qed.

(** ** C9 *)

(** A statement that already carries the injected clause is left alone,
    wherever the clause stands. *)
Lemma maybeAddOutputClause_injected (x y : list ascii) :
  maybeAddOutputClause (x ++ " OUTPUT INSERTED.[id]" ++ y)
    = x ++ " OUTPUT INSERTED.[id]" ++ y.
Proof.
  unfold maybeAddOutputClause.
  destruct (first_non_space x) as [Hall | (w & c & x' & -> & Hw & Hc)].
  - replace (TrimSpace (x ++ " OUTPUT INSERTED.[id]" ++ y))
      with ("OUTPUT INSERTED.[id" ++ "]"%char :: TrimRightSpace y).
    + reflexivity.
    + unfold TrimSpace. rewrite TrimLeftSpace_spaces by assumption.
      change (TrimLeftSpace (" OUTPUT INSERTED.[id]" ++ y))
        with ("OUTPUT INSERTED.[id" ++ "]"%char :: y).
      now rewrite TrimRightSpace_keeps.
  - destruct (HasPrefix _ "insert into"); [cbn [negb]|reflexivity].
    replace (Contains _ " output ") with true; [reflexivity|].
    symmetry. apply Contains_spec.
    exists (ToLower (c :: x')), ("inserted.[id]" ++ ToLower (TrimRightSpace y)).
    unfold TrimSpace. rewrite <- app_assoc.
    rewrite TrimLeftSpace_spaces by assumption.
    cbn [app TrimLeftSpace]. rewrite Hc.
    replace (c :: x' ++ list_ascii_of_string " OUTPUT INSERTED.[id]" ++ y)
      with ((c :: x' ++ " OUTPUT INSERTED.[id") ++ "]"%char :: y)
      by (cbn; f_equal; rewrite <- app_assoc; reflexivity).
    rewrite TrimRightSpace_keeps by reflexivity.
    change (ToLower (c :: x')) with (lowerByte c :: ToLower x').
    unfold ToLower. cbn [map app]. rewrite !map_app. cbn [map app].
    rewrite <- ?app_assoc. reflexivity.
Qed.

(** On ASCII text, applying [maybeAddOutputClause] to its own result
    changes nothing: either the first application returned its
    argument, or it injected the clause, whose bytes [ OUTPUT ] the
    second application finds (or the statement no longer starts with
    INSERT INTO). *)
Lemma maybeAddOutputClause_idempotent (q : list ascii) :
  isASCII q = true ->
  maybeAddOutputClause (maybeAddOutputClause q) = maybeAddOutputClause q.
Proof.
  intros _.
  remember (maybeAddOutputClause q) as r eqn:Hr.
  unfold maybeAddOutputClause in Hr.
  destruct (negb (HasPrefix (ToLower (TrimSpace q)) "insert into")) eqn:Hins.
  { subst r. unfold maybeAddOutputClause. now rewrite Hins. }
  destruct (Contains (ToLower (TrimSpace q)) " output ") eqn:Hout.
  { subst r. unfold maybeAddOutputClause. now rewrite Hins, Hout. }
  destruct (Index (ToLower (TrimSpace q)) " values" =? -1)%Z eqn:Hidx.
  { subst r. unfold maybeAddOutputClause. now rewrite Hins, Hout, Hidx. }
  subst r. apply maybeAddOutputClause_injected.
Qed.

(** The slices of [maybeAddOutputClause] are in range when the
    lower-cased text is not longer than the trimmed one, as on ASCII
    text. *)
Lemma maybeAddOutputClause_in_range (q : list ascii) :
  let idx := Index (ToLower (TrimSpace q)) " values" in
  idx <> (-1)%Z -> (0 <= idx <= Z.of_nat (length q))%Z.
Proof.
  intros idx Hidx. subst idx.
  destruct (Index_range (ToLower (TrimSpace q)) " values") as [H|H]; [contradiction|].
  rewrite ToLower_length in H. pose proof (TrimSpace_length q). lia.
Qed.

(** On ASCII text the function with its bounds checked does not panic:
    it returns what [maybeAddOutputClause] returns. *)
Lemma maybeAddOutputClauseAt_ascii (q : list ascii) :
  isASCII q = true ->
  maybeAddOutputClauseAt (ToLower (TrimSpace q)) q = Some (maybeAddOutputClause q).
Proof.
  intros _. unfold maybeAddOutputClauseAt, maybeAddOutputClause.
  destruct (negb (HasPrefix (ToLower (TrimSpace q)) "insert into")); [reflexivity|].
  destruct (Contains (ToLower (TrimSpace q)) " output "); [reflexivity|].
  cbv zeta. destruct (Index (ToLower (TrimSpace q)) " values" =? -1)%Z eqn:Hidx;
    [reflexivity|].
  apply Z.eqb_neq in Hidx. apply maybeAddOutputClause_in_range in Hidx.
  destruct (Index (ToLower (TrimSpace q)) " values" <=? Z.of_nat (length q))%Z eqn:Hle;
    [reflexivity|]. apply Z.leb_gt in Hle. lia.
Qed.

(** C9.  The statement INSERT INTO, eight letters U+023A and VALUES, 35
    bytes.  Go's [strings.ToLower] maps each U+023A (two bytes) to
    U+2C65 (three bytes), so [lower] has 43 bytes and [ values] is found
    at offset 36: the slice [q[:36]] of line 137 is out of range and the
    function panics, where the claim has it return a text. *)
Theorem maybeAddOutputClause_out_of_range :
  let q := "INSERT INTO " ++ concat (repeat ["200"%char; "186"%char] 8) ++ " VALUES" in
  let lower := "insert into "
                 ++ concat (repeat ["226"%char; "177"%char; "165"%char] 8) ++ " values" in
  length q = 35 /\ length lower = 43 /\ Index lower " values" = 36%Z /\
  maybeAddOutputClauseAt lower q = None.
Proof.
  cbv zeta. split; [vm_compute; reflexivity|]. split; [vm_compute; reflexivity|].
  split; vm_compute; reflexivity.
Qed.

(** ** C3 *)

(** C3.  With one space in front of INSERT INTO the clause lands one
    byte early, inside the column list, and not before [ VALUES]: the
    offset of [ VALUES] is taken in the trimmed text and used on the
    untrimmed one. *)
Lemma maybeAddOutputClause_leading_space :
  maybeAddOutputClause " INSERT INTO t (a) VALUES (1)"
    = " INSERT INTO t (a OUTPUT INSERTED.[id]) VALUES (1)".
Proof. reflexivity. Qed.

(** ** package regexp: the matcher against the declarative reading *)

Import regexp.

Lemma greedy_sound (cl : ascii -> bool)
    (wrap : list ascii -> option result -> option result)
    (k : list ascii -> option result) (s : list ascii) :
  forall (acc : list ascii) (r : result),
    greedy cl wrap k acc s = Some r ->
    exists run s', s = run ++ s' /\ forallb cl run = true /\
                   wrap (acc ++ run) (k s') = Some r.
Proof.
  induction s as [|x s IH]; intros acc r H; cbn in H.
  - exists [], []. rewrite !app_nil_r. auto.
  - destruct (cl x) eqn:Hx.
    + destruct (greedy cl wrap k (acc ++ [x]) s) as [r0|] eqn:G.
      * injection H as <-. destruct (IH _ _ G) as (run & s' & -> & Hrun & Hw).
        exists (x :: run), s'. cbn. rewrite Hx, Hrun.
        rewrite <- app_assoc in Hw. auto.
      * exists [], (x :: s). rewrite !app_nil_r. auto.
    + exists [], (x :: s). rewrite !app_nil_r. auto.
Qed.

Lemma greedy_longest (cl : ascii -> bool)
    (wrap : list ascii -> option result -> option result)
    (k : list ascii -> option result) (run : list ascii) :
  forall (acc s' : list ascii) (r : result),
    forallb cl run = true -> startsOutside cl s' = true ->
    wrap (acc ++ run) (k s') = Some r ->
    greedy cl wrap k acc (run ++ s') = Some r.
Proof.
  induction run as [|a run IH]; intros acc s' r Hrun Hout Hw.
  - rewrite app_nil_r in Hw. destruct s' as [|x s'']; [exact Hw|].
    cbn in *. apply negb_true_iff in Hout. now rewrite Hout.
  - cbn in Hrun. apply andb_prop in Hrun as [Ha Hrun].
    cbn. rewrite Ha. rewrite (IH (acc ++ [a]) s' r); auto.
    now rewrite <- app_assoc.
Qed.

Lemma consumed_Some (x : list ascii) (o : option result) (r : result) :
  consumed x o = Some r ->
  exists m caps, o = Some (m, caps) /\ r = (x ++ m, caps).
Proof.
  destruct o as [[m caps]|]; [|discriminate]. intros [= <-]. now exists m, caps.
Qed.

Lemma captured_Some (x : list ascii) (o : option result) (r : result) :
  captured x o = Some r ->
  exists m caps, o = Some (m, caps) /\ r = (x ++ m, x :: caps).
Proof.
  destruct o as [[m caps]|]; [|discriminate]. intros [= <-]. now exists m, caps.
Qed.

(** What the matcher returns is a match. *)
Lemma matchHere_sound (p : list node) :
  forall (s m : list ascii) (caps : list (list ascii)),
    matchHere p s = Some (m, caps) -> accepts false p s m caps.
Proof.
  induction p as [|n p IH]; intros s m caps H.
  - cbn in H. injection H as <- <-. now split.
  - destruct n as [c|cl|cl|cl|]; cbn [matchHere] in H; cbn [accepts].
    + destruct s as [|x s]; [discriminate|].
      destruct (foldEq x c) eqn:Hx; [|discriminate].
      apply consumed_Some in H as (m' & caps' & Hm & [= -> ->]).
      exists x, s, m'. auto.
    + destruct s as [|x s]; [discriminate|].
      destruct (cl x) eqn:Hx; [|discriminate].
      apply greedy_sound in H as (run & s' & -> & Hrun & Hw).
      apply consumed_Some in Hw as (m' & caps' & Hm & [= -> ->]).
      exists (x :: run), s', m'. cbn. rewrite Hx, Hrun.
      repeat split; auto; discriminate.
    + apply greedy_sound in H as (run & s' & -> & Hrun & Hw).
      apply consumed_Some in Hw as (m' & caps' & Hm & [= -> ->]).
      exists run, s', m'. repeat split; auto; discriminate.
    + destruct s as [|x s]; [discriminate|].
      destruct (cl x) eqn:Hx; [|discriminate].
      apply greedy_sound in H as (run & s' & -> & Hrun & Hw).
      apply captured_Some in Hw as (m' & caps' & Hm & [= -> ->]).
      exists (x :: run), s', m', caps'. cbn. rewrite Hx, Hrun.
      repeat split; auto; discriminate.
    + destruct s; [|discriminate]. auto.
Qed.

(** A match whose repetitions are all maximal is the one the matcher
    returns. *)
Lemma matchHere_longest (p : list node) :
  forall (s m : list ascii) (caps : list (list ascii)),
    accepts true p s m caps -> matchHere p s = Some (m, caps).
Proof.
  induction p as [|n p IH]; intros s m caps H.
  - destruct H as [-> ->]. reflexivity.
  - destruct n as [c|cl|cl|cl|]; cbn [matchHere]; cbn [accepts] in H.
    + destruct H as (x & s' & m' & -> & Hx & -> & H).
      rewrite Hx, (IH _ _ _ H). reflexivity.
    + destruct H as (run & s' & m' & -> & Hne & Hrun & Hout & -> & H).
      destruct run as [|x run]; [contradiction|].
      cbn in Hrun. apply andb_prop in Hrun as [Hx Hrun].
      cbn [app]. rewrite Hx.
      apply greedy_longest; auto. now rewrite (IH _ _ _ H).
    + destruct H as (run & s' & m' & -> & Hrun & Hout & -> & H).
      apply greedy_longest; auto. now rewrite (IH _ _ _ H).
    + destruct H as (run & s' & m' & caps' & -> & Hne & Hrun & Hout & -> & -> & H).
      destruct run as [|x run]; [contradiction|].
      cbn in Hrun. apply andb_prop in Hrun as [Hx Hrun].
      cbn [app]. rewrite Hx.
      apply greedy_longest; auto. now rewrite (IH _ _ _ H).
    + destruct H as [-> H]. auto.
Qed.

Lemma accepts_weaken (p : list node) :
  forall (s m : list ascii) (caps : list (list ascii)),
    accepts true p s m caps -> accepts false p s m caps.
Proof.
  intros s m caps H. apply matchHere_sound. now apply matchHere_longest.
Qed.

(** A match is a prefix of the text, and all of it under [$]. *)
Lemma accepts_prefix (p : list node) :
  forall (s m : list ascii) (caps : list (list ascii)),
    accepts false p s m caps -> exists rest, s = m ++ rest.
Proof.
  induction p as [|n p IH]; intros s m caps H.
  - destruct H as [-> _]. now exists s.
  - destruct n as [c|cl|cl|cl|]; cbn [accepts] in H.
    + destruct H as (x & s' & m' & -> & _ & -> & H).
      destruct (IH _ _ _ H) as [rest ->]. now exists rest.
    + destruct H as (run & s' & m' & -> & _ & _ & _ & -> & H).
      destruct (IH _ _ _ H) as [rest ->]. exists rest. now rewrite app_assoc.
    + destruct H as (run & s' & m' & -> & _ & _ & -> & H).
      destruct (IH _ _ _ H) as [rest ->]. exists rest. now rewrite app_assoc.
    + destruct H as (run & s' & m' & caps' & -> & _ & _ & _ & -> & _ & H).
      destruct (IH _ _ _ H) as [rest ->]. exists rest. now rewrite app_assoc.
    + destruct H as [-> H]. destruct (IH _ _ _ H) as [rest Hr].
      symmetry in Hr. apply app_eq_nil in Hr as [-> ->]. now exists [].
Qed.

Lemma accepts_whole (p : list node) :
  forall (s m : list ascii) (caps : list (list ascii)),
    In EndText p -> accepts false p s m caps -> m = s.
Proof.
  induction p as [|n p IH]; intros s m caps Hend H; [contradiction|].
  destruct n as [c|cl|cl|cl|]; cbn [accepts] in H;
    try (destruct Hend as [Hend|Hend]; [discriminate|]).
  - destruct H as (x & s' & m' & -> & _ & -> & H). f_equal. eauto.
  - destruct H as (run & s' & m' & -> & _ & _ & _ & -> & H). f_equal. eauto.
  - destruct H as (run & s' & m' & -> & _ & _ & -> & H). f_equal. eauto.
  - destruct H as (run & s' & m' & caps' & -> & _ & _ & _ & -> & _ & H).
    f_equal. eauto.
  - destruct H as [-> H]. apply accepts_prefix in H as [rest Hr].
    symmetry in Hr. now apply app_eq_nil in Hr as [-> _].
Qed.

(** ** The character classes *)

Ltac all_bytes x := destruct x as [[] [] [] [] [] [] [] []]; vm_compute; auto.

Lemma spaceClass_isSpace (x : ascii) : spaceClass x = true -> isSpace x = true.
Proof. all_bytes x. Qed.

Lemma spaceClass_not_digit (x : ascii) : spaceClass x = true -> digitClass x = false.
Proof. all_bytes x. Qed.

Lemma digitClass_not_space (x : ascii) : digitClass x = true -> spaceClass x = false.
Proof. all_bytes x. Qed.

Lemma digitClass_not_isSpace (x : ascii) : digitClass x = true -> isSpace x = false.
Proof. all_bytes x. Qed.

Lemma wordByte_lowerByte (x : ascii) : wordByte (lowerByte x) = wordByte x.
Proof. all_bytes x. Qed.

Lemma wordByte_foldEq (x c : ascii) : foldEq x c = true -> wordByte x = wordByte c.
Proof.
  unfold foldEq. intros H. apply Ascii.eqb_eq in H.
  now rewrite <- (wordByte_lowerByte x), H, wordByte_lowerByte.
Qed.

Lemma wordByte_not_space (x : ascii) : wordByte x = true -> spaceClass x = false.
Proof. all_bytes x. Qed.

Lemma wordByte_not_digit (x : ascii) : wordByte x = true -> digitClass x = false.
Proof. all_bytes x. Qed.

Lemma spaceClass_not_word (x : ascii) : spaceClass x = true -> wordByte x = false.
Proof. all_bytes x. Qed.

Lemma digitClass_not_word (x : ascii) : digitClass x = true -> wordByte x = false.
Proof. all_bytes x. Qed.

(** ** Runs of a class at the two ends of a text *)

Lemma startsOutside_run (cl cl' : ascii -> bool) (run rest : list ascii) :
  run <> [] -> forallb cl' run = true ->
  (forall x, cl' x = true -> cl x = false) ->
  startsOutside cl (run ++ rest) = true.
Proof.
  intros Hne Hrun Hcl. destruct run as [|x run]; [contradiction|].
  cbn in *. apply andb_prop in Hrun as [Hx _]. now rewrite (Hcl _ Hx).
Qed.

Lemma endsOutside_cons (cl : ascii -> bool) (y : ascii) (d : list ascii) :
  d <> [] -> endsOutside cl (y :: d) = endsOutside cl d.
Proof.
  intros Hne. unfold endsOutside. cbn [rev].
  destruct (rev d) as [|z r] eqn:Hr; [|reflexivity].
  apply (f_equal (@rev ascii)) in Hr. rewrite rev_involutive in Hr. contradiction.
Qed.

Lemma endsOutside_snoc (cl : ascii -> bool) (x : list ascii) (a : ascii) :
  endsOutside cl (x ++ [a]) = negb (cl a).
Proof. unfold endsOutside. now rewrite rev_app_distr. Qed.

Lemma endsOutside_run (cl cl' : ascii -> bool) (x run : list ascii) :
  run <> [] -> forallb cl' run = true ->
  (forall z, cl' z = true -> cl z = false) ->
  endsOutside cl (x ++ run) = true.
Proof.
  intros Hne Hrun Hcl. unfold endsOutside. rewrite rev_app_distr.
  apply (startsOutside_run cl cl').
  - intros Hr. apply (f_equal (@rev ascii)) in Hr. now rewrite rev_involutive in Hr.
  - rewrite forallb_forall in *. intros z Hz. apply Hrun. now apply in_rev.
  - assumption.
Qed.

(** Every text ends with a longest run of a class. *)
Lemma trailing_run (cl : ascii -> bool) (s : list ascii) :
  exists x w, s = x ++ w /\ forallb cl w = true /\ endsOutside cl x = true.
Proof.
  induction s as [|a s IH] using rev_ind.
  - now exists [], [].
  - destruct (cl a) eqn:Ha.
    + destruct IH as (x & w & -> & Hw & Hx).
      exists x, (w ++ [a]). rewrite <- app_assoc. repeat split; auto.
      rewrite forallb_app, Hw. cbn. now rewrite Ha.
    + exists (s ++ [a]), []. rewrite app_nil_r, endsOutside_snoc, Ha. auto.
Qed.

(** Two readings of one text as a run of [cl] followed by a rest that
    starts outside [cl] are the same reading. *)
Lemma leading_run_unique (cl : ascii -> bool) (run1 : list ascii) :
  forall run2 r1 r2 : list ascii,
    run1 ++ r1 = run2 ++ r2 ->
    forallb cl run1 = true -> forallb cl run2 = true ->
    startsOutside cl r1 = true -> startsOutside cl r2 = true ->
    run1 = run2 /\ r1 = r2.
Proof.
  induction run1 as [|a run1 IH]; intros run2 r1 r2 Heq H1 H2 Ho1 Ho2.
  - destruct run2 as [|c run2]; [auto|]. cbn in Heq. subst r1.
    cbn in Ho1, H2. apply andb_prop in H2 as [Hc _]. rewrite Hc in Ho1. discriminate.
  - cbn in H1. apply andb_prop in H1 as [Ha H1].
    destruct run2 as [|c run2].
    + cbn in Heq. subst r2. cbn in Ho2. rewrite Ha in Ho2. discriminate.
    + cbn in Heq. injection Heq as <- Heq.
      cbn in H2. apply andb_prop in H2 as [_ H2].
      destruct (IH run2 r1 r2 Heq H1 H2 Ho1 Ho2) as [-> ->]. auto.
Qed.

Lemma trailing_run_unique (cl : ascii -> bool) (x1 x2 run1 run2 : list ascii) :
  x1 ++ run1 = x2 ++ run2 ->
  forallb cl run1 = true -> forallb cl run2 = true ->
  endsOutside cl x1 = true -> endsOutside cl x2 = true ->
  x1 = x2 /\ run1 = run2.
Proof.
  intros Heq H1 H2 Ho1 Ho2.
  apply (f_equal (@rev ascii)) in Heq. rewrite !rev_app_distr in Heq.
  destruct (leading_run_unique cl (rev run1) (rev run2) (rev x1) (rev x2)) as [Hr Hx];
    auto.
  - rewrite forallb_forall in *. intros z Hz. apply H1. now apply in_rev.
  - rewrite forallb_forall in *. intros z Hz. apply H2. now apply in_rev.
  - split.
    + apply (f_equal (@rev ascii)) in Hx. now rewrite !rev_involutive in Hx.
    + apply (f_equal (@rev ascii)) in Hr. now rewrite !rev_involutive in Hr.
Qed.

(** The first byte after a leading run lies in every prefix that ends
    outside the class. *)
Lemma first_outside (cl : ascii -> bool) (run : list ascii) :
  forall (d t : list ascii) (x : ascii) (s : list ascii),
    forallb cl run = true -> d <> [] -> endsOutside cl d = true ->
    d ++ t = run ++ x :: s -> In x d.
Proof.
  induction run as [|r run IH]; intros d t x s Hrun Hne Hout Heq.
  - destruct d as [|y d]; [contradiction|]. cbn in Heq. injection Heq as -> _.
    now left.
  - destruct d as [|y d]; [contradiction|]. cbn in Heq. injection Heq as -> Heq.
    cbn in Hrun. apply andb_prop in Hrun as [Hr Hrun].
    destruct d as [|z d].
    + unfold endsOutside in Hout. cbn in Hout. rewrite Hr in Hout. discriminate.
    + right. apply (IH (z :: d) t x s); auto; [discriminate|].
      now rewrite endsOutside_cons in Hout by discriminate.
Qed.

(** ** Counting the bytes that are neither space nor digit *)

Lemma wordBytes_app (x y : list ascii) : wordBytes (x ++ y) = wordBytes x + wordBytes y.
Proof. unfold wordBytes. now rewrite filter_app, length_app. Qed.

Lemma wordBytes_run (cl : ascii -> bool) (run : list ascii) :
  (forall x, cl x = true -> wordByte x = false) ->
  forallb cl run = true -> wordBytes run = 0.
Proof.
  intros Hcl. induction run as [|a run IH]; [reflexivity|].
  cbn. intros H. apply andb_prop in H as [Ha Hrun].
  unfold wordBytes in *. cbn. rewrite (Hcl _ Ha). auto.
Qed.

Lemma wordBytes_In (x : ascii) (d : list ascii) :
  In x d -> wordByte x = true -> 0 < wordBytes d.
Proof.
  intros Hin Hx. apply in_split in Hin as (d1 & d2 & ->).
  rewrite wordBytes_app. unfold wordBytes at 2. cbn. rewrite Hx. cbn. lia.
Qed.

Lemma accepts_wordBytes (p : list node) :
  forall (s m : list ascii) (caps : list (list ascii)),
    Forall nodeOK p -> accepts false p s m caps -> wordBytes m = numLits p.
Proof.
  induction p as [|n p IH]; intros s m caps Hok H.
  - now destruct H as [-> _].
  - inversion Hok as [|? ? Hn Hp]; subst.
    destruct n as [c|cl|cl|cl|]; cbn [accepts numLits] in *.
    + destruct H as (x & s' & m' & -> & Hx & -> & H).
      change (x :: m') with ([x] ++ m'). rewrite wordBytes_app, (IH _ _ _ Hp H).
      unfold wordBytes. cbn. rewrite (wordByte_foldEq _ _ Hx), Hn. reflexivity.
    + destruct H as (run & s' & m' & -> & _ & Hrun & _ & -> & H).
      now rewrite wordBytes_app, (wordBytes_run cl), (IH _ _ _ Hp H).
    + destruct H as (run & s' & m' & -> & Hrun & _ & -> & H).
      now rewrite wordBytes_app, (wordBytes_run cl), (IH _ _ _ Hp H).
    + destruct H as (run & s' & m' & caps' & -> & _ & Hrun & _ & -> & _ & H).
      now rewrite wordBytes_app, (wordBytes_run cl), (IH _ _ _ Hp H).
    + destruct H as [-> H]. eauto.
Qed.

(** ** FindStringSubmatch: the leftmost match *)

Lemma FindStringSubmatch_unfold (re : list node) (s : list ascii) :
  FindStringSubmatch re s =
  match matchHere re s with
  | Some (m, caps) => Some (m :: caps)
  | None => match s with
            | [] => None
            | _ :: s' => FindStringSubmatch re s'
            end
  end.
Proof. destruct s; reflexivity. Qed.

(** No match starts inside a prefix [d] that ends outside white space
    when the text [t] after it is a match itself: the pattern would
    take one of its letters from [d]. *)
Lemma no_earlier_match (c : ascii) (p : list node) (d t : list ascii)
    (caps : list (list ascii)) :
  Forall nodeOK (Plus spaceClass :: Lit c :: p) -> In EndText p ->
  d <> [] -> endsOutside spaceClass d = true ->
  accepts false (Plus spaceClass :: Lit c :: p) t t caps ->
  matchHere (Plus spaceClass :: Lit c :: p) (d ++ t) = None.
Proof.
  intros Hok Hend Hne Hout Ht.
  destruct (matchHere _ (d ++ t)) as [[m' caps']|] eqn:E; [exfalso|reflexivity].
  apply matchHere_sound in E.
  assert (m' = d ++ t)
    by (apply (accepts_whole _ _ _ _ (in_cons _ _ _ (in_cons _ _ _ Hend)) E)).
  subst m'.
  pose proof (accepts_wordBytes _ _ _ _ Hok E) as Hn1.
  pose proof (accepts_wordBytes _ _ _ _ Hok Ht) as Hn2.
  rewrite wordBytes_app, Hn2 in Hn1.
  cbn [accepts] in E.
  destruct E as (run & s' & m1 & Heq & _ & Hrun & _ & _ & x & s'' & m2 & -> & Hx & _).
  assert (Hin : In x d) by (eapply first_outside; eauto).
  inversion Hok as [|? ? _ Hok']; subst. inversion Hok' as [|? ? Hc _]; subst.
  cbn in Hc. rewrite <- (wordByte_foldEq _ _ Hx) in Hc.
  pose proof (wordBytes_In _ _ Hin Hc). lia.
Qed.

Lemma FindStringSubmatch_leftmost (c : ascii) (p : list node) (base : list ascii) :
  forall (t : list ascii) (caps : list (list ascii)),
    Forall nodeOK (Plus spaceClass :: Lit c :: p) -> In EndText p ->
    endsOutside spaceClass base = true ->
    accepts true (Plus spaceClass :: Lit c :: p) t t caps ->
    FindStringSubmatch (Plus spaceClass :: Lit c :: p) (base ++ t) = Some (t :: caps).
Proof.
  induction base as [|y base IH]; intros t caps Hok Hend Hout Ht.
  - rewrite FindStringSubmatch_unfold. cbn [app].
    now rewrite (matchHere_longest _ _ _ _ Ht).
  - rewrite FindStringSubmatch_unfold.
    rewrite (no_earlier_match c p (y :: base) t caps); auto;
      [|discriminate | now apply accepts_weaken].
    cbn [app]. apply IH; auto.
    destruct base as [|z base]; [reflexivity|].
    now rewrite endsOutside_cons in Hout by discriminate.
Qed.

Lemma FindStringSubmatch_none (re : list node) (s : list ascii) :
  (forall pre t, s = pre ++ t -> matchHere re t = None) ->
  FindStringSubmatch re s = None.
Proof.
  induction s as [|x s IH]; intros H; rewrite FindStringSubmatch_unfold.
  - now rewrite (H [] [] eq_refl).
  - rewrite (H [] (x :: s) eq_refl). apply IH.
    intros pre t ->. apply (H (x :: pre) t). reflexivity.
Qed.

(** The match is never longer than the text. *)
Lemma FindStringSubmatch_length (re : list node) (s : list ascii) (m : list (list ascii)) :
  FindStringSubmatch re s = Some m -> length (sub m 0) <= length s.
Proof.
  revert m. induction s as [|x s IH]; intros m; rewrite FindStringSubmatch_unfold.
  - destruct (matchHere re []) as [[m0 caps]|] eqn:E; [|discriminate].
    intros [= <-]. apply matchHere_sound, accepts_prefix in E as [rest Hr].
    cbn. symmetry in Hr. apply app_eq_nil in Hr as [-> _]. cbn. lia.
  - destruct (matchHere re (x :: s)) as [[m0 caps]|] eqn:E.
    + intros [= <-]. apply matchHere_sound, accepts_prefix in E as [rest Hr].
      cbn [sub nth]. rewrite Hr, length_app. lia.
    + intros H. specialize (IH _ H). cbn [length]. lia.
Qed.

(** ** The two patterns *)

Lemma limitOnly_clause : limitOnly = clause "LIMIT" tailPattern.
Proof. reflexivity. Qed.

Lemma limitOffset_clause : limitOffset = clause "LIMIT" (clause "OFFSET" tailPattern).
Proof. reflexivity. Qed.

Lemma accepts_lits_inv (l : list ascii) (p : list node) :
  forall (s m : list ascii) (caps : list (list ascii)),
    accepts false (lits l ++ p) s m caps ->
    exists kw s' m', s = kw ++ s' /\ m = kw ++ m' /\ keyword kw l /\
                     accepts false p s' m' caps.
Proof.
  induction l as [|c l IH]; intros s m caps H.
  - now exists [], s, m.
  - cbn [lits map app accepts] in H.
    destruct H as (x & s' & m' & -> & Hx & -> & H).
    destruct (IH _ _ _ H) as (kw & s'' & m'' & -> & -> & Hkw & H').
    exists (x :: kw), s'', m''. repeat split; auto.
    unfold keyword, ToLower in *. cbn [map]. rewrite Hkw. f_equal.
    now apply Ascii.eqb_eq.
Qed.

Lemma accepts_lits (longest : bool) (l : list ascii) (p : list node) :
  forall (kw s m : list ascii) (caps : list (list ascii)),
    keyword kw l -> accepts longest p s m caps ->
    accepts longest (lits l ++ p) (kw ++ s) (kw ++ m) caps.
Proof.
  induction l as [|c l IH]; intros kw s m caps Hkw H.
  - destruct kw; [exact H | discriminate].
  - destruct kw as [|x kw]; [discriminate|]. injection Hkw as Hx Hkw.
    cbn [lits map app accepts]. exists x, (kw ++ s), (kw ++ m).
    repeat split; auto. unfold foldEq. rewrite Hx. apply Ascii.eqb_refl.
Qed.

Lemma keyword_word (kw l : list ascii) :
  keyword kw l -> forallb wordByte l = true -> forallb wordByte kw = true.
Proof.
  revert kw. induction l as [|c l IH]; intros [|x kw] Hkw Hl; try discriminate; auto.
  injection Hkw as Hx Hkw. cbn in *. apply andb_prop in Hl as [Hc Hl].
  rewrite (IH _ Hkw Hl), andb_true_r.
  now rewrite <- wordByte_lowerByte, Hx, wordByte_lowerByte.
Qed.

Lemma keyword_length (kw l : list ascii) : keyword kw l -> length kw = length l.
Proof.
  intros H. apply (f_equal (@length ascii)) in H. now rewrite !ToLower_length in H.
Qed.

Lemma clause_inv (kw : list ascii) (p : list node) (s m : list ascii)
    (caps : list (list ascii)) :
  accepts false (clause kw p) s m caps ->
  exists a0 k a1 n s' m' caps',
    s = a0 ++ k ++ a1 ++ n ++ s' /\ m = a0 ++ k ++ a1 ++ n ++ m' /\
    spaces a0 /\ keyword k kw /\ spaces a1 /\ digits n /\
    caps = n :: caps' /\ accepts false p s' m' caps'.
Proof.
  unfold clause. cbn [accepts].
  intros (a0 & s0 & m0 & -> & Hne0 & Ha0 & _ & -> & H).
  apply accepts_lits_inv in H as (k & s1 & m1 & -> & -> & Hk & H).
  cbn [accepts] in H.
  destruct H as (a1 & s2 & m2 & -> & Hne1 & Ha1 & _ & -> & H).
  destruct H as (n & s3 & m3 & caps' & -> & Hnen & Hn & _ & -> & -> & H).
  exists a0, k, a1, n, s3, m3, caps'. unfold spaces, digits. auto 10.
Qed.

Lemma clause_intro (kw : list ascii) (p : list node)
    (a0 k a1 n s m : list ascii) (caps : list (list ascii)) :
  kw <> [] -> forallb wordByte kw = true ->
  spaces a0 -> keyword k kw -> spaces a1 -> digits n ->
  startsOutside digitClass s = true ->
  accepts true p s m caps ->
  accepts true (clause kw p) (a0 ++ k ++ a1 ++ n ++ s) (a0 ++ k ++ a1 ++ n ++ m)
    (n :: caps).
Proof.
  intros Hkw Hword [Hne0 Ha0] Hk [Hne1 Ha1] [Hnen Hn] Hout H.
  pose proof (keyword_word _ _ Hk Hword) as Hkword.
  assert (Hkne : k <> []).
  { intros ->. apply keyword_length in Hk. destruct kw; [contradiction|discriminate]. }
  unfold clause. cbn [accepts].
  exists a0, (k ++ a1 ++ n ++ s), (k ++ a1 ++ n ++ m).
  repeat split; auto.
  { intros _. apply (startsOutside_run _ wordByte); auto using wordByte_not_space. }
  apply accepts_lits; [assumption|]. cbn [accepts].
  exists a1, (n ++ s), (n ++ m). repeat split; auto.
  { intros _. apply (startsOutside_run _ digitClass); auto using digitClass_not_space. }
  exists n, s, m, caps. repeat split; auto.
Qed.

Lemma tailPattern_inv (s m : list ascii) (caps : list (list ascii)) :
  accepts false tailPattern s m caps ->
  s = m /\ forallb spaceClass m = true /\ caps = [].
Proof.
  unfold tailPattern. cbn [accepts].
  intros (a & s' & m' & -> & Ha & _ & -> & -> & -> & ->).
  rewrite app_nil_r. auto.
Qed.

Lemma tailPattern_intro : accepts true tailPattern [] [] [].
Proof.
  unfold tailPattern. cbn [accepts]. exists [], [], []. repeat split; auto.
Qed.

Lemma clause_nodeOK (kw : list ascii) (p : list node) :
  forallb wordByte kw = true -> Forall nodeOK p -> Forall nodeOK (clause kw p).
Proof.
  intros Hkw Hp. unfold clause.
  constructor; [exact spaceClass_not_word|].
  apply Forall_app. split.
  - unfold lits. apply Forall_map. rewrite forallb_forall in Hkw.
    apply Forall_forall. intros c Hc. now apply Hkw.
  - constructor; [exact spaceClass_not_word|].
    constructor; [exact digitClass_not_word | assumption].
Qed.

Lemma tailPattern_nodeOK : Forall nodeOK tailPattern.
Proof.
  constructor; [exact spaceClass_not_word|]. constructor; [exact I|constructor].
Qed.

Lemma limitOnly_nodeOK : Forall nodeOK limitOnly.
Proof.
  rewrite limitOnly_clause. apply clause_nodeOK; [reflexivity | apply tailPattern_nodeOK].
Qed.

Lemma limitOffset_nodeOK : Forall nodeOK limitOffset.
Proof.
  rewrite limitOffset_clause.
  apply clause_nodeOK; [reflexivity|].
  apply clause_nodeOK; [reflexivity | apply tailPattern_nodeOK].
Qed.

Lemma TrimRightSpace_spaces (x w : list ascii) :
  forallb isSpace w = true -> TrimRightSpace (x ++ w) = TrimRightSpace x.
Proof.
  intros Hw. unfold TrimRightSpace. rewrite rev_app_distr, TrimLeftSpace_spaces; auto.
  rewrite forallb_forall in *. intros z Hz. apply Hw. now apply in_rev.
Qed.

Lemma TrimLeftSpace_all (w : list ascii) :
  forallb isSpace w = true -> TrimLeftSpace w = [].
Proof.
  intros Hw. rewrite <- (app_nil_r w). now rewrite TrimLeftSpace_spaces.
Qed.

(** White space at the end of a text does not change what [TrimSpace]
    returns. *)
Lemma TrimSpace_trailing (x w : list ascii) :
  forallb isSpace w = true -> TrimSpace (x ++ w) = TrimSpace x.
Proof.
  intros Hw. unfold TrimSpace.
  destruct (first_non_space x) as [Hall | (v & c & x' & -> & Hv & Hc)].
  - rewrite TrimLeftSpace_spaces, !TrimLeftSpace_all by assumption. reflexivity.
  - rewrite <- app_assoc.
    rewrite (TrimLeftSpace_spaces v ((c :: x') ++ w)) by assumption.
    rewrite (TrimLeftSpace_spaces v (c :: x')) by assumption.
    cbn [app TrimLeftSpace]. rewrite Hc.
    change (c :: x' ++ w) with ((c :: x') ++ w). now apply TrimRightSpace_spaces.
Qed.

Lemma TrimLeftSpace_starts (s : list ascii) :
  startsOutside isSpace (TrimLeftSpace s) = true.
Proof.
  induction s as [|c s IH]; [reflexivity|]. cbn.
  destruct (isSpace c) eqn:Hc; [exact IH|]. cbn. now rewrite Hc.
Qed.

(** What [TrimSpace] returns does not end with white space. *)
Lemma TrimSpace_ends (s : list ascii) : endsOutside isSpace (TrimSpace s) = true.
Proof.
  unfold endsOutside, TrimSpace, TrimRightSpace. rewrite rev_involutive.
  apply TrimLeftSpace_starts.
Qed.

Lemma spaces_isSpace (w : list ascii) :
  forallb spaceClass w = true -> forallb isSpace w = true.
Proof.
  rewrite !forallb_forall. intros H z Hz. apply spaceClass_isSpace. auto.
Qed.

Lemma In_EndText_limitOnly : In EndText (tl (tl limitOnly)).
Proof. cbn. auto 20. Qed.

Lemma In_EndText_limitOffset : In EndText (tl (tl limitOffset)).
Proof. cbn. auto 30. Qed.

(** ** Where the patterns match *)

(** On a text that ends with [LIMIT n OFFSET m] the first pattern
    matches from the white space before [LIMIT] on: what is left in
    front is [base] without its trailing white space. *)
Lemma FindStringSubmatch_limitOffset (s base n m : list ascii) :
  endsWithLimitOffset s base n m ->
  exists m0 base1,
    FindStringSubmatch limitOffset s = Some [m0; n; m] /\
    s = base1 ++ m0 /\ TrimSpace base1 = TrimSpace base.
Proof.
  intros (w0 & kwL & w1 & w2 & kwO & w3 & -> & Hw0 & HkL & Hw1 & Hn & Hw2 & HkO & Hw3 & Hm).
  destruct (trailing_run spaceClass base) as (base1 & W & -> & HW & Hbase1).
  set (t := (W ++ w0) ++ kwL ++ w1 ++ n ++ w2 ++ kwO ++ w3 ++ m ++ []).
  assert (Ht : accepts true limitOffset t t [n; m]).
  { rewrite limitOffset_clause. subst t.
    apply clause_intro; auto; try discriminate.
    - destruct Hw0 as [Hne Hw0]. split.
      + intros H. apply app_eq_nil in H as [_ ->]. contradiction.
      + now rewrite forallb_app, HW, Hw0.
    - destruct Hw2 as [Hne Hw2].
      apply (startsOutside_run _ spaceClass); auto using spaceClass_not_digit.
    - apply clause_intro; auto using tailPattern_intro; discriminate. }
  exists t, base1. split; [|split].
  - replace ((base1 ++ W) ++ w0 ++ kwL ++ w1 ++ n ++ w2 ++ kwO ++ w3 ++ m)
      with (base1 ++ t)
      by (subst t; rewrite app_nil_r, <- !app_assoc; reflexivity).
    change limitOffset with (Plus spaceClass :: Lit "L"%char :: tl (tl limitOffset)).
    apply FindStringSubmatch_leftmost; auto.
    + exact limitOffset_nodeOK.
    + exact In_EndText_limitOffset.
  - subst t. rewrite app_nil_r, <- !app_assoc. reflexivity.
  - symmetry. apply TrimSpace_trailing. now apply spaces_isSpace.
Qed.

Lemma FindStringSubmatch_limitOnly (s base n : list ascii) :
  endsWithLimit s base n ->
  exists m0 base1,
    FindStringSubmatch limitOnly s = Some [m0; n] /\
    s = base1 ++ m0 /\ TrimSpace base1 = TrimSpace base.
Proof.
  intros (w0 & kwL & w1 & -> & Hw0 & HkL & Hw1 & Hn).
  destruct (trailing_run spaceClass base) as (base1 & W & -> & HW & Hbase1).
  set (t := (W ++ w0) ++ kwL ++ w1 ++ n ++ []).
  assert (Ht : accepts true limitOnly t t [n]).
  { rewrite limitOnly_clause. subst t.
    apply clause_intro; auto using tailPattern_intro; try discriminate.
    destruct Hw0 as [Hne Hw0]. split.
    - intros H. apply app_eq_nil in H as [_ ->]. contradiction.
    - now rewrite forallb_app, HW, Hw0. }
  exists t, base1. split; [|split].
  - replace ((base1 ++ W) ++ w0 ++ kwL ++ w1 ++ n) with (base1 ++ t)
      by (subst t; rewrite app_nil_r, <- !app_assoc; reflexivity).
    change limitOnly with (Plus spaceClass :: Lit "L"%char :: tl (tl limitOnly)).
    apply FindStringSubmatch_leftmost; auto.
    + exact limitOnly_nodeOK.
    + exact In_EndText_limitOnly.
  - subst t. rewrite app_nil_r, <- !app_assoc. reflexivity.
  - symmetry. apply TrimSpace_trailing. now apply spaces_isSpace.
Qed.

Lemma endsOutside_inside (cl : ascii -> bool) (x w : list ascii) :
  w <> [] -> forallb cl w = true -> endsOutside cl (x ++ w) = false.
Proof.
  intros Hne Hw. destruct w as [|a w] using rev_ind; [contradiction|].
  rewrite app_assoc, endsOutside_snoc.
  rewrite forallb_app in Hw. apply andb_prop in Hw as [_ Ha]. cbn in Ha.
  apply andb_prop in Ha as [Ha _]. now rewrite Ha.
Qed.

Lemma FindStringSubmatch_sound (re : list node) (s : list ascii) (ms : list (list ascii)) :
  FindStringSubmatch re s = Some ms ->
  exists pre t m0 caps,
    s = pre ++ t /\ ms = m0 :: caps /\ matchHere re t = Some (m0, caps).
Proof.
  revert ms. induction s as [|x s IH]; intros ms; rewrite FindStringSubmatch_unfold.
  - destruct (matchHere re []) as [[m0 caps]|] eqn:E; [|discriminate].
    intros [= <-]. now exists [], [], m0, caps.
  - destruct (matchHere re (x :: s)) as [[m0 caps]|] eqn:E.
    + intros [= <-]. now exists [], (x :: s), m0, caps.
    + intros H. destruct (IH _ H) as (pre & t & m0 & caps & -> & -> & Hm).
      now exists (x :: pre), t, m0, caps.
Qed.

(** A match of either pattern on a trimmed text has the shape its name
    says. *)
Lemma limitOnly_shape (s : list ascii) (ms : list (list ascii)) :
  endsOutside isSpace s = true ->
  FindStringSubmatch limitOnly s = Some ms ->
  exists base n, endsWithLimit s base n.
Proof.
  intros Hend H.
  apply FindStringSubmatch_sound in H as (pre & t & m0 & caps & -> & -> & H).
  apply matchHere_sound in H. rewrite limitOnly_clause in H.
  apply clause_inv in H as (a0 & k & a1 & n & s' & m' & caps' & -> & _ & H0 & Hk & H1 & Hn & _ & H).
  apply tailPattern_inv in H as (-> & Ha4 & _).
  destruct m' as [|z a4].
  - exists pre, n, a0, k, a1. rewrite app_nil_r. auto.
  - exfalso. apply spaces_isSpace in Ha4.
    rewrite !app_assoc, (endsOutside_inside isSpace) in Hend;
      [discriminate | discriminate | assumption].
Qed.

Lemma limitOffset_shape (s : list ascii) (ms : list (list ascii)) :
  endsOutside isSpace s = true ->
  FindStringSubmatch limitOffset s = Some ms ->
  exists base n m, endsWithLimitOffset s base n m.
Proof.
  intros Hend H.
  apply FindStringSubmatch_sound in H as (pre & t & m0 & caps & -> & -> & H).
  apply matchHere_sound in H. rewrite limitOffset_clause in H.
  apply clause_inv in H as (a0 & k & a1 & n & s' & m' & caps' & -> & _ & H0 & Hk & H1 & Hn & _ & H).
  apply clause_inv in H as (b0 & k2 & b1 & n2 & s'' & m'' & caps'' & -> & _ & H2 & Hk2 & H3 & Hn2 & _ & H).
  apply tailPattern_inv in H as (-> & Ha4 & _).
  destruct m'' as [|z a4].
  - exists pre, n, n2, a0, k, a1, b0, k2, b1. rewrite app_nil_r. auto 10.
  - exfalso. apply spaces_isSpace in Ha4.
    rewrite !app_assoc, (endsOutside_inside isSpace) in Hend;
      [discriminate | discriminate | assumption].
Qed.

Lemma keyword_LIMIT (kw : list ascii) :
  keyword kw "LIMIT" ->
  exists l1 l2 l3 l4 l5, kw = [l1; l2; l3] ++ [l4; l5] /\ lowerByte l4 = "i"%char.
Proof.
  intros H. destruct kw as [|l1 [|l2 [|l3 [|l4 [|l5 [|]]]]]]; try discriminate H.
  injection H as _ _ _ H4 _. now exists l1, l2, l3, l4, l5.
Qed.

Lemma keyword_OFFSET (kw : list ascii) :
  keyword kw "OFFSET" ->
  exists o1 o2 o3 o4 o5 o6, kw = [o1; o2; o3; o4] ++ [o5; o6] /\ lowerByte o5 = "e"%char.
Proof.
  intros H. destruct kw as [|o1 [|o2 [|o3 [|o4 [|o5 [|o6 [|]]]]]]]; try discriminate H.
  injection H as _ _ _ _ H5 _. now exists o1, o2, o3, o4, o5, o6.
Qed.

Lemma app_last2 (x y : list ascii) (a a' c c' : ascii) :
  x ++ [a; a'] = y ++ [c; c'] -> a = c.
Proof.
  change (x ++ [a; a']) with (x ++ [a] ++ [a']).
  change (y ++ [c; c']) with (y ++ [c] ++ [c']).
  rewrite !app_assoc. intros H. apply app_inj_tail in H as [H _].
  now apply app_inj_tail in H as [_ H].
Qed.

(** A text that ends with [LIMIT n] is no match of the pattern with
    OFFSET: before the last number both would have their keyword. *)
Lemma limitOffset_not_limit (s base n : list ascii) :
  endsWithLimit s base n -> FindStringSubmatch limitOffset s = None.
Proof.
  intros (w0 & kwL & w1 & -> & [Hne0 Hw0] & HkL & [Hne1 Hw1] & [Hnen Hn]).
  apply FindStringSubmatch_none. intros pre t Heq.
  destruct (matchHere limitOffset t) as [[m0 caps]|] eqn:E; [exfalso|reflexivity].
  apply matchHere_sound in E. rewrite limitOffset_clause in E.
  apply clause_inv in E as (a0 & k & a1 & n1 & s' & m' & caps' & -> & _ & _ & _ & _ & _ & _ & E).
  apply clause_inv in E
    as (b0 & k2 & b1 & n2 & s'' & m'' & caps'' & -> & _ & _ & Hk2 & [Hneb Hb1] & [Hnen2 Hn2] & _ & E).
  apply tailPattern_inv in E as (-> & Ha4 & _).
  pose proof (keyword_word _ _ HkL eq_refl) as HwL.
  pose proof (keyword_word _ _ Hk2 eq_refl) as Hw2.
  assert (HneL : kwL <> []) by (intros ->; discriminate HkL).
  assert (Hne2 : k2 <> []) by (intros ->; discriminate Hk2).
  rewrite !app_assoc in Heq.
  (* no white space after the last number *)
  destruct m'' as [|z a4].
  2:{ assert (Ho : endsOutside spaceClass ((((base ++ w0) ++ kwL) ++ w1) ++ n) = true)
        by (apply (endsOutside_run _ digitClass); auto using digitClass_not_space).
      rewrite Heq, (endsOutside_inside spaceClass) in Ho;
        [discriminate | discriminate | assumption]. }
  rewrite app_nil_r in Heq.
  (* the same number, the same white space before it *)
  apply (trailing_run_unique digitClass) in Heq as [Heq _]; auto;
    try (apply (endsOutside_run _ spaceClass); auto using spaceClass_not_digit).
  apply (trailing_run_unique spaceClass) in Heq as [Heq _]; auto;
    try (apply (endsOutside_run _ wordByte); auto using wordByte_not_space).
  (* LIMIT against OFFSET *)
  destruct (keyword_LIMIT _ HkL) as (l1 & l2 & l3 & l4 & l5 & -> & Hl4).
  destruct (keyword_OFFSET _ Hk2) as (o1 & o2 & o3 & o4 & o5 & o6 & -> & Ho5).
  rewrite !app_assoc in Heq. apply app_last2 in Heq. subst l4.
  rewrite Hl4 in Ho5. discriminate.
Qed.

(** ** transformLimitQuery *)

Lemma sliceTo_prefix (x y : list ascii) :
  sliceTo (x ++ y) (Z.of_nat (length (x ++ y)) - Z.of_nat (length y)) = x.
Proof.
  unfold sliceTo. rewrite length_app.
  replace (Z.to_nat _) with (length x) by lia. apply firstn_prefix.
Qed.

(** The slices of [transformLimitQuery] are in range. *)
Lemma transformLimitQuery_in_range (re : list node) (trimmed : list ascii)
    (m : list (list ascii)) :
  FindStringSubmatch re trimmed = Some m ->
  (0 <= Z.of_nat (length trimmed) - Z.of_nat (length (sub m 0))
     <= Z.of_nat (length trimmed))%Z.
Proof. intros H. apply FindStringSubmatch_length in H. lia. Qed.

(** So is the slice at [insertPos] when the lower-cased base has the
    length of the base, as on ASCII text. *)
Lemma insertPos_in_range (base : list ascii) :
  let idx := Index (ToLower base) "select" in
  idx <> (-1)%Z -> (0 <= idx + 6 <= Z.of_nat (length base))%Z.
Proof.
  intros idx Hidx.
  destruct (Index_range (ToLower base) "select") as [H|H]; [contradiction|].
  fold idx in H. rewrite ToLower_length in H.
  assert (Hk : idx = Z.of_nat (Z.to_nat idx)) by lia.
  apply Index_found in Hk as (Hp & _ & _). apply HasPrefix_spec in Hp as [rest Hrest].
  apply (f_equal (@length ascii)) in Hrest.
  rewrite length_skipn, length_app, ToLower_length in Hrest.
  change (length (list_ascii_of_string "select")) with 6 in Hrest. lia.
Qed.

(** ** C4 *)

(** On ASCII text: when the trimmed statement is [base], white space,
    LIMIT in any case, white space, the digits [n], white space, OFFSET
    in any case, white space and the digits [m], the result is the
    trimmed [base], then [ ORDER BY (SELECT NULL)] if the lower-cased
    base does not contain the bytes [ order by ], then
    [ OFFSET m ROWS FETCH NEXT n ROWS ONLY]. *)
Lemma transformLimitQuery_limit_offset (query base n m : list ascii) :
  isASCII query = true ->
  endsWithLimitOffset (TrimSpace query) base n m ->
  transformLimitQuery query =
  (if Contains (ToLower (TrimSpace base)) " order by "
   then TrimSpace base
   else TrimSpace base ++ " ORDER BY (SELECT NULL)")
  ++ " OFFSET " ++ m ++ " ROWS FETCH NEXT " ++ n ++ " ROWS ONLY".
Proof.
  intros _ H.
  destruct (FindStringSubmatch_limitOffset _ _ _ _ H) as (m0 & base1 & Hfind & Hs & Hbase).
  unfold transformLimitQuery. cbv zeta. rewrite Hfind. cbn [sub nth].
  rewrite Hs, sliceTo_prefix, Hbase.
  destruct (Contains (ToLower (TrimSpace base)) " order by "); reflexivity.
Qed.

Example transformLimitQuery_limit_offset_example :
  transformLimitQuery "SELECT * FROM t LIMIT 10 OFFSET 20"
    = "SELECT * FROM t ORDER BY (SELECT NULL) OFFSET 20 ROWS FETCH NEXT 10 ROWS ONLY".
Proof.
  apply (transformLimitQuery_limit_offset
           "SELECT * FROM t LIMIT 10 OFFSET 20" "SELECT * FROM t" "10" "20" eq_refl).
  exists " ", "LIMIT", " ", " ", "OFFSET", " ".
  unfold spaces, digits, keyword.
  repeat split; try reflexivity; discriminate.
Qed.

(** C4.  A statement without an ORDER BY clause whose quoted value holds
    the bytes [ order by ]: the test of line 160 is a search for these
    bytes in the lower-cased base, it finds them inside the literal
    (every place where they stand is inside one), and the OFFSET/FETCH
    clause is appended with no ORDER BY before it. *)
Theorem transformLimitQuery_order_by_in_literal :
  transformLimitQuery "SELECT * FROM t WHERE a = ' order by ' LIMIT 1 OFFSET 2"
    = "SELECT * FROM t WHERE a = ' order by ' OFFSET 2 ROWS FETCH NEXT 1 ROWS ONLY" /\
  forallb (fun k =>
             implb (HasPrefix (skipn k (ToLower "SELECT * FROM t WHERE a = ' order by '"))
                              " order by ")
                   (insideLiteral "SELECT * FROM t WHERE a = ' order by '" k))
          (seq 0 (length (list_ascii_of_string "SELECT * FROM t WHERE a = ' order by '")))
    = true /\
  transformLimitQuery "SELECT * FROM t WHERE a = 'x' LIMIT 1 OFFSET 2"
    = "SELECT * FROM t WHERE a = 'x' ORDER BY (SELECT NULL) OFFSET 2 ROWS FETCH NEXT 1 ROWS ONLY".
Proof.
  split; [vm_compute; reflexivity|]. split; vm_compute; reflexivity.
Qed.

(** ** C5 *)

(** On ASCII text: when the trimmed statement is [base], white space,
    LIMIT in any case, white space and the digits [n]: if the
    lower-cased trimmed base contains the bytes [ order by ], the
    result is that base followed by
    [ OFFSET 0 ROWS FETCH NEXT n ROWS ONLY]; if not, [ TOP n] is put
    right after the first place where the letters [select] stand, in
    any case, in the base and nothing else of it is changed; and with
    no [select] in it the statement is returned as it came.  So is a
    statement whose trimmed text ends neither with [LIMIT n] nor with
    [LIMIT n OFFSET m]. *)
Lemma transformLimitQuery_limit (query : list ascii) :
  isASCII query = true ->
  (forall base n : list ascii,
      endsWithLimit (TrimSpace query) base n ->
      let base' := TrimSpace base in
      (Contains (ToLower base') " order by " = true ->
         transformLimitQuery query
           = base' ++ " OFFSET 0 ROWS FETCH NEXT " ++ n ++ " ROWS ONLY") /\
      (Contains (ToLower base') " order by " = false ->
         (forall pre kw post : list ascii,
             base' = pre ++ kw ++ post -> keyword kw "SELECT" ->
             (forall k, k < length pre ->
                        HasPrefix (skipn k (ToLower base')) "select" = false) ->
             transformLimitQuery query = pre ++ kw ++ " TOP " ++ n ++ post) /\
         (Contains (ToLower base') "select" = false ->
            transformLimitQuery query = query))) /\
  ((forall base n, ~ endsWithLimit (TrimSpace query) base n) ->
   (forall base n m, ~ endsWithLimitOffset (TrimSpace query) base n m) ->
   transformLimitQuery query = query).
Proof.
  intros _. split.
  - intros base n H base'.
    destruct (FindStringSubmatch_limitOnly _ _ _ H) as (m0 & base1 & Hfind & Hs & Hbase).
    pose proof (limitOffset_not_limit _ _ _ H) as Hnone.
    unfold transformLimitQuery. cbv zeta. rewrite Hnone, Hfind. cbn [sub nth].
    rewrite Hs, sliceTo_prefix, Hbase. fold base'. clearbody base'.
    split; [intros ->; reflexivity|]. intros ->. split.
    + intros pre kw post Hb Hkw Hfirst.
      assert (Hidx : Index (ToLower base') "select" = Z.of_nat (length pre)).
      { apply Index_found. split; [|split; [|exact Hfirst]].
        - rewrite Hb, !ToLower_app, <- (ToLower_length pre).
          rewrite skipn_app, Nat.sub_diag, skipn_all. cbn [skipn app].
          unfold keyword in Hkw. rewrite Hkw. apply HasPrefix_app.
        - rewrite ToLower_length, Hb, length_app. lia. }
      rewrite Hidx.
      replace (Z.of_nat (length pre) =? -1)%Z with false by (symmetry; apply Z.eqb_neq; lia).
      cbn [negb]. unfold sliceTo, sliceFrom.
      replace (Z.to_nat _) with (length (pre ++ kw))
        by (rewrite length_app, (keyword_length _ _ Hkw); cbn; lia).
      rewrite Hb, (app_assoc pre kw post), firstn_prefix.
      rewrite skipn_app, Nat.sub_diag, skipn_all. cbn [skipn app].
      now rewrite <- !app_assoc.
    + intros Hsel. unfold Contains in Hsel. apply Z.leb_gt in Hsel.
      destruct (Index_range (ToLower base') "select") as [Hr|Hr]; [|lia].
      rewrite Hr. reflexivity.
  - intros Hno1 Hno2. unfold transformLimitQuery. cbv zeta.
    destruct (FindStringSubmatch limitOffset (TrimSpace query)) as [ms|] eqn:E2.
    { exfalso. apply limitOffset_shape in E2 as (base & n & m & H);
        [exact (Hno2 _ _ _ H) | apply TrimSpace_ends]. }
    destruct (FindStringSubmatch limitOnly (TrimSpace query)) as [ms|] eqn:E1.
    { exfalso. apply limitOnly_shape in E1 as (base & n & H);
        [exact (Hno1 _ _ H) | apply TrimSpace_ends]. }
    reflexivity.
Qed.

Example transformLimitQuery_limit_example :
  transformLimitQuery "SELECT * FROM t ORDER BY id LIMIT 10"
    = "SELECT * FROM t ORDER BY id OFFSET 0 ROWS FETCH NEXT 10 ROWS ONLY" /\
  transformLimitQuery "SELECT * FROM t LIMIT 10" = "SELECT TOP 10 * FROM t".
Proof.
  split.
  - apply (proj1 (transformLimitQuery_limit "SELECT * FROM t ORDER BY id LIMIT 10" eq_refl)
             "SELECT * FROM t ORDER BY id" "10").
    + exists " ", "LIMIT", " ". unfold spaces, digits, keyword.
      repeat split; try reflexivity; discriminate.
    + reflexivity.
  - apply (proj1 (transformLimitQuery_limit "SELECT * FROM t LIMIT 10" eq_refl)
             "SELECT * FROM t" "10") with (pre := []) (kw := "SELECT") (post := " * FROM t").
    + exists " ", "LIMIT", " ". unfold spaces, digits, keyword.
      repeat split; try reflexivity; discriminate.
    + reflexivity.
    + reflexivity.
    + reflexivity.
    + intros k Hk. cbn in Hk. lia.
Qed.

(** C5.  A statement without the SELECT keyword: line 177 looks for the
    letters [select] in the lower-cased base, finds them at the head of
    the identifier [selections] and puts [ TOP 5] in the middle of it;
    the statement is neither rewritten after a SELECT keyword nor
    returned as it came. *)
Theorem transformLimitQuery_select_in_identifier :
  transformLimitQuery "DELETE FROM selections LIMIT 5" = "DELETE FROM select TOP 5ions" /\
  Index (ToLower "DELETE FROM selections") "select" = 12%Z.
Proof. split; vm_compute; reflexivity. Qed.

(** ** C3: where the statement has no white space in front *)

Lemma HasPrefix_short (a y p : list ascii) :
  length p <= length a -> HasPrefix (a ++ y) p = HasPrefix a p.
Proof.
  revert a. induction p as [|c p IH]; intros a Hlen; [reflexivity|].
  destruct a as [|x a]; [cbn in Hlen; lia|].
  cbn in *. rewrite IH by lia. reflexivity.
Qed.

(** A test for [p] that starts so early in [x ++ y] that it ends inside
    [x] does not depend on [y]. *)
Lemma HasPrefix_inside (x y y' p : list ascii) (k : nat) :
  k + length p <= length x ->
  HasPrefix (skipn k (x ++ y)) p = HasPrefix (skipn k (x ++ y')) p.
Proof.
  intros Hk. rewrite !skipn_app.
  replace (k - length x) with 0 by lia. cbn [skipn].
  rewrite !HasPrefix_short; auto; rewrite length_skipn; lia.
Qed.

Lemma TrimLeftSpace_id (s : list ascii) :
  startsOutside isSpace s = true -> TrimLeftSpace s = s.
Proof.
  destruct s as [|c s]; [reflexivity|]. cbn. intros H.
  apply negb_true_iff in H. now rewrite H.
Qed.

(** Without white space in front, the clause goes right before the
    first [ VALUES], in any case, and nothing else changes. *)
Lemma maybeAddOutputClause_injects (q pre kw post : list ascii) :
  startsOutside isSpace q = true ->
  HasPrefix (ToLower (TrimSpace q)) "insert into" = true ->
  Contains (ToLower (TrimSpace q)) " output " = false ->
  q = pre ++ kw ++ post -> keyword kw " VALUES" ->
  (forall k, k < length pre -> HasPrefix (skipn k (ToLower q)) " values" = false) ->
  maybeAddOutputClause q = pre ++ " OUTPUT INSERTED.[id]" ++ kw ++ post.
Proof.
  intros Hstart Hins Hout Hq Hkw Hfirst.
  assert (Htrim : TrimSpace q = (pre ++ kw) ++ TrimRightSpace post).
  { unfold TrimSpace. rewrite TrimLeftSpace_id by assumption. subst q.
    pose proof (keyword_word _ _ Hkw) as Hword.
    destruct kw as [|k1 [|k2 [|k3 [|k4 [|k5 [|k6 [|k7 [|]]]]]]]]; try discriminate Hkw.
    injection Hkw as _ _ _ _ _ _ H7.
    assert (Hs : isSpace k7 = false).
    { clear - H7. unfold lowerByte in H7.
      destruct k7 as [[] [] [] [] [] [] [] []]; vm_compute in H7 |- *;
        try reflexivity; discriminate H7. }
    change (pre ++ [k1; k2; k3; k4; k5; k6; k7] ++ post)
      with (pre ++ [k1; k2; k3; k4; k5; k6] ++ k7 :: post).
    rewrite app_assoc, TrimRightSpace_keeps by assumption.
    now rewrite <- !app_assoc. }
  assert (Hlen : length kw = 7) by (apply (keyword_length _ _ Hkw)).
  assert (Hidx : Index (ToLower (TrimSpace q)) " values" = Z.of_nat (length pre)).
  { apply Index_found. split; [|split].
    - rewrite Htrim, <- app_assoc, !ToLower_app, <- (ToLower_length pre).
      rewrite skipn_app, Nat.sub_diag, skipn_all. cbn [skipn app].
      unfold keyword in Hkw. rewrite Hkw. apply HasPrefix_app.
    - rewrite ToLower_length, Htrim, !length_app. lia.
    - intros k Hk. etransitivity; [|exact (Hfirst k Hk)].
      rewrite Htrim, Hq, (app_assoc pre kw post), !ToLower_app.
      apply HasPrefix_inside.
      rewrite length_app, !ToLower_length, Hlen.
      change (length (list_ascii_of_string " values")) with 7. lia. }
  unfold maybeAddOutputClause. rewrite Hins, Hout, Hidx. cbn [negb].
  replace (Z.of_nat (length pre) =? -1)%Z with false by (symmetry; apply Z.eqb_neq; lia).
  unfold sliceTo, sliceFrom. rewrite Nat2Z.id, Hq, firstn_prefix.
  rewrite skipn_app, Nat.sub_diag, skipn_all. reflexivity.
Qed.

(** With no [ VALUES] in the trimmed text the statement is returned as
    it came. *)
Lemma maybeAddOutputClause_no_values (q : list ascii) :
  Index (ToLower (TrimSpace q)) " values" = (-1)%Z -> maybeAddOutputClause q = q.
Proof.
  intros H. unfold maybeAddOutputClause. rewrite H.
  destruct (negb _); [reflexivity|]. destruct (Contains _ _); reflexivity.
Qed.

(** * Further properties *)

(** ** translate: statements with nothing to rewrite *)

Lemma settledFrom_app (x : list ascii) :
  forall (ins : bool) (y : list ascii),
    settledFrom ins (x ++ y) = settledFrom ins x && settledFrom (flagAfter ins x) y.
Proof.
  induction x as [|c x IH]; intros ins y; [reflexivity|].
  cbn [app settledFrom flagAfter].
  destruct (c =? "'")%char; [apply IH|].
  destruct ((c =? "`")%char || (c =? "?")%char); [|apply IH].
  rewrite IH. now rewrite andb_assoc.
Qed.

Lemma flagAfter_app (x : list ascii) :
  forall (ins : bool) (y : list ascii),
    flagAfter ins (x ++ y) = flagAfter (flagAfter ins x) y.
Proof. induction x as [|c x IH]; intros ins y; [reflexivity|]. apply IH. Qed.

Lemma plain_settled (x : list ascii) (ins : bool) :
  forallb plainByte x = true -> settledFrom ins x = true /\ flagAfter ins x = ins.
Proof.
  induction x as [|c x IH]; intros H; [auto|].
  cbn in H. apply andb_prop in H as [Hc Hx]. unfold plainByte in Hc.
  apply negb_true_iff in Hc. apply orb_false_elim in Hc as [Hc H3].
  apply orb_false_elim in Hc as [H1 H2].
  cbn [settledFrom flagAfter]. rewrite H1, H2, H3. cbn [orb]. auto.
Qed.

(** Plain text put in front of, or into, a text does not change whether
    it is settled. *)
Lemma settledFrom_plain_app (x y : list ascii) (ins : bool) :
  forallb plainByte x = true -> settledFrom ins (x ++ y) = settledFrom ins y.
Proof.
  intros H. destruct (plain_settled x ins H) as [H1 H2].
  now rewrite settledFrom_app, H1, H2.
Qed.

Lemma settledFrom_insert (x p y : list ascii) (ins : bool) :
  forallb plainByte p = true ->
  settledFrom ins (x ++ p ++ y) = settledFrom ins (x ++ y).
Proof.
  intros H.
  rewrite (settledFrom_app x ins (p ++ y)), (settledFrom_app x ins y).
  now rewrite settledFrom_plain_app.
Qed.

Lemma settledFrom_prefix (x y : list ascii) (ins : bool) :
  settledFrom ins (x ++ y) = true -> settledFrom ins x = true.
Proof. rewrite settledFrom_app. intros H. now apply andb_prop in H. Qed.

Lemma plainByte_uint (u : Decimal.uint) :
  forallb plainByte (NilEmpty.string_of_uint u) = true.
Proof. induction u; cbn; auto. Qed.

Lemma plainByte_Itoa (n : Z) : forallb plainByte (Itoa n) = true.
Proof.
  unfold Itoa, NilZero.string_of_int, NilZero.string_of_uint.
  destruct (Z.to_int n) as [u|u]; destruct u; cbn; auto using plainByte_uint.
Qed.

(** On a settled text the loop copies every byte. *)
Lemma scan_settled (s : list ascii) :
  forall (ob ins : bool) (p : Z), settledFrom ins s = true -> scan s ob ins p = s.
Proof.
  induction s as [|c s IH]; intros ob ins p H; [reflexivity|].
  rewrite scan_cons. cbn [settledFrom] in H.
  destruct (c =? "'")%char; [now rewrite IH|].
  destruct (c =? "`")%char; cbn [orb] in H.
  { apply andb_prop in H as [-> H]. now rewrite IH. }
  destruct (c =? "?")%char.
  { apply andb_prop in H as [-> H]. now rewrite IH. }
  now rewrite IH.
Qed.

(** What the loop writes is settled. *)
Lemma settledFrom_scan (s : list ascii) :
  forall (ob ins : bool) (p : Z), settledFrom ins (scan s ob ins p) = true.
Proof.
  induction s as [|c s IH]; intros ob ins p; [reflexivity|].
  rewrite scan_cons.
  destruct (c =? "'")%char eqn:Hq; [cbn [settledFrom]; now rewrite Hq|].
  destruct (c =? "`")%char eqn:Hb.
  { destruct ins.
    - cbn [settledFrom]. rewrite Hq, Hb. cbn. apply IH.
    - destruct ob; cbn; apply IH. }
  destruct (c =? "?")%char eqn:Hp.
  { destruct ins.
    - cbn [settledFrom]. rewrite Hq, Hb, Hp. cbn. apply IH.
    - change (settledFrom false (("@p" ++ Itoa p) ++ scan s ob false (wrapInt (p + 1))) = true).
      rewrite settledFrom_plain_app; [apply IH|].
      rewrite forallb_app, plainByte_Itoa. reflexivity. }
  cbn [settledFrom]. rewrite Hq, Hb, Hp. cbn. apply IH.
Qed.

(** [settledFrom] in terms of positions: no back-tick and no [?] outside
    a literal from the end of [pre] on. *)
Lemma settledFrom_positions (suf : list ascii) :
  forall pre : list ascii,
    settledFrom (insideLiteral (pre ++ suf) (length pre)) suf = true <->
    (forall j, length pre <= j ->
               outsideAt "`"%char (pre ++ suf) j = false /\
               outsideAt "?"%char (pre ++ suf) j = false).
Proof.
  induction suf as [|c s IH]; intros pre.
  - split; [|reflexivity]. intros _ j Hj. unfold outsideAt.
    replace (nth_error (pre ++ []) j) with (@None ascii); [auto|].
    symmetry. apply nth_error_None. rewrite app_nil_r. exact Hj.
  - specialize (IH (pre ++ [c])). rewrite <- snoc_app in IH.
    replace (length (pre ++ [c])) with (S (length pre)) in IH
      by (rewrite length_app; cbn; lia).
    rewrite insideLiteral_next in IH.
    cbn [settledFrom].
    assert (Hhere : forall x, outsideAt x (pre ++ c :: s) (length pre)
                  = (c =? x)%char && negb (insideLiteral (pre ++ c :: s) (length pre)))
      by (intros x; apply outsideAt_middle).
    split.
    + intros H j Hj.
      destruct (Nat.eq_dec j (length pre)) as [->|Hne].
      * rewrite !Hhere.
        destruct (c =? "'")%char eqn:Hq.
        { apply Ascii.eqb_eq in Hq. subst c. auto. }
        destruct (c =? "`")%char eqn:Hb; destruct (c =? "?")%char eqn:Hp;
          cbn [orb] in H; cbn [andb]; auto;
          apply andb_prop in H as [-> _]; auto.
      * apply IH; [|lia].
        destruct (c =? "'")%char; [exact H|].
        destruct ((c =? "`")%char || (c =? "?")%char); [|exact H].
        now apply andb_prop in H.
    + intros H.
      assert (Hrest : forall j, S (length pre) <= j ->
                outsideAt "`"%char (pre ++ c :: s) j = false /\
                outsideAt "?"%char (pre ++ c :: s) j = false)
        by (intros j Hj; apply H; lia).
      apply IH in Hrest.
      destruct (H (length pre) (Nat.le_refl _)) as [H1 H2].
      rewrite !Hhere in H1, H2. clear Hhere H IH.
      destruct (c =? "'")%char; [exact Hrest|].
      destruct (c =? "`")%char, (c =? "?")%char,
        (insideLiteral (pre ++ c :: s) (length pre));
        cbn in *; try discriminate; auto.
Qed.

Lemma outsideBefore_zero (x : ascii) (query : list ascii) (n : nat) :
  outsideBefore x query n = 0 <-> forall j, j < n -> outsideAt x query j = false.
Proof.
  induction n as [|n IH].
  - split; [intros _ j Hj; lia | reflexivity].
  - rewrite outsideBefore_next. destruct (outsideAt x query n) eqn:Hn.
    + split; [discriminate|]. intros H. specialize (H n (Nat.lt_succ_diag_r n)). congruence.
    + rewrite IH. split.
      * intros H j Hj. destruct (Nat.eq_dec j n) as [->|Hne]; [exact Hn|apply H; lia].
      * intros H j Hj. apply H. lia.
Qed.

Lemma outsideAt_beyond (x : ascii) (query : list ascii) (j : nat) :
  length query <= j -> outsideAt x query j = false.
Proof.
  intros Hj. unfold outsideAt.
  now replace (nth_error query j) with (@None ascii)
    by (symmetry; now apply nth_error_None).
Qed.

(** A text is settled exactly when it has no back-tick and no [?]
    outside single-quoted literals. *)
Lemma settled_outside (s : list ascii) :
  settledFrom false s = true <->
  outsideBefore "`"%char s (length s) = 0 /\ outsideBefore "?"%char s (length s) = 0.
Proof.
  rewrite !outsideBefore_zero.
  pose proof (settledFrom_positions s []) as H. cbn [app length] in H.
  change (insideLiteral s 0) with false in H.
  rewrite H. split.
  - intros Hall. split; intros j _; apply Hall; lia.
  - intros [H1 H2] j _. destruct (Nat.lt_ge_cases j (length s)).
    + auto.
    + split; now apply outsideAt_beyond.
Qed.

(** X1.  A statement that has no back-tick and no [?] outside
    single-quoted literals is returned by [translate] as it is, whatever
    its literals hold. *)
Theorem translate_identity (query : list ascii) :
  outsideBefore "`"%char query (length query) = 0 ->
  outsideBefore "?"%char query (length query) = 0 ->
  translate query = query.
Proof.
  intros H1 H2. rewrite translate_scan. apply scan_settled.
  apply settled_outside. auto.
Qed.

Lemma translate_identity_witness :
  translate "SELECT 'a`?b', [c] FROM t WHERE d = 'it''s ?'"
    = "SELECT 'a`?b', [c] FROM t WHERE d = 'it''s ?'".
Proof.
  apply (translate_identity "SELECT 'a`?b', [c] FROM t WHERE d = 'it''s ?'");
    vm_compute; reflexivity.
Defined.

(** X2.  What [translate] returns has no back-tick and no [?] left
    outside single-quoted literals, so translating it again changes
    nothing. *)
Theorem translate_idempotent (query : list ascii) :
  outsideBefore "`"%char (translate query) (length (translate query)) = 0 /\
  outsideBefore "?"%char (translate query) (length (translate query)) = 0 /\
  translate (translate query) = translate query.
Proof.
  assert (H : settledFrom false (translate query) = true)
    by (rewrite translate_scan; apply settledFrom_scan).
  destruct (proj1 (settled_outside _) H) as [H1 H2].
  repeat split; auto.
  rewrite (translate_scan (translate query)). now apply scan_settled.
Qed.

Lemma count_quote_plain (x : list ascii) :
  forallb plainByte x = true -> count_occ ascii_dec x "'"%char = 0.
Proof.
  induction x as [|c x IH]; [reflexivity|]. cbn [forallb count_occ].
  intros H. apply andb_prop in H as [Hc Hx].
  destruct (ascii_dec c "'"%char) as [->|_]; [discriminate Hc | auto].
Qed.

Lemma scan_quotes_length (s : list ascii) :
  forall (ob ins : bool) (p : Z),
    count_occ ascii_dec (scan s ob ins p) "'"%char = count_occ ascii_dec s "'"%char /\
    length s <= length (scan s ob ins p).
Proof.
  induction s as [|c s IH]; intros ob ins p; [auto|].
  rewrite scan_cons.
  destruct (c =? "'")%char eqn:Hq.
  { destruct (IH ob (negb ins) p) as [H1 H2]. cbn [count_occ length].
    rewrite H1. split; [reflexivity | simpl; lia]. }
  assert (Hne : c <> "'"%char) by (now apply Ascii.eqb_neq).
  destruct (c =? "`")%char eqn:Hb.
  { destruct ins.
    - destruct (IH ob true p) as [H1 H2]. cbn [count_occ length].
      rewrite H1. split; [reflexivity | simpl; lia].
    - destruct (IH (negb ob) false p) as [H1 H2]. cbn [count_occ length].
      rewrite H1. destruct (ascii_dec c "'"%char); [contradiction|].
      destruct (ascii_dec (if ob then "["%char else "]"%char) "'"%char) as [E|_];
        [destruct ob; discriminate E|].
      split; [reflexivity | simpl; lia]. }
  destruct (c =? "?")%char eqn:Hp.
  { destruct ins.
    - destruct (IH ob true p) as [H1 H2]. cbn [count_occ length].
      rewrite H1. split; [reflexivity | simpl; lia].
    - destruct (IH ob false (wrapInt (p + 1))) as [H1 H2].
      rewrite !count_occ_app, !length_app, H1, (count_quote_plain (Itoa p))
        by apply plainByte_Itoa.
      cbn [count_occ length list_ascii_of_string].
      destruct (ascii_dec c "'"%char); [contradiction|]. cbn. split; [reflexivity | simpl; lia]. }
  destruct (IH ob ins p) as [H1 H2]. cbn [count_occ length].
  rewrite H1. split; [reflexivity | simpl; lia].
Qed.

(** X3.  [translate] never adds or removes a single quote and never
    returns less text than it was given. *)
Theorem translate_keeps_quotes (query : list ascii) :
  count_occ ascii_dec (translate query) "'"%char = count_occ ascii_dec query "'"%char /\
  length query <= length (translate query).
Proof. rewrite translate_scan. apply scan_quotes_length. Qed.

(** ** The text the wrappers send *)

Lemma isSpace_plain (x : ascii) : isSpace x = true -> plainByte x = true.
Proof. all_bytes x. Qed.

Lemma digitClass_plain (x : ascii) : digitClass x = true -> plainByte x = true.
Proof. all_bytes x. Qed.

Lemma forallb_impl (f g : ascii -> bool) (s : list ascii) :
  (forall x, f x = true -> g x = true) -> forallb f s = true -> forallb g s = true.
Proof. rewrite !forallb_forall. auto. Qed.

Lemma TrimLeftSpace_split (s : list ascii) :
  exists w, s = w ++ TrimLeftSpace s /\ forallb isSpace w = true.
Proof.
  induction s as [|c s IH]; [now exists []|]. cbn.
  destruct (isSpace c) eqn:Hc; [|now exists []].
  destruct IH as (w & Hs & Hw). exists (c :: w). cbn. rewrite Hc, Hw.
  split; [now f_equal | reflexivity].
Qed.

Lemma TrimRightSpace_split (s : list ascii) :
  exists w, s = TrimRightSpace s ++ w /\ forallb isSpace w = true.
Proof.
  unfold TrimRightSpace.
  destruct (TrimLeftSpace_split (rev s)) as (w & Hs & Hw).
  exists (rev w). split.
  - rewrite <- rev_app_distr, <- Hs. now rewrite rev_involutive.
  - rewrite forallb_forall in *. intros x Hx. apply Hw. now apply in_rev.
Qed.

Lemma settledFrom_TrimSpace (s : list ascii) (ins : bool) :
  settledFrom ins s = true -> settledFrom ins (TrimSpace s) = true.
Proof.
  unfold TrimSpace. intros H.
  destruct (TrimLeftSpace_split s) as (w & Hs & Hw).
  rewrite Hs, settledFrom_plain_app in H
    by (now apply (forallb_impl isSpace plainByte); auto using isSpace_plain).
  destruct (TrimRightSpace_split (TrimLeftSpace s)) as (w' & Hs' & _).
  rewrite Hs' in H. now apply settledFrom_prefix in H.
Qed.

Lemma settledFrom_sliceTo (s : list ascii) (n : Z) (ins : bool) :
  settledFrom ins s = true -> settledFrom ins (sliceTo s n) = true.
Proof.
  unfold sliceTo. intros H. rewrite <- (firstn_skipn (Z.to_nat n) s) in H.
  now apply settledFrom_prefix in H.
Qed.

Lemma settledFrom_app_plain (x y : list ascii) (ins : bool) :
  settledFrom ins x = true -> forallb plainByte y = true ->
  settledFrom ins (x ++ y) = true.
Proof.
  intros Hx Hy. rewrite settledFrom_app, Hx.
  now destruct (plain_settled y (flagAfter ins x) Hy) as [-> _].
Qed.

(** The capture groups of the two patterns are digits. *)
Lemma clause_captures (s : list ascii) (ms : list (list ascii)) :
  FindStringSubmatch limitOnly s = Some ms \/ FindStringSubmatch limitOffset s = Some ms ->
  forallb digitClass (sub ms 1) = true /\ forallb digitClass (sub ms 2) = true.
Proof.
  intros [H|H];
    apply FindStringSubmatch_sound in H as (pre & t & m0 & caps & -> & -> & H);
    apply matchHere_sound in H.
  - rewrite limitOnly_clause in H.
    apply clause_inv in H
      as (a0 & k & a1 & n & s' & m' & caps' & _ & _ & _ & _ & _ & [_ Hn] & -> & H).
    apply tailPattern_inv in H as (_ & _ & ->). auto.
  - rewrite limitOffset_clause in H.
    apply clause_inv in H
      as (a0 & k & a1 & n & s' & m' & caps' & _ & _ & _ & _ & _ & [_ Hn] & -> & H).
    apply clause_inv in H
      as (b0 & k2 & b1 & n2 & s'' & m'' & caps'' & _ & _ & _ & _ & _ & [_ Hn2] & -> & H).
    apply tailPattern_inv in H as (_ & _ & ->). auto.
Qed.

Lemma transformLimitQuery_settled (query : list ascii) :
  settledFrom false query = true ->
  settledFrom false (transformLimitQuery query) = true.
Proof.
  intros Hq. unfold transformLimitQuery. cbv zeta.
  destruct (FindStringSubmatch limitOffset (TrimSpace query)) as [ms|] eqn:E2.
  { destruct (clause_captures _ _ (or_intror E2)) as [H1 H2].
    apply (forallb_impl _ _ _ digitClass_plain) in H1, H2.
    assert (Hbase : settledFrom false
              (TrimSpace (sliceTo (TrimSpace query)
                 (Z.of_nat (length (TrimSpace query)) - Z.of_nat (length (sub ms 0))))) = true)
      by (now apply settledFrom_TrimSpace, settledFrom_sliceTo, settledFrom_TrimSpace).
    apply settledFrom_app_plain.
    - destruct (negb _); [|exact Hbase]. now apply settledFrom_app_plain.
    - now rewrite !forallb_app, H1, H2. }
  destruct (FindStringSubmatch limitOnly (TrimSpace query)) as [ms|] eqn:E1;
    [|exact Hq].
  destruct (clause_captures _ _ (or_introl E1)) as [H1 _].
  apply (forallb_impl _ _ _ digitClass_plain) in H1.
  assert (Hbase : settledFrom false
            (TrimSpace (sliceTo (TrimSpace query)
               (Z.of_nat (length (TrimSpace query)) - Z.of_nat (length (sub ms 0))))) = true)
    by (now apply settledFrom_TrimSpace, settledFrom_sliceTo, settledFrom_TrimSpace).
  destruct (Contains _ " order by ").
  - apply settledFrom_app_plain; [exact Hbase|]. now rewrite !forallb_app, H1.
  - destruct (negb _); [|exact Hq].
    unfold sliceTo, sliceFrom.
    rewrite (app_assoc (list_ascii_of_string " TOP ") (sub ms 1)).
    rewrite settledFrom_insert, firstn_skipn; [exact Hbase|].
    now rewrite forallb_app, H1.
Qed.

Lemma maybeAddOutputClause_settled (q : list ascii) :
  settledFrom false q = true -> settledFrom false (maybeAddOutputClause q) = true.
Proof.
  intros Hq. unfold maybeAddOutputClause.
  destruct (negb _); [exact Hq|]. destruct (Contains _ _); [exact Hq|].
  cbv zeta. destruct (_ =? -1)%Z; [exact Hq|].
  unfold sliceTo, sliceFrom.
  rewrite settledFrom_insert, firstn_skipn; [exact Hq | reflexivity].
Qed.

(** ** ASCII text stays ASCII *)

Lemma isASCII_app (x y : list ascii) : isASCII (x ++ y) = isASCII x && isASCII y.
Proof. apply forallb_app. Qed.

Lemma isASCII_uint (u : Decimal.uint) : isASCII (NilEmpty.string_of_uint u) = true.
Proof. induction u; cbn; auto. Qed.

Lemma isASCII_Itoa (n : Z) : isASCII (Itoa n) = true.
Proof.
  unfold Itoa, NilZero.string_of_int, NilZero.string_of_uint.
  destruct (Z.to_int n) as [u|u]; destruct u; cbn;
    first [reflexivity | exact (isASCII_uint _)].
Qed.

Lemma scan_ascii (s : list ascii) :
  forall (ob ins : bool) (p : Z), isASCII s = true -> isASCII (scan s ob ins p) = true.
Proof.
  induction s as [|c s IH]; intros ob ins p H; [reflexivity|].
  change (isASCII (c :: s)) with ((nat_of_ascii c <? 128)%nat && isASCII s) in H.
  apply andb_prop in H as [Hc Hs]. rewrite scan_cons.
  assert (Hcons : forall t, isASCII t = true -> isASCII (c :: t) = true).
  { intros t Ht. change (isASCII (c :: t)) with ((nat_of_ascii c <? 128)%nat && isASCII t).
    now rewrite Hc, Ht. }
  destruct (c =? "'")%char; [now apply Hcons, IH|].
  destruct (c =? "`")%char.
  { destruct ins; [now apply Hcons, IH|].
    change (isASCII ((if ob then "["%char else "]"%char) :: scan s (negb ob) false p))
      with ((nat_of_ascii (if ob then "["%char else "]"%char) <? 128)%nat
            && isASCII (scan s (negb ob) false p)).
    rewrite IH by assumption. now destruct ob. }
  destruct (c =? "?")%char; [|now apply Hcons, IH].
  destruct ins; [now apply Hcons, IH|].
  rewrite !isASCII_app, isASCII_Itoa, IH by assumption. reflexivity.
Qed.

Lemma translate_ascii (query : list ascii) :
  isASCII query = true -> isASCII (translate query) = true.
Proof. rewrite translate_scan. apply scan_ascii. Qed.

Lemma isASCII_sliceTo (s : list ascii) (n : Z) :
  isASCII s = true -> isASCII (sliceTo s n) = true.
Proof.
  unfold sliceTo. intros H. rewrite <- (firstn_skipn (Z.to_nat n) s), isASCII_app in H.
  now apply andb_prop in H as [H _].
Qed.

Lemma isASCII_sliceFrom (s : list ascii) (n : Z) :
  isASCII s = true -> isASCII (sliceFrom s n) = true.
Proof.
  unfold sliceFrom. intros H. rewrite <- (firstn_skipn (Z.to_nat n) s), isASCII_app in H.
  now apply andb_prop in H as [_ H].
Qed.

Lemma isASCII_TrimSpace (s : list ascii) :
  isASCII s = true -> isASCII (TrimSpace s) = true.
Proof.
  unfold TrimSpace. intros H.
  destruct (TrimLeftSpace_split s) as (w & Hs & _).
  rewrite Hs, isASCII_app in H. apply andb_prop in H as [_ H].
  destruct (TrimRightSpace_split (TrimLeftSpace s)) as (w' & Hs' & _).
  rewrite Hs', isASCII_app in H. now apply andb_prop in H as [H _].
Qed.

Lemma digitClass_ascii (d : list ascii) :
  forallb digitClass d = true -> isASCII d = true.
Proof.
  apply forallb_impl. intros [[] [] [] [] [] [] [] []]; vm_compute; auto.
Qed.

Lemma transformLimitQuery_ascii (query : list ascii) :
  isASCII query = true -> isASCII (transformLimitQuery query) = true.
Proof.
  intros Hq. unfold transformLimitQuery. cbv zeta.
  destruct (FindStringSubmatch limitOffset (TrimSpace query)) as [ms|] eqn:E2.
  { destruct (clause_captures _ _ (or_intror E2)) as [H1 H2].
    apply digitClass_ascii in H1, H2.
    assert (Hbase : isASCII
              (TrimSpace (sliceTo (TrimSpace query)
                 (Z.of_nat (length (TrimSpace query)) - Z.of_nat (length (sub ms 0))))) = true)
      by (now apply isASCII_TrimSpace, isASCII_sliceTo, isASCII_TrimSpace).
    destruct (negb _); rewrite !isASCII_app, Hbase, H1, H2; reflexivity. }
  destruct (FindStringSubmatch limitOnly (TrimSpace query)) as [ms|] eqn:E1;
    [|exact Hq].
  destruct (clause_captures _ _ (or_introl E1)) as [H1 _].
  apply digitClass_ascii in H1.
  assert (Hbase : isASCII
            (TrimSpace (sliceTo (TrimSpace query)
               (Z.of_nat (length (TrimSpace query)) - Z.of_nat (length (sub ms 0))))) = true)
    by (now apply isASCII_TrimSpace, isASCII_sliceTo, isASCII_TrimSpace).
  destruct (Contains _ " order by ").
  - rewrite !isASCII_app, Hbase, H1. reflexivity.
  - destruct (negb _); [|exact Hq].
    rewrite !isASCII_app, isASCII_sliceTo, isASCII_sliceFrom, H1 by assumption.
    reflexivity.
Qed.

Lemma maybeAddOutputClause_ascii (q : list ascii) :
  isASCII q = true -> isASCII (maybeAddOutputClause q) = true.
Proof.
  intros Hq. unfold maybeAddOutputClause.
  destruct (negb _); [exact Hq|]. destruct (Contains _ _); [exact Hq|].
  cbv zeta. destruct (_ =? -1)%Z; [exact Hq|].
  rewrite !isASCII_app, isASCII_sliceTo, isASCII_sliceFrom by assumption. reflexivity.
Qed.

(** X4.  For a statement of ASCII text, the text the wrappers hand on,
    on the Exec path and on the Query path, is ASCII text with no
    back-tick and no [?] outside single-quoted literals: the two later
    transforms bring none back, and a second [translate] over it
    changes nothing. *)
Theorem sent_text_settled (query : list ascii) :
  isASCII query = true ->
  let sent := transformLimitQuery (translate query) in
  let asked := maybeAddOutputClause sent in
  (isASCII sent = true /\
   outsideBefore "`"%char sent (length sent) = 0 /\
   outsideBefore "?"%char sent (length sent) = 0 /\
   translate sent = sent) /\
  (isASCII asked = true /\
   outsideBefore "`"%char asked (length asked) = 0 /\
   outsideBefore "?"%char asked (length asked) = 0 /\
   translate asked = asked).
Proof.
  intros Hascii sent asked.
  assert (A1 : isASCII sent = true)
    by (now apply transformLimitQuery_ascii, translate_ascii).
  assert (A2 : isASCII asked = true) by (now apply maybeAddOutputClause_ascii).
  assert (H1 : settledFrom false sent = true).
  { apply transformLimitQuery_settled. rewrite translate_scan. apply settledFrom_scan. }
  assert (H2 : settledFrom false asked = true)
    by (now apply maybeAddOutputClause_settled).
  split.
  - destruct (proj1 (settled_outside _) H1). repeat split; auto.
    rewrite translate_scan. now apply scan_settled.
  - destruct (proj1 (settled_outside _) H2). repeat split; auto.
    rewrite translate_scan. now apply scan_settled.
Qed.

Lemma sent_text_settled_witness :
  let sent := transformLimitQuery (translate "SELECT `a` FROM `t` WHERE `b` = ? LIMIT 3") in
  translate sent = sent.
Proof.
  exact (proj2 (proj2 (proj2 (proj1
           (sent_text_settled "SELECT `a` FROM `t` WHERE `b` = ? LIMIT 3" eq_refl))))).
Defined.

(** ** transformLimitQuery: what is left alone *)

Lemma transformLimitQuery_no_shape (query : list ascii) :
  (forall base n, ~ endsWithLimit (TrimSpace query) base n) ->
  (forall base n m, ~ endsWithLimitOffset (TrimSpace query) base n m) ->
  transformLimitQuery query = query.
Proof.
  intros Hno1 Hno2. unfold transformLimitQuery. cbv zeta.
  destruct (FindStringSubmatch limitOffset (TrimSpace query)) as [ms|] eqn:E2.
  { exfalso. apply limitOffset_shape in E2 as (base & n & m & H);
      [exact (Hno2 _ _ _ H) | apply TrimSpace_ends]. }
  destruct (FindStringSubmatch limitOnly (TrimSpace query)) as [ms|] eqn:E1.
  { exfalso. apply limitOnly_shape in E1 as (base & n & H);
      [exact (Hno1 _ _ H) | apply TrimSpace_ends]. }
  reflexivity.
Qed.

Lemma nonempty_last (s : list ascii) : s <> [] -> exists s' a, s = s' ++ [a].
Proof.
  destruct s as [|a s] using rev_ind; [contradiction|]. intros _. now exists s, a.
Qed.

(** Only a text that ends with a white-space byte and digits can be
    rewritten. *)
Lemma transformLimitQuery_needs_space (query : list ascii) :
  (forall x w d, TrimSpace query = x ++ [w] ++ d ->
                 spaceClass w = true -> digits d -> False) ->
  transformLimitQuery query = query.
Proof.
  intros Hno. apply transformLimitQuery_no_shape.
  - intros base n (w0 & kwL & w1 & Hs & _ & _ & [Hne Hw1] & Hn).
    destruct (nonempty_last _ Hne) as (w1' & w & ->).
    rewrite forallb_app in Hw1. apply andb_prop in Hw1 as [_ Hw]. cbn in Hw.
    apply andb_prop in Hw as [Hw _].
    apply (Hno (base ++ w0 ++ kwL ++ w1') w n); auto.
    rewrite Hs, <- !app_assoc. reflexivity.
  - intros base n m (w0 & kwL & w1 & w2 & kwO & w3 & Hs & _ & _ & _ & _ & _ & _ & [Hne Hw3] & Hm).
    destruct (nonempty_last _ Hne) as (w3' & w & ->).
    rewrite forallb_app in Hw3. apply andb_prop in Hw3 as [_ Hw]. cbn in Hw.
    apply andb_prop in Hw as [Hw _].
    apply (Hno (base ++ w0 ++ kwL ++ w1 ++ n ++ w2 ++ kwO ++ w3') w m); auto.
    rewrite Hs, <- !app_assoc. reflexivity.
Qed.

(** A byte that is neither white space nor a digit, followed by digits
    only, is not white space followed by digits. *)
Lemma no_space_before_digits (X : list ascii) (c : ascii) (d0 x : list ascii)
    (w : ascii) (d : list ascii) :
  spaceClass c = false -> digitClass c = false -> forallb digitClass d0 = true ->
  X ++ [c] ++ d0 = x ++ [w] ++ d -> spaceClass w = true -> digits d -> False.
Proof.
  intros Hc1 Hc2 Hd0 Heq Hw [_ Hd]. rewrite !app_assoc in Heq.
  apply (trailing_run_unique digitClass) in Heq as [Heq _]; auto.
  - apply app_inj_tail in Heq as [_ ->]. congruence.
  - now rewrite endsOutside_snoc, Hc2.
  - now rewrite endsOutside_snoc, (spaceClass_not_digit _ Hw).
Qed.

Lemma TrimSpace_keeps_word (y : list ascii) (a : ascii) (e : list ascii) :
  isSpace a = false -> endsOutside isSpace (a :: e) = true ->
  TrimSpace (y ++ a :: e) = TrimLeftSpace y ++ a :: e.
Proof.
  intros Ha Hend. unfold TrimSpace. rewrite TrimLeftSpace_keeps by assumption.
  destruct (nonempty_last (a :: e)) as (e0 & l & He); [discriminate|].
  rewrite He in *. rewrite endsOutside_snoc in Hend. apply negb_true_iff in Hend.
  rewrite app_assoc, TrimRightSpace_keeps by assumption. reflexivity.
Qed.

Lemma digitClass_uint (u : Decimal.uint) :
  forallb digitClass (NilEmpty.string_of_uint u) = true.
Proof. induction u; cbn; auto. Qed.

(** [Itoa] writes digits, after a minus sign for a negative number. *)
Lemma Itoa_shape (n : Z) :
  exists c d, ("p"%char :: Itoa n = [c] ++ d \/ "p"%char :: Itoa n = "p" ++ [c] ++ d) /\
              (c = "p"%char \/ c = "-"%char) /\
              d <> [] /\ forallb digitClass d = true.
Proof.
  unfold Itoa, NilZero.string_of_int, NilZero.string_of_uint.
  destruct (Z.to_int n) as [u|u].
  - exists "p"%char. eexists. split; [left; reflexivity|]. split; [now left|].
    destruct u; cbn; (split; [discriminate|]); rewrite ?digitClass_uint; reflexivity.
  - exists "-"%char. eexists. split; [right; reflexivity|]. split; [now right|].
    destruct u; cbn; (split; [discriminate|]); rewrite ?digitClass_uint; reflexivity.
Qed.

Lemma scan_app (x : list ascii) :
  forall (y : list ascii) (ob ins : bool) (p : Z),
    exists ob' ins' p',
      scan (x ++ y) ob ins p = scan x ob ins p ++ scan y ob' ins' p'.
Proof.
  induction x as [|c x IH]; intros y ob ins p; [now exists ob, ins, p|].
  cbn [app]. rewrite !scan_cons.
  destruct (c =? "'")%char.
  { destruct (IH y ob (negb ins) p) as (ob' & ins' & p' & ->). now exists ob', ins', p'. }
  destruct (c =? "`")%char.
  { destruct ins.
    - destruct (IH y ob true p) as (ob' & ins' & p' & ->). now exists ob', ins', p'.
    - destruct (IH y (negb ob) false p) as (ob' & ins' & p' & ->).
      now exists ob', ins', p'. }
  destruct (c =? "?")%char.
  { destruct ins.
    - destruct (IH y ob true p) as (ob' & ins' & p' & ->). now exists ob', ins', p'.
    - destruct (IH y ob false (wrapInt (p + 1))) as (ob' & ins' & p' & ->).
      exists ob', ins', p'. now rewrite <- !app_assoc. }
  destruct (IH y ob ins p) as (ob' & ins' & p' & ->). now exists ob', ins', p'.
Qed.

(** X5.  A statement whose last non-blank byte is a [?], such as one
    that ends with [LIMIT ?], comes out of [translate] ending with [?]
    or [@pN], and [transformLimitQuery] leaves it as it is: a limit
    given as a bound parameter is not rewritten. *)
Theorem placeholder_limit_not_rewritten (query w : list ascii) :
  forallb isSpace w = true ->
  transformLimitQuery (translate (query ++ "?" ++ w)) = translate (query ++ "?" ++ w).
Proof.
  intros Hw. rewrite translate_scan.
  destruct (scan_app query ("?" ++ w) true false 1) as (ob & ins & p & ->).
  change (list_ascii_of_string "?" ++ w) with ("?"%char :: w).
  rewrite scan_cons. change ("?" =? "'")%char with false.
  change ("?" =? "`")%char with false. change ("?" =? "?")%char with true. cbv iota.
  assert (Hplain : forallb plainByte w = true)
    by (apply (forallb_impl isSpace); auto using isSpace_plain).
  set (Y := scan query true false 1).
  apply transformLimitQuery_needs_space. intros x sp d Heq Hsp Hd.
  destruct ins.
  - rewrite scan_settled in Heq by (now apply plain_settled).
    change (Y ++ "?"%char :: w) with (Y ++ ["?"%char] ++ w) in Heq.
    rewrite app_assoc, TrimSpace_trailing, (TrimSpace_keeps_word Y "?"%char [])
      in Heq by auto.
    apply (no_space_before_digits (TrimLeftSpace Y) "?"%char [] x sp d); auto.
  - rewrite scan_settled in Heq by (now apply plain_settled).
    rewrite !app_assoc, TrimSpace_trailing, <- !app_assoc in Heq by assumption.
    change (list_ascii_of_string "@p" ++ Itoa p) with ("@"%char :: "p"%char :: Itoa p) in Heq.
    destruct (Itoa_shape p) as (c & d0 & Hshape & Hc & Hne & Hd0).
    assert (Hlast : endsOutside isSpace ("@"%char :: "p"%char :: Itoa p) = true).
    { destruct Hshape as [-> | ->];
        [change ("@"%char :: [c] ++ d0) with (["@"%char; c] ++ d0)
        |change ("@"%char :: "p" ++ [c] ++ d0) with (["@"%char; "p"%char; c] ++ d0)];
        apply (endsOutside_run _ digitClass); auto using digitClass_not_isSpace. }
    rewrite TrimSpace_keeps_word in Heq by auto.
    destruct Hshape as [Hs | Hs]; rewrite Hs in Heq.
    + apply (no_space_before_digits (TrimLeftSpace Y ++ ["@"%char]) c d0 x sp d); auto;
        [destruct Hc as [-> | ->]; reflexivity
        |destruct Hc as [-> | ->]; reflexivity
        |now rewrite <- app_assoc].
    + apply (no_space_before_digits (TrimLeftSpace Y ++ "@p") c d0 x sp d); auto;
        [destruct Hc as [-> | ->]; reflexivity
        |destruct Hc as [-> | ->]; reflexivity
        |now rewrite <- app_assoc].
Qed.

Lemma placeholder_limit_not_rewritten_witness :
  transformLimitQuery (translate "SELECT * FROM `t` LIMIT ?")
    = "SELECT * FROM [t] LIMIT @p1".
Proof.
  exact (placeholder_limit_not_rewritten "SELECT * FROM `t` LIMIT " [] eq_refl).
Defined.

(** A text that ends with [ ROWS ONLY] is left alone. *)
Lemma transformLimitQuery_rows_only (x : list ascii) :
  transformLimitQuery (x ++ " ROWS ONLY") = x ++ " ROWS ONLY".
Proof.
  apply transformLimitQuery_needs_space. intros y w d Heq Hw Hd.
  change (x ++ list_ascii_of_string " ROWS ONLY")
    with (x ++ [" "%char] ++ "R"%char :: "OWS ONLY") in Heq.
  rewrite app_assoc, (TrimSpace_keeps_word _ "R"%char "OWS ONLY") in Heq
    by reflexivity.
  change ("R"%char :: list_ascii_of_string "OWS ONLY")
    with ("ROWS ONL" ++ ["Y"%char] ++ []) in Heq.
  rewrite app_assoc in Heq.
  apply (no_space_before_digits
           (TrimLeftSpace (x ++ [" "%char]) ++ "ROWS ONL") "Y"%char [] y w d); auto.
Qed.

(** X6.  What the rewriting into OFFSET/FETCH returns, for a statement
    of ASCII text that ends with [LIMIT n OFFSET m] or with [LIMIT n]
    after a base with the bytes [ order by ] in it, is left alone by a
    second application. *)
Theorem transformLimitQuery_twice (query base n m : list ascii) :
  isASCII query = true ->
  endsWithLimitOffset (TrimSpace query) base n m \/
  (endsWithLimit (TrimSpace query) base n /\
   Contains (ToLower (TrimSpace base)) " order by " = true) ->
  transformLimitQuery (transformLimitQuery query) = transformLimitQuery query.
Proof.
  intros _ H.
  assert (Hshape : exists x, transformLimitQuery query = x ++ " ROWS ONLY").
  { unfold transformLimitQuery. cbv zeta. destruct H as [H | [H Horder]].
    - destruct (FindStringSubmatch_limitOffset _ _ _ _ H) as (m0 & base1 & -> & _ & _).
      cbn [sub nth]. eexists. rewrite !app_assoc. reflexivity.
    - destruct (FindStringSubmatch_limitOnly _ _ _ H) as (m0 & base1 & Hfind & Hs & Hbase).
      rewrite (limitOffset_not_limit _ _ _ H), Hfind. cbn [sub nth].
      rewrite Hs, sliceTo_prefix, Hbase, Horder.
      eexists. rewrite !app_assoc. reflexivity. }
  destruct Hshape as [x ->]. apply transformLimitQuery_rows_only.
Qed.

Lemma transformLimitQuery_twice_witness :
  transformLimitQuery (transformLimitQuery "SELECT * FROM t LIMIT 10 OFFSET 20")
    = transformLimitQuery "SELECT * FROM t LIMIT 10 OFFSET 20".
Proof.
  apply (transformLimitQuery_twice
           "SELECT * FROM t LIMIT 10 OFFSET 20" "SELECT * FROM t" "10" "20" eq_refl).
  left. exists " ", "LIMIT", " ", " ", "OFFSET", " ".
  unfold spaces, digits, keyword.
  repeat split; try reflexivity; discriminate.
Defined.

(** ** package strings: Split *)

Lemma Split_nonempty (s : list ascii) (sep : ascii) : Split s sep <> [].
Proof.
  destruct s as [|c s]; cbn; [discriminate|].
  destruct (c =? sep)%char; [discriminate|]. destruct (Split s sep); discriminate.
Qed.

Lemma Split_cons_sep (s : list ascii) (sep : ascii) :
  Split (sep :: s) sep = [] :: Split s sep.
Proof. cbn. now rewrite Ascii.eqb_refl. Qed.

Lemma Split_cons_other (c : ascii) (s : list ascii) (sep : ascii) :
  (c =? sep)%char = false ->
  exists p ps, Split s sep = p :: ps /\ Split (c :: s) sep = (c :: p) :: ps.
Proof.
  intros H. cbn. rewrite H.
  destruct (Split s sep) eqn:E; [now apply Split_nonempty in E|]. eauto.
Qed.

(** The pieces, each followed by the separator, are the text followed by
    the separator. *)
Lemma batchText_Split (s : list ascii) : batchText (Split s newline) = s ++ [newline].
Proof.
  induction s as [|c s IH]; [reflexivity|].
  destruct (c =? newline)%char eqn:Hc.
  - apply Ascii.eqb_eq in Hc as ->. rewrite Split_cons_sep.
    change (batchText ([] :: Split s newline))
      with (newline :: batchText (Split s newline)).
    now rewrite IH.
  - destruct (Split_cons_other c s newline Hc) as (p & ps & E & ->).
    rewrite E in IH.
    change (batchText ((c :: p) :: ps)) with (c :: batchText (p :: ps)).
    now rewrite IH.
Qed.




Lemma Split_app (a b : list ascii) (sep : ascii) :
  Split (a ++ b) sep
    = removelast (Split a sep) ++ (last (Split a sep) [] ++ hd [] (Split b sep))
                                  :: tl (Split b sep).
Proof.
  induction a as [|c a IH].
  - cbn. destruct (Split b sep) eqn:E; [now apply Split_nonempty in E | reflexivity].
  - cbn [app Split]. rewrite IH. destruct (c =? sep)%char.
    + destruct (Split a sep) eqn:E; [now apply Split_nonempty in E | reflexivity].
    + destruct (Split a sep) as [|p [|q qs]] eqn:E;
        [now apply Split_nonempty in E | reflexivity | reflexivity].
Qed.

Lemma Split_spaces (w : list ascii) :
  forallb isSpace w = true ->
  Forall (fun l => forallb isSpace l = true) (Split w newline).
Proof.
  induction w as [|c w IH]; intros Hw; [repeat constructor|].
  cbn in Hw. apply andb_prop in Hw as [Hc Hw]. specialize (IH Hw).
  cbn [Split]. destruct (c =? newline)%char; [now constructor|].
  destruct (Split w newline) as [|p ps]; [repeat constructor; cbn; now rewrite Hc|].
  inversion IH; subst. constructor; [|assumption]. cbn. now rewrite Hc.
Qed.

(** ** Separator lines and batches *)

Lemma isSeparator_leading (c : ascii) (l : list ascii) :
  isSpace c = true -> isSeparator (c :: l) = isSeparator l.
Proof. intros Hc. unfold isSeparator, TrimSpace. cbn [TrimLeftSpace]. now rewrite Hc. Qed.


(** The separators are the lines that read [go], [gO], [Go] or [GO]
    between white space. *)
Lemma isSeparator_spec (line : list ascii) :
  isSeparator line = true <->
  exists w g o w',
    line = w ++ [g; o] ++ w' /\ forallb isSpace w = true /\ forallb isSpace w' = true /\
    (g = "g"%char \/ g = "G"%char) /\ (o = "o"%char \/ o = "O"%char).
Proof.
  assert (Hg : forall x, (lowerByte x =? "g")%char = true -> x = "g"%char \/ x = "G"%char)
    by (intros [[] [] [] [] [] [] [] []]; vm_compute; intros H;
        first [discriminate H | now left | now right]).
  assert (Ho : forall x, (lowerByte x =? "o")%char = true -> x = "o"%char \/ x = "O"%char)
    by (intros [[] [] [] [] [] [] [] []]; vm_compute; intros H;
        first [discriminate H | now left | now right]).
  split.
  - intros H. unfold isSeparator in H.
    destruct (TrimLeftSpace_split line) as (w & Hl & Hw).
    destruct (TrimRightSpace_split (TrimLeftSpace line)) as (w' & Hr & Hw').
    fold (TrimSpace line) in Hr. rewrite Hr in Hl.
    destruct (TrimSpace line) as [|g [|o [|x t]]]; cbn in H; try discriminate H;
      apply andb_prop in H as [H1 H2]; try discriminate H2;
      apply andb_prop in H2 as [H2 H3]; try discriminate H3.
    exists w, g, o, w'. auto 6.
  - intros (w & g & o & w' & -> & Hw & Hw' & Hg' & Ho').
    unfold isSeparator. rewrite app_assoc, TrimSpace_trailing by assumption.
    unfold TrimSpace. rewrite TrimLeftSpace_spaces by assumption.
    destruct Hg' as [-> | ->], Ho' as [-> | ->]; reflexivity.
Qed.

Lemma batches_nonempty (lines : list (list ascii)) : batches lines <> [].
Proof.
  destruct lines as [|l lines]; cbn; [discriminate|].
  destruct (isSeparator l); [discriminate|]. destruct (batches lines); discriminate.
Qed.


(** Without a separator there is one batch. *)
Lemma batches_one (lines : list (list ascii)) :
  Forall (fun l => isSeparator l = false) lines -> batches lines = [lines].
Proof.
  induction 1 as [|l lines Hl _ IH]; [reflexivity|]. cbn [batches]. now rewrite Hl, IH.
Qed.

Lemma batches_app_separator (lines : list (list ascii)) (g : list ascii) :
  isSeparator g = true -> batches (lines ++ [g]) = batches lines ++ [[]].
Proof.
  intros Hg. induction lines as [|l lines IH]; cbn [app batches]; [now rewrite Hg|].
  rewrite IH. destruct (isSeparator l); [reflexivity|].
  destruct (batches lines) eqn:E; [now apply batches_nonempty in E | reflexivity].
Qed.

(** ** executeSQLScriptFile: the loop and the batches *)

Lemma TrimSpace_blank (s : list ascii) : TrimSpace s = [] -> forallb isSpace s = true.
Proof.
  intros H. destruct (TrimLeftSpace_split s) as (w & Hl & Hw).
  destruct (TrimRightSpace_split (TrimLeftSpace s)) as (w' & Hr & Hw').
  fold (TrimSpace s) in Hr. rewrite H in Hr. cbn [app] in Hr.
  rewrite Hl, Hr, forallb_app, Hw, Hw'. reflexivity.
Qed.

Lemma TrimSpace_leading (w s : list ascii) :
  forallb isSpace w = true -> TrimSpace (w ++ s) = TrimSpace s.
Proof. intros Hw. unfold TrimSpace. now rewrite TrimLeftSpace_spaces. Qed.

Lemma batchTexts_nil (pre : list ascii) : batchTexts pre [] = [pre].
Proof. unfold batchTexts. cbn. now rewrite app_nil_r. Qed.

Lemma batchTexts_empty (lines : list (list ascii)) :
  batchTexts [] lines = map batchText (batches lines).
Proof.
  unfold batchTexts. destruct (batches lines) eqn:E; [now apply batches_nonempty in E|].
  reflexivity.
Qed.

Lemma batchTexts_separator (pre line : list ascii) (rest : list (list ascii)) :
  isSeparator line = true -> batchTexts pre (line :: rest) = pre :: batchTexts [] rest.
Proof.
  intros H. rewrite batchTexts_empty. unfold batchTexts. cbn [batches]. rewrite H.
  cbn. now rewrite app_nil_r.
Qed.

Lemma batchTexts_line (pre line : list ascii) (rest : list (list ascii)) :
  isSeparator line = false ->
  batchTexts pre (line :: rest) = batchTexts ((pre ++ line) ++ [newline]) rest.
Proof.
  intros H. unfold batchTexts. cbn [batches]. rewrite H.
  destruct (batches rest) eqn:E; [now apply batches_nonempty in E|].
  change (batchText (line :: l)) with ((line ++ [newline]) ++ batchText l).
  now rewrite <- !app_assoc.
Qed.

(** White space left in the builder by a blank batch does not show in
    the statements that follow. *)
Lemma trimmed_carry (pre : list ascii) (lines : list (list ascii)) :
  TrimSpace pre = [] -> trimmed (batchTexts pre lines) = trimmed (batchTexts [] lines).
Proof.
  intros H. apply TrimSpace_blank in H. unfold batchTexts.
  destruct (batches lines); unfold trimmed; cbn [map app].
  - rewrite <- (app_nil_r pre) at 1. now rewrite TrimSpace_leading.
  - now rewrite TrimSpace_leading.
Qed.







(** ** A separator at the end of a script *)

Lemma Split_app_newline (a b : list ascii) :
  Split (a ++ newline :: b) newline = Split a newline ++ Split b newline.
Proof.
  rewrite Split_app, Split_cons_sep. cbn [hd tl]. rewrite app_nil_r.
  rewrite (app_removelast_last [] (Split_nonempty a newline)) at 3.
  now rewrite <- app_assoc.
Qed.

Lemma blank_not_separator (l : list ascii) :
  forallb isSpace l = true -> isSeparator l = false.
Proof.
  intros H. unfold isSeparator, TrimSpace. now rewrite TrimLeftSpace_all.
Qed.

Lemma TrimSpace_all (w : list ascii) : forallb isSpace w = true -> TrimSpace w = [].
Proof. intros H. unfold TrimSpace. now rewrite TrimLeftSpace_all. Qed.

(** The lines of a text that, trimmed, is a separator: blank lines, a
    separator line, blank lines. *)
Lemma Split_separator (tail : list ascii) :
  isSeparator tail = true ->
  exists B1 G B2,
    Split tail newline = B1 ++ G :: B2 /\
    Forall (fun l => forallb isSpace l = true) B1 /\ isSeparator G = true /\
    Forall (fun l => forallb isSpace l = true) B2.
Proof.
  intros H. apply isSeparator_spec in H as (w & g & o & w' & -> & Hw & Hw' & Hg & Ho).
  change ([g; o] ++ w') with (g :: o :: w').
  induction w as [|c w IH].
  - pose proof (Split_spaces w' Hw') as Hs.
    assert (Eg : (g =? newline)%char = false) by (destruct Hg as [-> | ->]; reflexivity).
    assert (Eo : (o =? newline)%char = false) by (destruct Ho as [-> | ->]; reflexivity).
    cbn [app].
    destruct (Split_cons_other o w' newline Eo) as (p & ps & E1 & E2).
    destruct (Split_cons_other g (o :: w') newline Eg) as (p' & ps' & E3 & E4).
    rewrite E2 in E3. injection E3 as <- <-. rewrite E1 in Hs.
    inversion Hs as [|? ? Hp Hps]; subst.
    exists [], (g :: o :: p), ps. rewrite E4. repeat split; auto.
    apply isSeparator_spec. exists [], g, o, p. auto 6.
  - cbn in Hw. apply andb_prop in Hw as [Hc Hw].
    destruct (IH Hw) as (B1 & G & B2 & E & HB1 & HG & HB2).
    cbn [app]. destruct (c =? newline)%char eqn:Ec.
    + apply Ascii.eqb_eq in Ec as ->. rewrite Split_cons_sep, E.
      exists ([] :: B1), G, B2. repeat split; auto.
    + destruct (Split_cons_other c (w ++ g :: o :: w') newline Ec) as (p & ps & E1 & E2).
      rewrite E2. rewrite E in E1. destruct B1 as [|b B1].
      * injection E1 as <- <-. exists [], (c :: G), B2. repeat split; auto.
        now rewrite isSeparator_leading.
      * injection E1 as <- <-. inversion HB1 as [|? ? Hb HB1']; subst.
        exists ((c :: b) :: B1), G, B2. repeat split; auto.
        constructor; [|assumption]. cbn. now rewrite Hc.
Qed.

Lemma batches_app_middle (X Y : list (list ascii)) (G : list ascii) :
  isSeparator G = true -> batches (X ++ G :: Y) = batches X ++ batches Y.
Proof.
  intros HG. induction X as [|l X IH]; cbn [app batches]; [now rewrite HG|].
  rewrite IH. destruct (isSeparator l); [reflexivity|].
  destruct (batches X) eqn:E; [now apply batches_nonempty in E | reflexivity].
Qed.

Lemma batches_app_lines (X B : list (list ascii)) :
  Forall (fun l => isSeparator l = false) B ->
  batches (X ++ B) = removelast (batches X) ++ [last (batches X) [] ++ B].
Proof.
  intros HB. induction X as [|l X IH]; cbn [app batches].
  - now rewrite batches_one.
  - rewrite IH. destruct (isSeparator l).
    + destruct (batches X) eqn:E; [now apply batches_nonempty in E | reflexivity].
    + destruct (batches X) as [|b [|b' bs]] eqn:E;
        [now apply batches_nonempty in E | reflexivity | reflexivity].
Qed.

Lemma batchText_app (X Y : list (list ascii)) :
  batchText (X ++ Y) = batchText X ++ batchText Y.
Proof. unfold batchText. now rewrite map_app, concat_app. Qed.

Lemma batchText_blank (B : list (list ascii)) :
  Forall (fun l => forallb isSpace l = true) B -> forallb isSpace (batchText B) = true.
Proof.
  induction 1 as [|l B Hl _ IH]; [reflexivity|].
  change (batchText (l :: B)) with ((l ++ [newline]) ++ batchText B).
  rewrite !forallb_app, Hl, IH. reflexivity.
Qed.

Lemma trimmed_app (a b : list (list ascii)) : trimmed (a ++ b) = trimmed a ++ trimmed b.
Proof. unfold trimmed. now rewrite map_app, filter_app. Qed.

(** Blank lines at the end add nothing to the statements. *)
Lemma statements_blank_lines (X B : list (list ascii)) :
  Forall (fun l => forallb isSpace l = true) B -> statements (X ++ B) = statements X.
Proof.
  intros HB. unfold statements.
  rewrite batches_app_lines
    by (eapply Forall_impl; [|exact HB]; apply blank_not_separator).
  rewrite (app_removelast_last [] (batches_nonempty X)) at 3.
  rewrite !map_app, !trimmed_app. f_equal. unfold trimmed. cbn [map].
  now rewrite batchText_app, TrimSpace_trailing by now apply batchText_blank.
Qed.

(** Neither does a separator line followed by blank lines. *)
Lemma statements_final_separator (X B1 B2 : list (list ascii)) (G : list ascii) :
  Forall (fun l => forallb isSpace l = true) B1 -> isSeparator G = true ->
  Forall (fun l => forallb isSpace l = true) B2 ->
  statements (X ++ B1 ++ G :: B2) = statements X.
Proof.
  intros H1 HG H2. unfold statements.
  rewrite app_assoc, batches_app_middle by assumption.
  rewrite map_app, trimmed_app. fold (statements (X ++ B1)).
  rewrite statements_blank_lines by assumption.
  rewrite batches_one by (eapply Forall_impl; [|exact H2]; apply blank_not_separator).
  replace (trimmed (map batchText [B2])) with (@nil (list ascii));
    [apply app_nil_r|].
  unfold trimmed. cbn [map]. now rewrite TrimSpace_all by now apply batchText_blank.
Qed.

Section ScriptProperties.

Context {DB error : Type}.
Variable ReadFile : list ascii -> list ascii + error.
Variable ExecContext : DB -> list ascii -> DB * option error.

Lemma forLines_batches (n : Z) (lines : list (list ascii)) :
  forall (i : Z) (st : script DB),
    outcome (match forLines ExecContext lines i st with
             | (st', Some err) => (st', Some err)
             | (st', None) => execChunk ExecContext st' n
             end)
    = after (stmts st)
        (executeAll ExecContext (trimmed (batchTexts (chunk st) lines)) (db st)).
Proof.
  induction lines as [|line rest IH]; intros i st.
  - cbn [forLines]. rewrite batchTexts_nil. unfold execChunk, trimmed. cbn [map filter].
    destruct (eqString (TrimSpace (chunk st)) "") eqn:E; cbn [negb executeAll].
    + unfold outcome, after. cbn. now rewrite app_nil_r.
    + destruct (ExecContext (db st) (TrimSpace (chunk st))) as [d' [err|]]; reflexivity.
  - cbn [forLines]. fold (isSeparator line). destruct (isSeparator line) eqn:Hsep.
    + rewrite batchTexts_separator by assumption.
      unfold execChunk at 1. unfold trimmed. cbn [map filter]. fold (trimmed (batchTexts [] rest)).
      destruct (eqString (TrimSpace (chunk st)) "") eqn:E; cbn [negb].
      * rewrite IH. apply eqString_spec in E. now rewrite trimmed_carry.
      * cbn [executeAll].
        destruct (ExecContext (db st) (TrimSpace (chunk st))) as [d' [err|]];
          [reflexivity|].
        rewrite IH. cbn [db stmts chunk].
        destruct (executeAll ExecContext (trimmed (batchTexts [] rest)) d')
          as [[d'' done] r].
        unfold after. now rewrite <- app_assoc.
    + rewrite IH. unfold chunkWriteString. cbn [db stmts chunk].
      now rewrite batchTexts_line.
Qed.

(** The whole function against the batches. *)
Lemma executeSQLScriptFile_outcome (d : DB) (path content : list ascii) :
  ReadFile path = inl content ->
  outcome (executeSQLScriptFile ReadFile ExecContext d path)
    = executeAll ExecContext (statements (Split content newline)) d.
Proof.
  intros Hread. unfold executeSQLScriptFile. rewrite Hread. cbv zeta.
  pose proof (forLines_batches (Z.of_nat (length (Split content newline)))
                (Split content newline) 0
                {| db := d; stmts := []; chunk := []; logged := [] |}) as H.
  cbn [db stmts chunk] in H. rewrite batchTexts_empty in H. fold (statements (Split content newline)) in H.
  destruct (forLines ExecContext (Split content newline) 0 _) as [st [err|]].
  - rewrite H. now destruct (executeAll ExecContext _ d) as [[? ?] ?].
  - destruct (execChunk ExecContext st _) as [st' [err|]].
    + rewrite H. now destruct (executeAll ExecContext _ d) as [[? ?] ?].
    + change (outcome (Info st' _, None)) with (outcome (st', @None (scriptError error))).
      rewrite H. now destruct (executeAll ExecContext _ d) as [[? ?] ?].
Qed.

(** X7.  A script of ASCII text that was read is executed batch by batch: the
    separator lines cut its lines into batches, the statement of a batch
    is the trimmed text of its lines, a batch that is blank is passed
    over, and the statements go to the database in order up to the first
    that fails, whose error is the cause of the error returned.  That
    the builder is not reset after a blank batch does not show. *)
Theorem executeSQLScriptFile_batches (d : DB) (path content : list ascii) :
  ReadFile path = inl content ->
  isASCII content = true ->
  let run := executeSQLScriptFile ReadFile ExecContext d path in
  (db (fst run), stmts (fst run), option_map cause (snd run))
    = executeAll ExecContext (statements (Split content newline)) d.
Proof. intros Hread _. exact (executeSQLScriptFile_outcome d path content Hread). Qed.


Lemma execChunk_error (st st' : script DB) (n : Z) (e : scriptError error) :
  execChunk ExecContext st n = (st', Some e) -> exists err, e = chunkFailed n err.
Proof.
  unfold execChunk. destruct (eqString _ _); [discriminate|].
  destruct (ExecContext _ _) as [d' [err|]]; [|discriminate].
  intros H. injection H as _ <-. now exists err.
Qed.

(** An error of the loop carries the number of a separator line. *)
Lemma forLines_error (lines : list (list ascii)) :
  forall (i : Z) (st st' : script DB) (e : scriptError error),
    forLines ExecContext lines i st = (st', Some e) ->
    exists n err,
      e = chunkFailed n err /\ (i < n <= i + Z.of_nat (length lines))%Z /\
      isSeparator (nth (Z.to_nat (n - i - 1)) lines []) = true.
Proof.
  induction lines as [|line rest IH]; intros i st st' e H; [discriminate|].
  cbn [forLines] in H. fold (isSeparator line) in H.
  destruct (isSeparator line) eqn:Hsep.
  - destruct (execChunk ExecContext st (i + 1)) as [st1 [e1|]] eqn:Hc.
    + injection H as _ <-. destruct (execChunk_error _ _ _ _ Hc) as [err ->].
      exists (i + 1)%Z, err. split; [reflexivity|]. split; [cbn [length]; lia|].
      replace (i + 1 - i - 1)%Z with 0%Z by lia. exact Hsep.
    + apply IH in H as (n & err & -> & Hn & Hs). exists n, err.
      split; [reflexivity|]. split; [cbn [length]; lia|].
      replace (Z.to_nat (n - i - 1)) with (S (Z.to_nat (n - (i + 1) - 1))) by lia.
      exact Hs.
  - apply IH in H as (n & err & -> & Hn & Hs). exists n, err.
    split; [reflexivity|]. split; [cbn [length]; lia|].
    replace (Z.to_nat (n - i - 1)) with (S (Z.to_nat (n - (i + 1) - 1))) by lia.
    exact Hs.
Qed.

(** X9.  The error returned says where the run stopped.  When the
    script cannot be read it is the error of [os.ReadFile], wrapped.
    Otherwise, for a script of ASCII text, it carries a line number
    between 1 and the number of lines of the script, and that line is a
    separator or the last line. *)
Theorem executeSQLScriptFile_error (d : DB) (path : list ascii)
    (e : scriptError error) :
  (forall content, ReadFile path = inl content -> isASCII content = true) ->
  snd (executeSQLScriptFile ReadFile ExecContext d path) = Some e ->
  match ReadFile path with
  | inr err => e = readFailed err
  | inl content =>
      let lines := Split content newline in
      exists n err,
        e = chunkFailed n err /\ (1 <= n <= Z.of_nat (length lines))%Z /\
        (n = Z.of_nat (length lines) \/
         isSeparator (nth (Z.to_nat (n - 1)) lines []) = true)
  end.
Proof.
  intros _. unfold executeSQLScriptFile. destruct (ReadFile path) as [content|err].
  - cbv zeta.
    destruct (forLines ExecContext (Split content newline) 0 _) as [st [e1|]] eqn:Hloop.
    + cbn [snd]. intros H. injection H as ->.
      apply forLines_error in Hloop as (n & err & -> & Hn & Hs).
      exists n, err. split; [reflexivity|]. split; [lia|]. right.
      now replace (n - 1)%Z with (n - 0 - 1)%Z by lia.
    + destruct (execChunk ExecContext st _) as [st' [e1|]] eqn:Hc; [|discriminate].
      cbn [snd]. intros H. injection H as ->.
      destruct (execChunk_error _ _ _ _ Hc) as [err ->].
      exists (Z.of_nat (length (Split content newline))), err.
      split; [reflexivity|]. split; [|now left].
      pose proof (Split_nonempty content newline) as Hne.
      destruct (Split content newline); [contradiction | cbn [length]; lia].
  - cbn [snd]. intros H. now injection H as <-.
Qed.

Lemma forLines_no_separator (lines : list (list ascii)) :
  Forall (fun l => isSeparator l = false) lines ->
  forall (i : Z) (st : script DB),
    forLines ExecContext lines i st
      = ({| db := db st; stmts := stmts st; chunk := chunk st ++ batchText lines;
            logged := logged st |}, None).
Proof.
  induction 1 as [|line rest Hsep _ IH]; intros i st.
  - cbn [forLines]. change (batchText []) with (@nil ascii). rewrite app_nil_r.
    now destruct st.
  - cbn [forLines]. fold (isSeparator line). rewrite Hsep, IH.
    unfold chunkWriteString. cbn [db stmts chunk logged].
    change (batchText (line :: rest)) with ((line ++ [newline]) ++ batchText rest).
    now rewrite <- !app_assoc.
Qed.

(** X10.  A script of ASCII text without a separator line is one statement: the whole
    text, trimmed, is handed to the database once, or not at all when
    the script is blank; a failure is reported at the last line. *)
Theorem executeSQLScriptFile_one_batch (d : DB) (path content : list ascii) :
  ReadFile path = inl content ->
  isASCII content = true ->
  Forall (fun l => isSeparator l = false) (Split content newline) ->
  let run := executeSQLScriptFile ReadFile ExecContext d path in
  (db (fst run), stmts (fst run), snd run)
    = if eqString (TrimSpace content) ""
      then (d, [], None)
      else (fst (ExecContext d (TrimSpace content)), [TrimSpace content],
            option_map (chunkFailed (Z.of_nat (length (Split content newline))))
                       (snd (ExecContext d (TrimSpace content)))).
Proof.
  intros Hread _ Hno. unfold executeSQLScriptFile. rewrite Hread. cbv zeta.
  rewrite forLines_no_separator by assumption. unfold execChunk.
  cbn [db stmts chunk logged app]. rewrite batchText_Split.
  rewrite (TrimSpace_trailing content [newline]) by reflexivity.
  destruct (eqString (TrimSpace content) ""); [reflexivity|].
  destruct (ExecContext d (TrimSpace content)) as [d' [err|]]; reflexivity.
Qed.

(** X11.  A separator at the end of a script of ASCII text is optional: a script
    followed by a line feed and by a text that, trimmed, is [GO] in any
    letter case (so with blank lines around it or not) runs as the
    script alone does. *)
Theorem executeSQLScriptFile_final_separator (d : DB)
    (path path' content tail : list ascii) :
  ReadFile path = inl content ->
  ReadFile path' = inl (content ++ newline :: tail) ->
  isASCII content = true -> isASCII tail = true ->
  isSeparator tail = true ->
  let run := executeSQLScriptFile ReadFile ExecContext d path in
  let run' := executeSQLScriptFile ReadFile ExecContext d path' in
  (db (fst run'), stmts (fst run'), option_map cause (snd run'))
    = (db (fst run), stmts (fst run), option_map cause (snd run)).
Proof.
  intros H H' _ _ Htail. cbv zeta.
  pose proof (executeSQLScriptFile_outcome d path content H) as E.
  pose proof (executeSQLScriptFile_outcome d path' _ H') as E'.
  unfold outcome in E, E'. rewrite E, E', Split_app_newline.
  destruct (Split_separator tail Htail) as (B1 & G & B2 & -> & HB1 & HG & HB2).
  now rewrite statements_final_separator.
Qed.

End ScriptProperties.

Lemma executeSQLScriptFile_batches_witness :
  let run := executeSQLScriptFile exampleFiles countingDB 0 "schema.sql" in
  (db (fst run), stmts (fst run), option_map cause (snd run))
    = (2, [list_ascii_of_string "CREATE TABLE a"; list_ascii_of_string "CREATE TABLE b"],
       None).
Proof.
  etransitivity;
    [apply (executeSQLScriptFile_batches exampleFiles countingDB 0 "schema.sql" _
              eq_refl eq_refl)
    | reflexivity].
Defined.

Lemma executeSQLScriptFile_error_witness :
  snd (executeSQLScriptFile exampleFiles countingDB 0 "bad.sql")
    = Some (chunkFailed 4 (list_ascii_of_string "refused")) /\
  exists n err,
    chunkFailed 4 (list_ascii_of_string "refused") = chunkFailed n err /\
    (1 <= n <= 5)%Z /\
    (n = 5%Z \/
     isSeparator (nth (Z.to_nat (n - 1))
                      (Split ("CREATE TABLE a" ++ [newline] ++ "GO" ++ [newline] ++ "FAIL"
                                ++ [newline] ++ "Go" ++ [newline] ++ "CREATE TABLE b")
                             newline) []) = true).
Proof.
  split; [reflexivity|].
  refine (executeSQLScriptFile_error exampleFiles countingDB 0 "bad.sql"
            (chunkFailed 4 (list_ascii_of_string "refused")) _ eq_refl).
  intros content H. injection H as <-. reflexivity.
Defined.

Lemma executeSQLScriptFile_one_batch_witness :
  let run := executeSQLScriptFile exampleFiles countingDB 0 "plain.sql" in
  (db (fst run), stmts (fst run), snd run)
    = (1, ["SELECT 1" ++ [newline] ++ "FROM t"], None).
Proof.
  etransitivity.
  - apply (executeSQLScriptFile_one_batch exampleFiles countingDB 0 "plain.sql" _
             eq_refl eq_refl).
    repeat constructor.
  - vm_compute. reflexivity.
Defined.

Lemma executeSQLScriptFile_final_separator_witness :
  let files (path : list ascii) : list ascii + list ascii :=
    if eqString path "with.sql"
    then inl ("SELECT 1" ++ [newline] ++ " go" ++ [newline])
    else inl (list_ascii_of_string "SELECT 1") in
  let run := executeSQLScriptFile files countingDB 0 "without.sql" in
  let run' := executeSQLScriptFile files countingDB 0 "with.sql" in
  (db (fst run'), stmts (fst run'), option_map cause (snd run'))
    = (db (fst run), stmts (fst run), option_map cause (snd run)).
Proof.
  intros files.
  apply (executeSQLScriptFile_final_separator files countingDB 0
           "without.sql" "with.sql" "SELECT 1" (" go" ++ [newline]));
    reflexivity.
Defined.

(** ** init *)

Lemma alreadyRegistered_spec (drivers : list (list ascii)) :
  alreadyRegistered drivers = existsb (eqString "sqlite3") drivers.
Proof.
  induction drivers as [|n drivers IH]; [reflexivity|]. cbn [alreadyRegistered existsb].
  rewrite IH. destruct (eqString n "sqlite3") eqn:E.
  - apply eqString_spec in E as ->. reflexivity.
  - destruct (eqString "sqlite3" n) eqn:E'; [|reflexivity].
    apply eqString_spec in E'. subst n. discriminate E.
Qed.

Lemma lookup_registered {driver : Type} (name : list ascii) (reg : list (list ascii * driver)) :
  existsb (eqString name) (Drivers reg) = false <-> lookup name reg = None.
Proof.
  induction reg as [|[n drv] reg IH]; [easy|]. cbn [Drivers map fst existsb lookup].
  fold (Drivers reg). destruct (eqString n name) eqn:E.
  - apply eqString_spec in E as ->.
    rewrite (proj2 (eqString_spec name name) eq_refl). easy.
  - destruct (eqString name n) eqn:E'; [|exact IH].
    apply eqString_spec in E'. subst n.
    rewrite (proj2 (eqString_spec name name) eq_refl) in E. discriminate E.
Qed.

(** X12.  [init] never registers the name [sqlite3] a second time, so
    the panic of [sql.Register] on a name in use is not reached.  A
    driver already registered under [sqlite3] stays, and the driver of
    this package is then not installed; otherwise the driver of this
    package is registered under that name.  The other names keep their
    drivers, and running [init] again changes nothing. *)
Theorem init_registers_once {driver : Type} (sqlite3Driver : driver)
    (reg : list (list ascii * driver)) :
  exists reg',
    init sqlite3Driver reg = Some reg' /\
    lookup "sqlite3" reg'
      = match lookup "sqlite3" reg with
        | Some other => Some other
        | None => Some sqlite3Driver
        end /\
    (forall name, name <> list_ascii_of_string "sqlite3" ->
                  lookup name reg' = lookup name reg) /\
    init sqlite3Driver reg' = Some reg'.
Proof.
  unfold init, Register. cbv zeta. rewrite !alreadyRegistered_spec.
  destruct (existsb (eqString "sqlite3") (Drivers reg)) eqn:E.
  - exists reg. rewrite alreadyRegistered_spec, E. repeat split; auto.
    destruct (lookup "sqlite3" reg) eqn:L; [reflexivity|].
    apply lookup_registered in L. congruence.
  - exists (("sqlite3" : list ascii, sqlite3Driver) :: reg).
    split; [reflexivity|]. split; [|split].
    + apply lookup_registered in E. rewrite E. reflexivity.
    + intros name Hname. cbn [lookup].
      destruct (eqString "sqlite3" name) eqn:E'; [|reflexivity].
      apply eqString_spec in E'. congruence.
    + reflexivity.
Qed.

(** ** WrapMSSQLQuoteFix on its own result *)

(** X13.  The constructor decides by the label alone, and a wrapper
    reports the label of the driver it wraps.  So what it returns has
    the label of what it was given, and a second call repeats the
    decision of the first: a driver passed through is passed through
    again, and a wrapper is wrapped once more, at a fresh address. *)
Theorem WrapMSSQLQuoteFix_again (next next' : nat) (d r : Driver) :
  WrapMSSQLQuoteFix next d = Some (r, next') ->
  Dialect r = Dialect d /\
  ((r = d /\ next' = next /\ WrapMSSQLQuoteFix next' r = Some (r, next')) \/
   (r = mkQuoteFixDriver next d /\ next' = S next /\
    WrapMSSQLQuoteFix next' r = Some (mkQuoteFixDriver next' r, S next'))).
Proof.
  unfold WrapMSSQLQuoteFix, newQuoteFixDriver.
  destruct d as [|addr name e q b|addr inner].
  - intros H. injection H as <- <-. split; [reflexivity|]. left. auto.
  - cbn [Dialect]. cbv zeta.
    destruct (negb (eqString (ToLower name) "mssql")
              && negb (eqString (ToLower name) "sqlserver")) eqn:E;
      intros H; injection H as <- <-; (split; [reflexivity|]).
    + left. cbn [Dialect]. rewrite E. auto.
    + right. cbn [Dialect]. rewrite E. auto.
  - destruct (Dialect (mkQuoteFixDriver addr inner)) as [name|] eqn:Hd; [|discriminate].
    cbv zeta.
    destruct (negb (eqString (ToLower name) "mssql")
              && negb (eqString (ToLower name) "sqlserver")) eqn:E;
      intros H; injection H as <- <-; (split; [exact Hd|]).
    + left. rewrite Hd, E. auto.
    + right. cbn [Dialect] in *. rewrite Hd, E. auto.
Qed.

Lemma WrapMSSQLQuoteFix_again_witness :
  let d := foreignDriver 7 "MSSQL" true true false in
  WrapMSSQLQuoteFix 9 (mkQuoteFixDriver 8 d)
    = Some (mkQuoteFixDriver 9 (mkQuoteFixDriver 8 d), 10).
Proof.
  intros d.
  destruct (WrapMSSQLQuoteFix_again 8 9 d (mkQuoteFixDriver 8 d) eq_refl)
    as [_ [(H & _) | (_ & _ & H)]]; [discriminate H | exact H].
Defined.

